(** * Resilience layer of max-mcp-railway: a shallow embedding

    The JavaScript classes of the repository are embedded one module per
    class, each definition carrying the name of the method it embeds:

    - [Breaker]      lib/circuit-breaker.js      (class CircuitBreaker)
    - [Retry]        lib/connection-manager.js   (class ConnectionManager)
    - [Proxy]        the /api/mcp/* route of the server
    - [Dedup]        lib/request-deduplicator.js (class RequestDeduplicator)
    - [Batch]        lib/embedding-queue.js      (class EmbeddingQueue)
    - [Cache]        lib/adaptive-cache-manager.js (class AdaptiveCacheManager)
    - [Metrics]      lib/metrics-aggregator.js   (class MetricsAggregator)
    - [Pool]         lib/weaviate-connection-pool.js
                     (class WeaviateConnectionPool)
    - [Collector]    lib/metrics-collector.js    (class MetricsCollector)
    - [Client]       class OptimizedWeaviateClient, the caller of the
                     connection manager and the cache

    Conventions.  Times are milliseconds since the epoch, in [Z].  JavaScript
    numbers that only ever hold counters are [Z] as well.  Numbers that hold
    ratios are exact rationals ([Q]) or, where the code calls [Math.log10],
    reals ([R]): IEEE rounding is not modelled.  An [async] function is a
    function over an explicit world; the world carries the clock. *)

From Stdlib Require Import ZArith QArith Qround Qminmax Reals Lra Lia List Sorted.
From stdpp Require Import base gmap strings list sorting.
Import ListNotations.
Open Scope Z_scope.

(** ** Promise outcomes, errors and the world *)

(** The errors the embedded code creates with [new Error(...)], and the
    errors thrown by the wrapped operations.  Only two things are ever read
    from an error: its message and [error.response.status]. *)
Inductive Error : Type :=
| CircuitOpenError (operationName : string) (waitTime : Z)
    (* `Circuit breaker is OPEN for ${operationName}. Retry in ${waitTime}s` *)
| RateLimitError (waitSeconds : Z)
    (* `Rate limit exceeded. Wait ${waitSeconds} seconds.` *)
| ConnectionNotFound (connectionName : string)
    (* `Connection ${connectionName} not found` *)
| QueueCleared
| UndefinedError
    (* [throw undefined]: a [lastError] that was never assigned *)
| OperationError (response_status : option Z) (code : Z).
    (* thrown by an operation; [response_status] is [error.response.status]
       when the error carries an HTTP response *)

(** [error.response]: only errors of the operations can carry one. *)
Definition response (e : Error) : option Z :=
  match e with
  | OperationError r _ => r
  | _ => None
  end.

Inductive Outcome (V : Type) : Type :=
| Resolved (v : V)
| Rejected (e : Error).
Arguments Resolved {V} v.
Arguments Rejected {V} e.

(** What an awaited computation can do with the world: read the clock
    ([Date.now()]) and wait on a timer ([setTimeout]). *)
Class World (W : Type) : Type := {
  Date_now : W -> Z;
  sleep : Z -> W -> W
}.

(** An [async () => ...] awaited to completion. *)
Definition Async (W V : Type) : Type := W -> Outcome V * W.

(** Counting instrumentation: the same operation over a world extended with
    the number of times it has been invoked. *)
Definition counted {W V : Type} (op : Async W V) : Async (nat * W) V :=
  fun '(n, w) => let '(r, w') := op w in (r, (S n, w')).

#[global] Instance World_counted {W} `{World W} : World (nat * W) := {
  Date_now := fun nw => Date_now (snd nw);
  sleep := fun d nw => (fst nw, sleep d (snd nw))
}.

(** The simulated world used for concrete runs: a clock, the delays slept
    so far (oldest first) and the number of operation invocations. *)
Record Sim : Type := mkSim {
  sim_now : Z;
  sim_sleeps : list Z;
  sim_calls : nat
}.

#[global] Instance World_Sim : World Sim := {
  Date_now := sim_now;
  sleep := fun d w => mkSim (sim_now w + d) (sim_sleeps w ++ [d]) (sim_calls w)
}.

(** An operation of the simulated world whose [i]-th invocation (from 0)
    settles as [script i]. *)
Definition scripted {V : Type} (script : nat -> Outcome V) : Async Sim V :=
  fun w => (script (sim_calls w),
            mkSim (sim_now w) (sim_sleeps w) (S (sim_calls w))).

(** [Math.ceil(a / b)] for integers [a] and [b > 0]. *)
Definition ceil_div (a b : Z) : Z := - ((- a) / b).

(** [x || d] on an optional number: [undefined] and [0] are falsy. *)
Definition or_default (x : option Z) (d : Z) : Z :=
  match x with
  | Some v => if v =? 0 then d else v
  | None => d
  end.

(** ** lib/circuit-breaker.js *)
Module Breaker.

Inductive State : Type := CLOSED | OPEN | HALF_OPEN.

Definition State_eqb (a b : State) : bool :=
  match a, b with
  | CLOSED, CLOSED | OPEN, OPEN | HALF_OPEN, HALF_OPEN => true
  | _, _ => false
  end.

Record Stats : Type := mkStats {
  totalCalls : Z;
  totalFailures : Z;
  totalSuccesses : Z;
  circuitOpens : Z
}.

Record CircuitBreaker : Type := mkBreaker {
  threshold : Z;
  timeout : Z;
  resetTimeout : Z;
  state : State;
  failures : Z;
  successes : Z;
  nextAttempt : Z;
  lastFailureTime : option Z;
  stats : Stats
}.

Record Options : Type := mkOptions {
  opt_threshold : option Z;
  opt_timeout : option Z;
  opt_resetTimeout : option Z
}.

(** [constructor(options = {})], run when the clock reads [now]. *)
Definition new (options : Options) (now : Z) : CircuitBreaker :=
  {| threshold := or_default (opt_threshold options) 5;
     timeout := or_default (opt_timeout options) 60000;
     resetTimeout := or_default (opt_resetTimeout options) 120000;
     state := CLOSED;
     failures := 0;
     successes := 0;
     nextAttempt := now;
     lastFailureTime := None;
     stats := mkStats 0 0 0 0 |}.

Definition set_state (s : State) (cb : CircuitBreaker) : CircuitBreaker :=
  mkBreaker (threshold cb) (timeout cb) (resetTimeout cb) s (failures cb)
            (successes cb) (nextAttempt cb) (lastFailureTime cb) (stats cb).

Definition set_stats (st : Stats) (cb : CircuitBreaker) : CircuitBreaker :=
  mkBreaker (threshold cb) (timeout cb) (resetTimeout cb) (state cb)
            (failures cb) (successes cb) (nextAttempt cb)
            (lastFailureTime cb) st.

(** [this.stats.totalCalls++] *)
Definition count_call (cb : CircuitBreaker) : CircuitBreaker :=
  let st := stats cb in
  set_stats (mkStats (totalCalls st + 1) (totalFailures st)
                     (totalSuccesses st) (circuitOpens st)) cb.

(** The synchronous head of [execute], up to the [try]: the call is counted,
    then either the circuit-open error is thrown ([inl]) or the call is let
    through ([inr]), an OPEN breaker whose cool-down is over moving to
    HALF_OPEN first.  The breaker returned is the one the operation runs
    against. *)
Definition enter_call (cb : CircuitBreaker) (operationName : string)
    (now : Z) : (Error + unit) * CircuitBreaker :=
  let cb := count_call cb in
  if State_eqb (state cb) OPEN then
    if now <? nextAttempt cb then
      (inl (CircuitOpenError operationName
                             (ceil_div (nextAttempt cb - now) 1000)), cb)
    else (inr tt, set_state HALF_OPEN cb)
  else (inr tt, cb).

(** [onSuccess(operationName)].  [this.lastFailureTime && ...] is false for
    [null] and for a time of [0]. *)
Definition onSuccess (cb : CircuitBreaker) (now : Z) : CircuitBreaker :=
  let st := stats cb in
  let st' := mkStats (totalCalls st) (totalFailures st)
                     (totalSuccesses st + 1) (circuitOpens st) in
  let state' := if State_eqb (state cb) HALF_OPEN then CLOSED else state cb in
  let successes' := successes cb + 1 in
  match lastFailureTime cb with
  | Some lf =>
      if negb (lf =? 0) && (resetTimeout cb <? now - lf) then
        mkBreaker (threshold cb) (timeout cb) (resetTimeout cb) state' 0
                  1 (nextAttempt cb) None st'
      else
        mkBreaker (threshold cb) (timeout cb) (resetTimeout cb) state' 0
                  successes' (nextAttempt cb) (Some lf) st'
  | None =>
      mkBreaker (threshold cb) (timeout cb) (resetTimeout cb) state' 0
                successes' (nextAttempt cb) None st'
  end.

(** [onFailure(operationName, error)] *)
Definition onFailure (cb : CircuitBreaker) (now : Z) : CircuitBreaker :=
  let st := stats cb in
  let failures' := failures cb + 1 in
  let failed := mkStats (totalCalls st) (totalFailures st + 1)
                        (totalSuccesses st) (circuitOpens st) in
  let opened := mkStats (totalCalls st) (totalFailures st + 1)
                        (totalSuccesses st) (circuitOpens st + 1) in
  if State_eqb (state cb) HALF_OPEN then
    mkBreaker (threshold cb) (timeout cb) (resetTimeout cb) OPEN failures'
              (successes cb) (now + timeout cb) (Some now) opened
  else if threshold cb <=? failures' then
    mkBreaker (threshold cb) (timeout cb) (resetTimeout cb) OPEN failures'
              (successes cb) (now + timeout cb) (Some now) opened
  else
    mkBreaker (threshold cb) (timeout cb) (resetTimeout cb) (state cb)
              failures' (successes cb) (nextAttempt cb) (Some now) failed.

(** [async execute(operation, operationName = 'operation')].  The clock is
    read once before the operation and once after it has settled. *)
Definition execute {W V : Type} `{World W} (cb : CircuitBreaker)
    (operation : Async W V) (operationName : string) (w : W)
    : Outcome V * CircuitBreaker * W :=
  match enter_call cb operationName (Date_now w) with
  | (inl err, cb1) => (Rejected err, cb1, w)
  | (inr _, cb1) =>
      match operation w with
      | (Resolved result, w') =>
          (Resolved result, onSuccess cb1 (Date_now w'), w')
      | (Rejected error, w') =>
          (Rejected error, onFailure cb1 (Date_now w'), w')
      end
  end.

(** The number behind [getStatus().stats.successRate], before it is printed
    with [toFixed(2)] and a percent sign. *)
Definition successRate (cb : CircuitBreaker) : Q :=
  if 0 <? totalCalls (stats cb) then
    (inject_Z (totalSuccesses (stats cb)) / inject_Z (totalCalls (stats cb))
     * 100)%Q
  else 0%Q.

(** [x.toFixed(2)] as a number of hundredths: nearest, ties upwards. *)
Definition toFixed2 (x : Q) : Z := Qfloor (x * 100 + (1 # 2))%Q.

(** The object [getStatus()] returns; [status_successRate] is the rate
    before printing. *)
Record Status : Type := mkStatus {
  status_state : State;
  status_failures : Z;
  status_successes : Z;
  status_nextAttempt : option Z;
  status_stats : Stats;
  status_successRate : Q
}.

(** [getStatus()] *)
Definition getStatus (cb : CircuitBreaker) : Status :=
  {| status_state := state cb;
     status_failures := failures cb;
     status_successes := successes cb;
     status_nextAttempt :=
       if State_eqb (state cb) OPEN then Some (nextAttempt cb) else None;
     status_stats := stats cb;
     status_successRate := successRate cb |}.

(** [reset()] *)
Definition reset (cb : CircuitBreaker) (now : Z) : CircuitBreaker :=
  mkBreaker (threshold cb) (timeout cb) (resetTimeout cb) CLOSED 0 0 now
            None (stats cb).

(** The breakers reached from [start] by complete, non-overlapping calls of
    [execute], with any operation in any world, and by calls of [reset]. *)
Inductive run_from (start : CircuitBreaker) : CircuitBreaker -> Prop :=
| run_start : run_from start start
| run_execute (W V : Type) (H : World W) (cb : CircuitBreaker)
    (operation : Async W V) (operationName : string) (w : W) :
    run_from start cb ->
    run_from start (execute cb operation operationName w).1.2
| run_reset (cb : CircuitBreaker) (now : Z) :
    run_from start cb -> run_from start (reset cb now).

End Breaker.

(** ** lib/connection-manager.js *)
Module Retry.

(** [connection.rateLimiter] *)
Record RateLimiter : Type := mkLimiter {
  requests : Z;
  resetTime : Z;
  maxRequests : Z
}.

(** An entry of [this.connections]; the client handle is opaque. *)
Record Connection : Type := mkConnection {
  client : string;
  rateLimiter : option RateLimiter
}.

Record RetryConfig : Type := mkRetryConfig {
  retries : Z;
  retryDelay : Z
}.

Record ConnectionManager : Type := mkManager {
  connections : gmap string Connection;
  retryConfig : RetryConfig
}.

(** [constructor()] followed by [initializeConnections()], run at [now]. *)
Definition new (now : Z) : ConnectionManager :=
  {| connections :=
       <["mcp" := mkConnection "axios" None]>
       (<["weaviate" := mkConnection "weaviate" None]>
       (<["cohere" := mkConnection "cohere"
                        (Some (mkLimiter 0 (now + 60000) 100))]>
       (<["openrouter" := mkConnection "openai" None]> ∅)));
     retryConfig := mkRetryConfig 3 1000 |}.

(** [retryConfig.retryCondition]:
    [!error.response || error.response.status >= 500] *)
Definition retryCondition (error : Error) : bool :=
  match response error with
  | None => true
  | Some status => 500 <=? status
  end.

Definition set_limiter (connectionName : string) (l : RateLimiter)
    (cm : ConnectionManager) : ConnectionManager :=
  mkManager
    (alter (fun c => mkConnection (client c) (Some l)) connectionName
           (connections cm))
    (retryConfig cm).

(** [async checkRateLimit(connectionName)]: [inl] is the thrown error. *)
Definition checkRateLimit (cm : ConnectionManager) (connectionName : string)
    (now : Z) : (Error + unit) * ConnectionManager :=
  match connections cm !! connectionName with
  | None => (inr tt, cm)
  | Some connection =>
      match rateLimiter connection with
      | None => (inr tt, cm)
      | Some limiter =>
          let '(limiter, cm) :=
            if resetTime limiter <? now
            then
              let fresh := mkLimiter 0 (now + 60000) (maxRequests limiter) in
              (fresh, set_limiter connectionName fresh cm)
            else (limiter, cm) in
          if maxRequests limiter <=? requests limiter then
            (inl (RateLimitError (ceil_div (resetTime limiter - now) 1000)),
             cm)
          else (inr tt, cm)
      end
  end.

(** [updateRateLimit(connectionName)] *)
Definition updateRateLimit (cm : ConnectionManager) (connectionName : string)
    : ConnectionManager :=
  match connections cm !! connectionName with
  | None => cm
  | Some connection =>
      match rateLimiter connection with
      | None => cm
      | Some limiter =>
          set_limiter connectionName
            (mkLimiter (requests limiter + 1) (resetTime limiter)
                       (maxRequests limiter)) cm
      end
  end.

(** The body of the [try] block of [executeWithRetry]: one attempt. *)
Definition attempt_once {W V : Type} `{World W} (cm : ConnectionManager)
    (connectionName : string) (connection : Connection)
    (operation : string -> Async W V) (w : W)
    : Outcome V * ConnectionManager * W :=
  let checked :=
    if String.eqb connectionName "cohere"
    then checkRateLimit cm "cohere" (Date_now w)
    else (inr tt, cm) in
  match checked with
  | (inl err, cm) => (Rejected err, cm, w)
  | (inr _, cm) =>
      match operation (client connection) w with
      | (Resolved result, w') =>
          let cm := if String.eqb connectionName "cohere"
                    then updateRateLimit cm "cohere" else cm in
          (Resolved result, cm, w')
      | (Rejected error, w') => (Rejected error, cm, w')
      end
  end.

(** The [for] loop of [executeWithRetry] with [iterations] passes left,
    the loop variable at [attempt]. *)
Fixpoint retry_loop {W V : Type} `{World W} (iterations : nat) (attempt : Z)
    (lastError : Error) (cm : ConnectionManager) (connectionName : string)
    (connection : Connection) (operation : string -> Async W V) (w : W)
    : Outcome V * ConnectionManager * W :=
  match iterations with
  | O => (Rejected lastError, cm, w)
  | S iterations' =>
      match attempt_once cm connectionName connection operation w with
      | (Resolved result, cm', w') => (Resolved result, cm', w')
      | (Rejected error, cm', w') =>
          if (attempt <? retries (retryConfig cm)) && retryCondition error
          then
            let delay := retryDelay (retryConfig cm) * 2 ^ attempt in
            retry_loop iterations' (attempt + 1) error cm' connectionName
                       connection operation (sleep delay w')
          else (Rejected error, cm', w')
      end
  end.

(** [async executeWithRetry(connectionName, operation)].  The loop runs for
    [attempt = 0 .. retries], that is at most [retries + 1] passes. *)
Definition executeWithRetry {W V : Type} `{World W} (cm : ConnectionManager)
    (connectionName : string) (operation : string -> Async W V) (w : W)
    : Outcome V * ConnectionManager * W :=
  match connections cm !! connectionName with
  | None => (Rejected (ConnectionNotFound connectionName), cm, w)
  | Some connection =>
      retry_loop (Z.to_nat (retries (retryConfig cm) + 1)) 0 UndefinedError
                 cm connectionName connection operation w
  end.

(** [getRateLimitStatus(connectionName)] at time [now]: [remaining] and
    [resetIn], [None] for [null]. *)
Definition getRateLimitStatus (cm : ConnectionManager)
    (connectionName : string) (now : Z) : option (Z * Z) :=
  match connections cm !! connectionName with
  | None => None
  | Some connection =>
      match rateLimiter connection with
      | None => None
      | Some limiter =>
          Some (maxRequests limiter - requests limiter,
                Z.max 0 (resetTime limiter - now))
      end
  end.

(** Instrumentation for the waits: the same world extended with the delays
    slept so far, oldest first, and an operation lifted to it. *)
#[global] Instance World_logged {W} `{World W} : World (list Z * W) := {
  Date_now := fun lw => Date_now (snd lw);
  sleep := fun d lw => (fst lw ++ [d], sleep d (snd lw))
}.

Definition logged {W V : Type} (op : Async W V) : Async (list Z * W) V :=
  fun '(l, w) => let '(r, w') := op w in (r, (l, w')).

(** The delays before the retries [attempt .. attempt + k - 1]. *)
Definition backoff (cm : ConnectionManager) (attempt : Z) (k : nat) : list Z :=
  map (fun i => retryDelay (retryConfig cm) * 2 ^ (attempt + Z.of_nat i))
      (seq 0 k).

(** The limiter of a connection, if it has one. *)
Definition limiter_of (cm : ConnectionManager) (connectionName : string)
    : option RateLimiter :=
  match connections cm !! connectionName with
  | Some connection => rateLimiter connection
  | None => None
  end.

End Retry.

(** ** The /api/mcp/* route: breaker around deduplicator around retry *)
Module Proxy.

#[global] Instance World_managed {W} `{World W}
    : World (Retry.ConnectionManager * W) := {
  Date_now := fun cw => Date_now (snd cw);
  sleep := fun d cw => (fst cw, sleep d (snd cw))
}.

(** The route handler for a request that is not answered from the cache and
    has no identical request in flight (then [dedupe] invokes its function
    and hands its outcome through, see [Dedup.dedupe]):
    [circuitBreakers.mcp.execute(async () => ...
       connectionManager.executeWithRetry('mcp', request) ..., 'mcp-proxy')].
    The connection manager is shared state, so it travels with the world of
    the operation handed to the breaker. *)
Definition mcp_proxy {W V : Type} `{World W} (cb : Breaker.CircuitBreaker)
    (cm : Retry.ConnectionManager) (request : string -> Async W V) (w : W)
    : Outcome V * Breaker.CircuitBreaker * (Retry.ConnectionManager * W) :=
  Breaker.execute cb
    (fun cw : Retry.ConnectionManager * W =>
       let '(r, cm', w') :=
         Retry.executeWithRetry (fst cw) "mcp" request (snd cw) in
       (r, (cm', w')))
    "mcp-proxy" (cm, w).

(** [circuitBreakers.mcp], constructed at [now]. *)
Definition mcp_breaker (now : Z) : Breaker.CircuitBreaker :=
  Breaker.new (Breaker.mkOptions (Some 5) (Some 30000) None) now.

End Proxy.

(** ** lib/request-deduplicator.js *)
Module Dedup.

(** Promises are named by the order of their creation. *)
Definition Promise : Type := nat.

(** The deduplicator ([pending], [deduped], [total]) together with the
    promises around it.  Every call of [requestFn()] returns a promise, and
    [dedupe] derives from it, with [.then(...).catch(...)], the promise it
    stores in [pending] and hands to the callers; one name stands for the
    pair.

    - [inflight]: the pairs whose handler has not run yet, each with the key
      the handler deletes;
    - [arrived]: the outcome of a [requestFn()] that has settled while its
      handler, a job of a later turn of the event loop, has not run yet;
    - [settled]: the outcomes of the derived promises, which is what the
      callers receive;
    - [invoked]: the keys [requestFn] was called for, latest first;
    - [fresh]: the next unused name. *)
Record RequestDeduplicator (V : Type) : Type := mkDedup {
  pending : gmap string Promise;
  deduped : Z;
  total : Z;
  inflight : gmap Promise string;
  arrived : gmap Promise (Outcome V);
  settled : gmap Promise (Outcome V);
  invoked : list string;
  fresh : Promise
}.
Arguments mkDedup {V}.
Arguments pending {V}.
Arguments deduped {V}.
Arguments total {V}.
Arguments inflight {V}.
Arguments arrived {V}.
Arguments settled {V}.
Arguments invoked {V}.
Arguments fresh {V}.

(** [constructor()] *)
Definition new {V : Type} : RequestDeduplicator V :=
  mkDedup ∅ 0 0 ∅ ∅ ∅ [] O.

(** [async dedupe(key, requestFn)]: the promise whose outcome the caller
    receives, and the deduplicator afterwards. *)
Definition dedupe {V : Type} (key : string) (d : RequestDeduplicator V)
    : Promise * RequestDeduplicator V :=
  match pending d !! key with
  | Some promise =>
      (promise,
       mkDedup (pending d) (deduped d + 1) (total d + 1) (inflight d)
               (arrived d) (settled d) (invoked d) (fresh d))
  | None =>
      let promise := fresh d in
      (promise,
       mkDedup (<[key := promise]> (pending d)) (deduped d) (total d + 1)
               (<[promise := key]> (inflight d)) (arrived d) (settled d)
               (key :: invoked d) (S promise))
  end.

(** The promise [requestFn()] returned settles.  A promise settles once:
    a second settlement, or one of a promise not in flight, does nothing. *)
Definition settle {V : Type} (promise : Promise) (outcome : Outcome V)
    (d : RequestDeduplicator V) : RequestDeduplicator V :=
  match inflight d !! promise, arrived d !! promise with
  | Some _, None =>
      mkDedup (pending d) (deduped d) (total d) (inflight d)
              (<[promise := outcome]> (arrived d)) (settled d) (invoked d)
              (fresh d)
  | _, _ => d
  end.

(** The handler of a settled [requestFn()] runs: the [then] callback on
    success, the [catch] callback on failure.  Either does
    [this.pending.delete(key)] and passes the outcome on to the derived
    promise. *)
Definition react {V : Type} (promise : Promise) (d : RequestDeduplicator V)
    : RequestDeduplicator V :=
  match inflight d !! promise, arrived d !! promise with
  | Some key, Some outcome =>
      mkDedup (delete key (pending d)) (deduped d) (total d)
              (delete promise (inflight d)) (delete promise (arrived d))
              (<[promise := outcome]> (settled d)) (invoked d) (fresh d)
  | _, _ => d
  end.

(** What the event loop does to a deduplicator. *)
Inductive Event (V : Type) : Type :=
| Call (key : string)
| Settle (promise : Promise) (outcome : Outcome V)
| React (promise : Promise).
Arguments Call {V} key.
Arguments Settle {V} promise outcome.
Arguments React {V} promise.

Definition step {V : Type} (d : RequestDeduplicator V) (e : Event V)
    : option (string * Promise) * RequestDeduplicator V :=
  match e with
  | Call key => let '(promise, d') := dedupe key d in (Some (key, promise), d')
  | Settle promise outcome => (None, settle promise outcome d)
  | React promise => (None, react promise d)
  end.

(** Runs the events in order; returns, for every [Call], its key and the
    promise handed to the caller. *)
Fixpoint run {V : Type} (events : list (Event V)) (d : RequestDeduplicator V)
    : list (string * Promise) * RequestDeduplicator V :=
  match events with
  | [] => ([], d)
  | e :: rest =>
      let '(returned, d') := step d e in
      let '(more, d'') := run rest d' in
      (match returned with Some r => r :: more | None => more end, d'')
  end.

Definition reachable {V : Type} (d : RequestDeduplicator V) : Prop :=
  exists events, d = snd (run events new).

(** The derived promise [promise] is unsettled throughout [events]: its
    handler does not run. *)
Definition unsettled_during {V : Type} (promise : Promise)
    (events : list (Event V)) : Prop :=
  forall p, In (React p) events -> p <> promise.

(** The outcome with which the [requestFn()] behind [promise] settles
    during [events], if it does. *)
Fixpoint first_settlement {V : Type} (promise : Promise)
    (events : list (Event V)) : option (Outcome V) :=
  match events with
  | [] => None
  | Settle p outcome :: rest =>
      if Nat.eqb p promise then Some outcome
      else first_settlement promise rest
  | _ :: rest => first_settlement promise rest
  end.

(** How often [requestFn] was called for [key]. *)
Definition invocations {V : Type} (key : string) (d : RequestDeduplicator V)
    : nat :=
  count_occ String.string_dec (invoked d) key.

(** The pending table and the promises in flight mirror each other; only
    promises in flight have an outcome waiting for its handler; settled
    promises are no longer in flight; names from [fresh] on are unused. *)
Definition consistent {V : Type} (d : RequestDeduplicator V) : Prop :=
  (forall k p, pending d !! k = Some p -> inflight d !! p = Some k)
  /\ (forall p k, inflight d !! p = Some k -> pending d !! k = Some p)
  /\ (forall p k, inflight d !! p = Some k -> (p < fresh d)%nat)
  /\ (forall p o, arrived d !! p = Some o -> is_Some (inflight d !! p))
  /\ (forall p o, settled d !! p = Some o ->
                 (p < fresh d)%nat /\ inflight d !! p = None).

(** [clear()]: empties the table; the operations in flight and their
    handlers are not touched. *)
Definition clear {V : Type} (d : RequestDeduplicator V)
    : RequestDeduplicator V :=
  mkDedup ∅ (deduped d) (total d) (inflight d) (arrived d) (settled d)
          (invoked d) (fresh d).

(** The object [getStats()] returns; [stat_rate] is the number behind
    [deduplicationRate], before it is printed. *)
Record Stats : Type := mkStats {
  stat_deduped : Z;
  stat_total : Z;
  stat_rate : Q;
  stat_currentPending : nat
}.

(** [getStats()] *)
Definition getStats {V : Type} (d : RequestDeduplicator V) : Stats :=
  {| stat_deduped := deduped d;
     stat_total := total d;
     stat_rate :=
       if 0 <? total d
       then (inject_Z (deduped d) / inject_Z (total d) * 100)%Q
       else 0%Q;
     stat_currentPending := size (pending d) |}.

(** What the counters satisfy along a run. *)
Definition counted_right {V : Type} (d : RequestDeduplicator V) : Prop :=
  0 <= deduped d
  /\ total d = deduped d + Z.of_nat (length (invoked d))
  /\ size (pending d) = size (inflight d).

End Dedup.

(** ** lib/embedding-queue.js *)
Module Batch.

(** A queued request; [options] stands for [JSON.stringify(item.options)],
    the only use the queue makes of it.  The resolver pair of the item is
    not modelled. *)
Record Item : Type := mkItem {
  text : string;
  options : string;
  timestamp : Z
}.

(** The scheduling state of the queue.  [timer] is the time at which the
    armed timeout is due, [None] when no timeout is armed (never set,
    cleared, or already fired).  The counters of [this.stats] take no part
    in scheduling and are left out. *)
Record EmbeddingQueue : Type := mkQueue {
  batchSize : Z;
  maxWait : Z;
  queue : list Item;
  processing : bool;
  timer : option Z
}.

(** [constructor(options = {})] *)
Definition new (opt_batchSize opt_maxWait : option Z) : EmbeddingQueue :=
  mkQueue (or_default opt_batchSize 96) (or_default opt_maxWait 100)
          [] false None.

(** [processQueue()] up to its first [await]: the batch handed to
    [processBatch] (after grouping), if any. *)
Definition processQueue (q : EmbeddingQueue)
    : option (list Item) * EmbeddingQueue :=
  if processing q || (Z.of_nat (length (queue q)) =? 0) then (None, q)
  else
    let n := Z.to_nat (batchSize q) in
    (Some (firstn n (queue q)),
     mkQueue (batchSize q) (maxWait q) (skipn n (queue q)) true (timer q)).

(** [scheduleProcessing()] at time [now] *)
Definition scheduleProcessing (q : EmbeddingQueue) (now : Z)
    : option (list Item) * EmbeddingQueue :=
  let q := mkQueue (batchSize q) (maxWait q) (queue q) (processing q) None in
  if batchSize q <=? Z.of_nat (length (queue q)) then processQueue q
  else
    (None,
     mkQueue (batchSize q) (maxWait q) (queue q) (processing q)
             (Some (now + maxWait q))).

(** [add(text, options)] at time [now] *)
Definition add (q : EmbeddingQueue) (text options : string) (now : Z)
    : option (list Item) * EmbeddingQueue :=
  let q := mkQueue (batchSize q) (maxWait q)
                   (queue q ++ [mkItem text options now])
                   (processing q) (timer q) in
  if negb (processing q) then scheduleProcessing q now else (None, q).

(** The event loop reaches time [now]: an armed timeout that is due runs
    its callback, [processQueue()]. *)
Definition timer_fires (q : EmbeddingQueue) (now : Z)
    : option (list Item) * EmbeddingQueue :=
  match timer q with
  | Some due =>
      if due <=? now then
        processQueue (mkQueue (batchSize q) (maxWait q) (queue q)
                              (processing q) None)
      else (None, q)
  | None => (None, q)
  end.

(** The tail of [processQueue()], after the last group has been awaited. *)
Definition processQueue_done (q : EmbeddingQueue) (now : Z)
    : option (list Item) * EmbeddingQueue :=
  let q := mkQueue (batchSize q) (maxWait q) (queue q) false (timer q) in
  if 0 <? Z.of_nat (length (queue q)) then scheduleProcessing q now
  else (None, q).

(** [groupByOptions(items)]: groups in order of first appearance, items in
    order of arrival. *)
Fixpoint group_insert (item : Item) (groups : list (string * list Item))
    : list (string * list Item) :=
  match groups with
  | [] => [(options item, [item])]
  | (key, members) :: rest =>
      if String.eqb key (options item)
      then (key, members ++ [item]) :: rest
      else (key, members) :: group_insert item rest
  end.

Definition groupByOptions (items : list Item) : list (list Item) :=
  map snd (fold_left (fun groups item => group_insert item groups) items []).

Inductive Event : Type :=
| Add (text options : string) (now : Z)
| Clock (now : Z)
| Done (now : Z).

Definition step (q : EmbeddingQueue) (e : Event)
    : option (list Item) * EmbeddingQueue :=
  match e with
  | Add text options now => add q text options now
  | Clock now => timer_fires q now
  | Done now => processQueue_done q now
  end.

Definition time_of (e : Event) : Z :=
  match e with
  | Add _ _ now | Clock now | Done now => now
  end.

(** Runs the events in order and logs every flush with its time. *)
Fixpoint run (events : list Event) (q : EmbeddingQueue)
    : list (Z * list Item) * EmbeddingQueue :=
  match events with
  | [] => ([], q)
  | e :: rest =>
      let '(flush, q') := step q e in
      let '(flushes, q'') := run rest q' in
      (match flush with
       | Some batch => (time_of e, batch) :: flushes
       | None => flushes
       end, q'')
  end.

(** [clear()]: the items rejected with 'Queue cleared', and the queue
    afterwards.  [processing] is not touched. *)
Definition clear (q : EmbeddingQueue) : list Item * EmbeddingQueue :=
  (queue q, mkQueue (batchSize q) (maxWait q) [] (processing q) None).

(** The items the [Add] events of a run put into the queue, in order. *)
Fixpoint added (events : list Event) : list Item :=
  match events with
  | [] => []
  | Add text options now :: rest => mkItem text options now :: added rest
  | _ :: rest => added rest
  end.

(** The queues reached from [start] by the methods and the timer. *)
Inductive reached (start : EmbeddingQueue) : EmbeddingQueue -> Prop :=
| reached_start : reached start start
| reached_step (q : EmbeddingQueue) (e : Event) :
    reached start q -> reached start (step q e).2
| reached_clear (q : EmbeddingQueue) :
    reached start q -> reached start (clear q).2.

(** Queued items are being looked after: a flush is running, whose end
    re-schedules, or a timeout is armed. *)
Definition attended (q : EmbeddingQueue) : Prop :=
  queue q <> [] -> processing q = true \/ is_Some (timer q).

(** The items of [seen] whose options are [key], in order. *)
Definition with_options (key : string) (seen : list Item) : list Item :=
  List.filter (fun i => String.eqb key (options i)) seen.

End Batch.

(** ** lib/adaptive-cache-manager.js *)
Module Cache.

(** A value of [this.accessPatterns].  The object literal that starts a
    pattern has no [created] property and nothing assigns one later; the
    field is kept because [trackAccess] reads it. *)
Record AccessPattern : Type := mkPattern {
  count : Z;
  lastAccess : Z;
  frequency : Q;
  created : option Z
}.

(** [this.adaptiveConfig] *)
Definition minMultiplier : Q := 1 # 2.
Definition maxMultiplier : Q := 3.
Definition decayFactor : Q := 95 # 100.
Definition updateInterval : Z := 60000.

(** [this.caches[cacheType]?.options.stdTTL], from the constructor of the
    base class. *)
Definition stdTTL (cacheType : string) : option Z :=
  if String.eqb cacheType "embeddings" then Some 3600
  else if String.eqb cacheType "searches" then Some 300
  else if String.eqb cacheType "mcp" then Some 60
  else if String.eqb cacheType "metadata" then Some 1800
  else None.

(** [`${cacheType}:${key}`] *)
Definition patternKey (cacheType key : string) : string :=
  cacheType +:+ ":" +:+ key.

(** [trackAccess(cacheType, key)] at time [now] *)
Definition trackAccess (patterns : gmap string AccessPattern)
    (cacheType key : string) (now : Z) : gmap string AccessPattern :=
  let pattern :=
    default (mkPattern 0 now 0 None) (patterns !! patternKey cacheType key) in
  let count' := count pattern + 1 in
  let hoursSinceCreation :=
    (inject_Z (now - or_default (created pattern) now) / 3600000)%Q in
  <[patternKey cacheType key :=
      mkPattern count' now
                (inject_Z count' / Qmax hoursSinceCreation 1)%Q
                (created pattern)]> patterns.

(** [get(cacheType, key)] as far as the patterns go; [result] is what the
    underlying cache returned, [None] for a miss. *)
Definition get {V : Type} (patterns : gmap string AccessPattern)
    (cacheType key : string) (result : option V) (now : Z)
    : gmap string AccessPattern :=
  match result with
  | Some _ => trackAccess patterns cacheType key now
  | None => patterns
  end.

(** One pass of the loop of [updatePatterns()] over an entry: [None] when
    the entry is deleted. *)
Definition decay (now : Z) (pattern : AccessPattern) : option AccessPattern :=
  let maxAge := 24 * 60 * 60 * 1000 in
  if maxAge <? now - lastAccess pattern then None
  else
    let frequency' := (frequency pattern * decayFactor)%Q in
    if negb (Qle_bool (1 # 100) frequency') then None
    else Some (mkPattern (count pattern) (lastAccess pattern) frequency'
                         (created pattern)).

(** [updatePatterns()] at time [now] *)
Definition updatePatterns (patterns : gmap string AccessPattern) (now : Z)
    : gmap string AccessPattern :=
  omap (decay now) patterns.

(** [Math.log10] and [Math.round] on the reals. *)
Definition log10 (x : R) : R := (ln x / ln 10)%R.
Definition Math_round (x : R) : Z := Int_part (x + / 2)%R.

(** [Math.max(min, Math.min(max, multiplier))] *)
Definition boundedMultiplier (frequency : Q) : R :=
  Rmax (Q2R minMultiplier)
       (Rmin (Q2R maxMultiplier) (1 + log10 (Q2R frequency + 1) * (5 / 10)))%R.

(** [this.caches[cacheType]?.options.stdTTL || 300] *)
Definition baseTTL (cacheType : string) : Z := or_default (stdTTL cacheType) 300.

(** [getAdaptiveTTL(cacheType, key)] *)
Definition getAdaptiveTTL (patterns : gmap string AccessPattern)
    (cacheType key : string) : Z :=
  match patterns !! patternKey cacheType key with
  | None => baseTTL cacheType
  | Some pattern =>
      if Qeq_bool (frequency pattern) 0 then baseTTL cacheType
      else
        Math_round (IZR (baseTTL cacheType)
                    * boundedMultiplier (frequency pattern))%R
  end.

(** [set(cacheType, key, value, ttl = null)]: the TTL handed to the
    underlying cache, [ttl || this.getAdaptiveTTL(cacheType, key)]. *)
Definition set_ttl (patterns : gmap string AccessPattern)
    (cacheType key : string) (ttl : option Z) : Z :=
  match ttl with
  | Some t => if t =? 0 then getAdaptiveTTL patterns cacheType key else t
  | None => getAdaptiveTTL patterns cacheType key
  end.

(** What happens to the patterns over time: hits of [get] and the sweeps
    armed by [startPatternUpdates()]. *)
Inductive Event : Type :=
| Hit (cacheType key : string) (now : Z)
| Sweep (now : Z).

Definition step (patterns : gmap string AccessPattern) (e : Event)
    : gmap string AccessPattern :=
  match e with
  | Hit cacheType key now => get patterns cacheType key (Some tt) now
  | Sweep now => updatePatterns patterns now
  end.

Definition run (events : list Event) : gmap string AccessPattern :=
  fold_left step events ∅.

(** [n] sweeps, one every [updateInterval], the first at [start]. *)
Fixpoint sweeps (n : nat) (start : Z) : list Event :=
  match n with
  | O => []
  | S n' => Sweep start :: sweeps n' (start + updateInterval)
  end.

(** The frequency as the documentation of [trackAccess] describes it,
    "accesses per hour": the count over the hours since the key was first
    seen, at least one.  Stated from the description, for comparison with
    what [trackAccess] stores. *)
Definition accesses_per_hour (count firstSeen now : Z) : Q :=
  (inject_Z count / Qmax (inject_Z (now - firstSeen) / 3600000) 1)%Q.

(** What every stored pattern satisfies. *)
Definition well_formed (patterns : gmap string AccessPattern) : Prop :=
  forall k pattern,
    patterns !! k = Some pattern ->
    created pattern = None /\ 0 < count pattern
    /\ (0 <= frequency pattern)%Q.

(** [ToInt32]: what [x << 5] and [x & x] do to an integer first. *)
Definition ToInt32 (x : Z) : Z := (x + 2 ^ 31) mod 2 ^ 32 - 2 ^ 31.

(** One pass of the loop of [hashString]:
    [hash = ((hash << 5) - hash) + char; hash = hash & hash]. *)
Definition hash_step (hash char : Z) : Z :=
  ToInt32 ((ToInt32 (hash * 2 ^ 5) - hash) + char).

(** [str.charCodeAt(i)] for every [i], for a string of code units below
    256. *)
Fixpoint codes (str : string) : list Z :=
  match str with
  | EmptyString => []
  | String c rest => Z.of_N (Ascii.N_of_ascii c) :: codes rest
  end.

(** The loop of [hashString] followed by [Math.abs], over the code units of
    the string. *)
Definition hash_of (units : list Z) : Z :=
  Z.abs (fold_left hash_step units 0).

(** A digit of [toString(36)]. *)
Definition digit36 (d : Z) : Ascii.ascii :=
  if d <? 10 then Ascii.ascii_of_N (Z.to_N (48 + d))
  else Ascii.ascii_of_N (Z.to_N (87 + d)).

Fixpoint toString36_from (fuel : nat) (n : Z) (acc : string) : string :=
  match fuel with
  | O => acc
  | S fuel' =>
      let acc' := String (digit36 (n mod 36)) acc in
      if n / 36 =? 0 then acc' else toString36_from fuel' (n / 36) acc'
  end.

(** [n.toString(36)] for [0 <= n < 36^7]; a hash is at most [2^31]. *)
Definition toString36 (n : Z) : string := toString36_from 7 n EmptyString.

(** [hashString(str)] *)
Definition hashString (str : string) : string :=
  toString36 (hash_of (codes str)).

(** [generateKey(type, ...params)], the parameters already turned into
    strings ([String(p)], or [JSON.stringify(p)] for an object). *)
Definition generateKey (type : string) (params : list string) : string :=
  type +:+ ":" +:+ hashString (String.concat ":" params).

(** The hash of Java's [String.hashCode], before it is cut to 32 bits. *)
Definition poly31 (units : list Z) : Z :=
  fold_left (fun h c => 31 * h + c) units 0.

(** The frequency [f] after [n] sweeps that keep the pattern. *)
Definition decayed (n : nat) (f : Q) : Q :=
  Nat.iter n (fun x => (x * decayFactor)%Q) f.

End Cache.

(** ** lib/metrics-aggregator.js *)
Module Metrics.

Record MetricPoint : Type := mkPoint {
  value : Q;
  timestamp : Z;
  tags : list (string * string)
}.

(** [this.aggregationIntervals['24h']] *)
Definition interval_24h : Z := 86400000.

Section Keys.

(** [a.localeCompare(b)] depends on the locale of the host; it is left
    open.  [Array.prototype.sort] is stable, as is the insertion below. *)
Variable localeCompare : string -> string -> comparison.

Fixpoint insert_tag (t : string * string) (sorted : list (string * string))
    : list (string * string) :=
  match sorted with
  | [] => [t]
  | u :: rest =>
      match localeCompare (fst t) (fst u) with
      | Lt => t :: u :: rest
      | _ => u :: insert_tag t rest
      end
  end.

Definition sort_tags (ts : list (string * string)) : list (string * string) :=
  fold_left (fun sorted t => insert_tag t sorted) ts [].

Fixpoint join (sep : string) (parts : list string) : string :=
  match parts with
  | [] => EmptyString
  | [p] => p
  | p :: rest => p +:+ sep +:+ join sep rest
  end.

(** [getMetricKey(name, tags)] *)
Definition getMetricKey (name : string) (tags : list (string * string))
    : string :=
  let tagString :=
    join "," (map (fun kv => fst kv +:+ ":" +:+ snd kv) (sort_tags tags)) in
  if String.eqb tagString EmptyString then name else name +:+ "," +:+ tagString.

(** [cleanupOldData(key)] at time [now] *)
Definition cleanupOldData (timeSeries : gmap string (list MetricPoint))
    (key : string) (now : Z) : gmap string (list MetricPoint) :=
  let cutoff := now - interval_24h in
  match timeSeries !! key with
  | Some data =>
      let filtered :=
        List.filter (fun point => cutoff <? timestamp point) data in
      if (length filtered <? length data)%nat
      then <[key := filtered]> timeSeries
      else timeSeries
  | None => timeSeries
  end.

(** [addMetric(name, value, timestamp = Date.now(), tags = {})] at [now] *)
Definition addMetric (timeSeries : gmap string (list MetricPoint))
    (name : string) (value : Q) (timestamp : option Z)
    (tags : list (string * string)) (now : Z)
    : gmap string (list MetricPoint) :=
  let key := getMetricKey name tags in
  let data := default [] (timeSeries !! key) in
  let point := mkPoint value (default now timestamp) tags in
  cleanupOldData (<[key := data ++ [point]]> timeSeries) key now.

(** The store with the clock of the process.  Nothing in the class arms a
    timer: the store changes only when a method is called. *)
Record Store : Type := mkStore {
  timeSeries : gmap string (list MetricPoint);
  clock : Z
}.

Inductive Event : Type :=
| AddMetric (name : string) (value : Q) (timestamp : option Z)
            (tags : list (string * string))
| Elapse (ms : Z).

Definition step (s : Store) (e : Event) : Store :=
  match e with
  | AddMetric name value timestamp tags =>
      mkStore (addMetric (timeSeries s) name value timestamp tags (clock s))
              (clock s)
  | Elapse ms => mkStore (timeSeries s) (clock s + Z.max 0 ms)
  end.

(** The store reached from an empty one constructed at [start]. *)
Definition run (start : Z) (events : list Event) : Store :=
  fold_left step events (mkStore ∅ start).

End Keys.

(** A sample the horizon should have dropped: [timestamp <= now - 24h],
    the complement of the test of [cleanupOldData]. *)
Definition expired (now : Z) (point : MetricPoint) : bool :=
  timestamp point <=? now - interval_24h.

(** [this.aggregationIntervals[interval] || 60000] *)
Definition intervalMs (interval : string) : Z :=
  if String.eqb interval "1m" then 60000
  else if String.eqb interval "5m" then 300000
  else if String.eqb interval "15m" then 900000
  else if String.eqb interval "1h" then 3600000
  else if String.eqb interval "24h" then 86400000
  else 60000.

(** [Math.floor(point.timestamp / intervalMs) * intervalMs] *)
Definition bucketTime (ms : Z) (point : MetricPoint) : Z :=
  timestamp point / ms * ms.

(** [buckets.get(bucketTime).push(point.value)], after
    [buckets.set(bucketTime, [])] when the bucket is new; the [Map] keeps
    its keys in insertion order. *)
Fixpoint bucket_push (t : Z) (v : Q) (buckets : list (Z * list Q))
    : list (Z * list Q) :=
  match buckets with
  | [] => [(t, [v])]
  | (t', values) :: rest =>
      if t' =? t then (t', values ++ [v]) :: rest
      else (t', values) :: bucket_push t v rest
  end.

(** The [data.forEach] of [aggregateTimeSeries]. *)
Definition group_buckets (ms : Z) (data : list MetricPoint)
    : list (Z * list Q) :=
  fold_left (fun buckets point =>
               bucket_push (bucketTime ms point) (value point) buckets)
            data [].

(** An element of the array [aggregateTimeSeries] returns.  [count], [sum],
    [avg], [min], [max], the percentiles and [stdDev] are computed from the
    values of the bucket and from nothing else; [agg_values] stands for
    them. *)
Record Aggregate : Type := mkAggregate {
  agg_timestamp : Z;
  agg_interval : string;
  agg_values : list Q
}.

(** [count: values.length] *)
Definition agg_count (a : Aggregate) : nat := length (agg_values a).

(** [aggregated.sort((a, b) => a.timestamp - b.timestamp)]; the sort of
    JavaScript is stable, as is the insertion below. *)
Fixpoint insert_aggregate (a : Aggregate) (sorted : list Aggregate)
    : list Aggregate :=
  match sorted with
  | [] => [a]
  | b :: rest =>
      if agg_timestamp a <? agg_timestamp b then a :: b :: rest
      else b :: insert_aggregate a rest
  end.

Definition sort_aggregates (aggregated : list Aggregate) : list Aggregate :=
  fold_left (fun sorted a => insert_aggregate a sorted) aggregated [].

(** [aggregateTimeSeries(metricName, interval = '1m', tags = {})] on the
    series stored under [key = getMetricKey(metricName, tags)]. *)
Definition aggregateTimeSeries (timeSeries : gmap string (list MetricPoint))
    (key : string) (interval : string) : list Aggregate :=
  let data := default [] (timeSeries !! key) in
  match data with
  | [] => []
  | _ =>
      sort_aggregates
        (map (fun bucket => mkAggregate (fst bucket) interval (snd bucket))
             (group_buckets (intervalMs interval) data))
  end.

(** The window of a bucket: [t <= timestamp < t + ms]. *)
Definition in_window (ms t : Z) (point : MetricPoint) : bool :=
  (t <=? timestamp point) && (timestamp point <? t + ms).

(** The values of the samples of bucket [t], in order of arrival. *)
Definition values_at (ms t : Z) (data : list MetricPoint) : list Q :=
  map value (List.filter (fun p => bucketTime ms p =? t) data).

(** The order [sort(([a], [b]) => a.localeCompare(b))] puts two entries
    in: the key of the first compares below the key of the second. *)
Definition tag_before (localeCompare : string -> string -> comparison)
    (t u : string * string) : Prop :=
  localeCompare (fst t) (fst u) = Lt.

End Metrics.

(** ** lib/weaviate-connection-pool.js *)
Module Pool.

(** An element of [this.pool]; the client handle is named by the order of
    its creation. *)
Record PoolSlot : Type := mkSlot {
  client : nat;
  inUse : bool;
  lastUsed : Z;
  requestCount : Z
}.

Record WeaviateConnectionPool : Type := mkPool {
  poolSize : Z;
  pool : list PoolSlot;
  currentIndex : nat;
  connectionsCreated : Z;
  totalRequests : Z
}.

(** The [release] closure of a connection handed out. *)
Inductive Release : Type :=
| ReleaseSlot (index : nat)
| ReleaseNothing.

(** [initializePool()]: slots [created .. created + n - 1], every
    [createConnection()] succeeding. *)
Fixpoint initializePool (n : nat) (created : nat) (now : Z) : list PoolSlot :=
  match n with
  | O => []
  | S n' => mkSlot created false now 0 :: initializePool n' (S created) now
  end.

(** [constructor(options = {})] at time [now] *)
Definition new (opt_poolSize : option Z) (now : Z) : WeaviateConnectionPool :=
  let size := or_default opt_poolSize 5 in
  let slots := initializePool (Z.to_nat size) O now in
  mkPool size slots O (Z.of_nat (length slots)) 0.

(** The [for] loop of [getConnection()]: with [remaining] passes left and the
    loop variable at [i], the index of the first slot found free. *)
Fixpoint find_free (slots : list PoolSlot) (current : nat) (i remaining : nat)
    : option nat :=
  match remaining with
  | O => None
  | S remaining' =>
      let index := ((current + i) mod length slots)%nat in
      match slots !! index with
      | Some conn =>
          if inUse conn then find_free slots current (S i) remaining'
          else Some index
      | None => None
      end
  end.

(** [getConnection()] at time [now]; [None] is the [TypeError] raised when
    [this.pool[this.currentIndex]] is [undefined]. *)
Definition getConnection (p : WeaviateConnectionPool) (now : Z)
    : option (nat * Release * WeaviateConnectionPool) :=
  let n := length (pool p) in
  match find_free (pool p) (currentIndex p) O n with
  | Some index =>
      match pool p !! index with
      | Some conn =>
          Some (client conn, ReleaseSlot index,
                mkPool (poolSize p)
                       (<[index := mkSlot (client conn) true now
                                          (requestCount conn + 1)]> (pool p))
                       ((index + 1) mod n)%nat
                       (connectionsCreated p) (totalRequests p + 1))
      | None => None
      end
  | None =>
      match pool p !! currentIndex p with
      | Some conn =>
          Some (client conn, ReleaseNothing,
                mkPool (poolSize p)
                       (<[currentIndex p :=
                            mkSlot (client conn) (inUse conn) (lastUsed conn)
                                   (requestCount conn + 1)]> (pool p))
                       ((currentIndex p + 1) mod n)%nat
                       (connectionsCreated p) (totalRequests p + 1))
      | None => None
      end
  end.

(** [releaseConnection(index)] *)
Definition releaseConnection (p : WeaviateConnectionPool) (index : nat)
    : WeaviateConnectionPool :=
  match pool p !! index with
  | Some conn =>
      mkPool (poolSize p)
             (<[index := mkSlot (client conn) false (lastUsed conn)
                                (requestCount conn)]> (pool p))
             (currentIndex p) (connectionsCreated p) (totalRequests p)
  | None => p
  end.

(** Calling the [release] of a connection. *)
Definition release (p : WeaviateConnectionPool) (r : Release)
    : WeaviateConnectionPool :=
  match r with
  | ReleaseSlot index => releaseConnection p index
  | ReleaseNothing => p
  end.

(** Every slot is marked in use. *)
Definition saturated (p : WeaviateConnectionPool) : Prop :=
  Forall (fun conn => inUse conn = true) (pool p).

(** [close()] *)
Definition close (p : WeaviateConnectionPool) : WeaviateConnectionPool :=
  mkPool (poolSize p) [] (currentIndex p) (connectionsCreated p)
         (totalRequests p).

(** [execute(operation)] when nothing else touches the pool while the
    operation is awaited.  [errors] is [this.stats.errors]; [operation c] is
    what the operation settles with on client [c]; [None] is the [TypeError]
    of [getConnection()]. *)
Definition execute {V : Type} (p : WeaviateConnectionPool) (errors : Z)
    (operation : nat -> Outcome V) (now : Z)
    : option (Outcome V * WeaviateConnectionPool * Z) :=
  match getConnection p now with
  | Some (c, connection_release, p') =>
      match operation c with
      | Resolved result =>
          Some (Resolved result, release p' connection_release, errors)
      | Rejected error =>
          Some (Rejected error, release p' connection_release, errors + 1)
      end
  | None => None
  end.

(** From [getStats()]: [this.pool.reduce((sum, c) => sum + c.requestCount, 0)]. *)
Definition requestCounts (slots : list PoolSlot) : Z :=
  fold_left (fun sum c => sum + requestCount c) slots 0.

(** What callers do to a pool: take a connection, or call the [release] of
    one they were given, at any later time and any number of times. *)
Inductive Event : Type :=
| Acquire (now : Z)
| Return (r : Release).

(** A [getConnection()] that throws has counted the request already. *)
Definition step (p : WeaviateConnectionPool) (e : Event)
    : WeaviateConnectionPool :=
  match e with
  | Acquire now =>
      match getConnection p now with
      | Some (_, _, p') => p'
      | None =>
          mkPool (poolSize p) (pool p) (currentIndex p) (connectionsCreated p)
                 (totalRequests p + 1)
      end
  | Return r => release p r
  end.

Definition run (p : WeaviateConnectionPool) (events : list Event)
    : WeaviateConnectionPool :=
  fold_left step events p.

Definition acquisitions (events : list Event) : Z :=
  Z.of_nat (length (List.filter (fun e => match e with
                                          | Acquire _ => true
                                          | Return _ => false
                                          end) events)).

(** The clients handed out by one [getConnection()] per element of [times]
    with no release in between, up to the first call that throws. *)
Fixpoint handed_out (p : WeaviateConnectionPool) (times : list Z) : list nat :=
  match times with
  | [] => []
  | now :: rest =>
      match getConnection p now with
      | Some (c, _, p') => c :: handed_out p' rest
      | None => []
      end
  end.

(** The pool after [m] connections were taken from a fresh pool of [n] and
    none released: the first [m] slots are busy, the cursor is at
    [m mod n]. *)
Definition taken (n m : nat) (p : WeaviateConnectionPool) : Prop :=
  length (pool p) = n
  /\ currentIndex p = (m mod n)%nat
  /\ forall j, (j < n)%nat ->
       exists conn,
         pool p !! j = Some conn /\ client conn = j
         /\ inUse conn = (j <? m)%nat.

End Pool.

(** ** class MetricsCollector *)
Module Collector.

(** A value of [this.metrics.requests.byEndpoint].  [avgDuration] is
    recomputed from [durations] by every call and is not kept here. *)
Record EndpointMetrics : Type := mkEndpoint {
  count : Z;
  durations : list Z
}.

(** [this.metrics], as far as [recordRequest] goes.  [byStatus] is keyed by
    [Math.floor(status / 100)], the [N] of the property name [`${N}xx`];
    [byEndpoint] is keyed by request paths. *)
Record MetricsCollector : Type := mkCollector {
  total : Z;
  byEndpoint : gmap string EndpointMetrics;
  byStatus : gmap Z Z;
  errors : Z;
  responseTimes : list Z
}.

(** [constructor()] and [reset()] *)
Definition new : MetricsCollector := mkCollector 0 ∅ ∅ 0 [].

(** [xs.push(x); if (xs.length > limit) xs.shift()] *)
Definition push_window (limit : nat) (xs : list Z) (x : Z) : list Z :=
  let xs' := xs ++ [x] in
  if (limit <? length xs')%nat then tail xs' else xs'.

(** [recordRequest(endpoint, status, duration)] *)
Definition recordRequest (m : MetricsCollector) (endpoint : string)
    (status duration : Z) : MetricsCollector :=
  let endpointMetrics :=
    default (mkEndpoint 0 []) (byEndpoint m !! endpoint) in
  let statusGroup := status / 100 in
  mkCollector
    (total m + 1)
    (<[endpoint := mkEndpoint (count endpointMetrics + 1)
                              (push_window 100 (durations endpointMetrics)
                                           duration)]> (byEndpoint m))
    (<[statusGroup := default 0 (byStatus m !! statusGroup) + 1]> (byStatus m))
    (if 400 <=? status then errors m + 1 else errors m)
    (push_window 1000 (responseTimes m) duration).

(** A finished request, as the tracking middleware reports it. *)
Record Request : Type := mkRequest {
  req_path : string;
  res_statusCode : Z;
  req_duration : Z
}.

Definition run (requests : list Request) : MetricsCollector :=
  fold_left (fun m r => recordRequest m (req_path r) (res_statusCode r)
                                      (req_duration r))
            requests new.

(** The last [n] elements of a list. *)
Definition last_n {A : Type} (n : nat) (l : list A) : list A :=
  drop (length l - n) l.

(** The requests of one endpoint, and of one status group. *)
Definition to_endpoint (endpoint : string) (requests : list Request)
    : list Request :=
  List.filter (fun r => String.eqb (req_path r) endpoint) requests.

Definition in_group (statusGroup : Z) (requests : list Request)
    : list Request :=
  List.filter (fun r => res_statusCode r / 100 =? statusGroup) requests.

(** What [byEndpoint] and [byStatus] should hold for the requests [rs] of
    one endpoint, and of one status group: nothing when there were none. *)
Definition endpoint_entry (rs : list Request) : option EndpointMetrics :=
  match rs with
  | [] => None
  | _ => Some (mkEndpoint (Z.of_nat (length rs))
                          (last_n 100 (map req_duration rs)))
  end.

Definition group_entry (rs : list Request) : option Z :=
  match rs with
  | [] => None
  | _ => Some (Z.of_nat (length rs))
  end.

End Collector.

(** ** class OptimizedWeaviateClient *)
Module Client.

(** An object handed to [batchInsert]; only [title] and [content] are
    read. *)
Record Document : Type := mkDocument {
  title : string;
  content : option string
}.

(** [results]; an element of [errors] is
    [{ batch: `${i}-${i + batch.length}`, error: error.message }], kept as
    the two ends of the range and the error. *)
Record Results : Type := mkResults {
  successful : Z;
  failed : Z;
  errors : list (Z * Z * Error)
}.

Definition batchSize : nat := 50.

(** [obj.title + ' ' + (obj.content || '').substring(0, 1000)] *)
Definition textToEmbed (obj : Document) : string :=
  title obj +:+ " "
  +:+ String.substring 0 1000 (default EmptyString (content obj)).

(** The objects the error entries stand for. *)
Definition reported (errors : list (Z * Z * Error)) : Z :=
  fold_right (fun entry sum => (snd (fst entry) - fst (fst entry)) + sum)
             0 errors.

Section BatchInsert.

Context {W E : Type}.

(** [this.batchGenerateEmbeddings(textsToEmbed)], an array that may have
    holes, and the [executeWithRetry('weaviate', ...)] that inserts a batch
    with its vectors. *)
Variable batchGenerateEmbeddings : list string -> Async W (list (option E)).
Variable insertBatch : list (Document * option E) -> Async W unit.

(** The [for (let i = 0; i < objects.length; i += batchSize)] of
    [batchInsert], from [i] on, with [fuel] passes left.  When the value
    caught from the insert is [undefined], reading [error.message] throws
    a [TypeError], which the outer [catch] rethrows; [UndefinedError] stands
    for it. *)
Fixpoint insert_from (fuel i : nat) (objects : list Document)
    (results : Results) (w : W) : Outcome Results * W :=
  match fuel with
  | O => (Resolved results, w)
  | S fuel' =>
      if (i <? length objects)%nat then
        let batch := take batchSize (drop i objects) in
        match batchGenerateEmbeddings (map textToEmbed batch) w with
        | (Rejected error, w1) => (Rejected error, w1)
        | (Resolved embeddings, w1) =>
            let batchWithVectors :=
              imap (fun idx obj => (obj, mjoin (embeddings !! idx))) batch in
            match insertBatch batchWithVectors w1 with
            | (Resolved _, w2) =>
                insert_from fuel' (i + batchSize) objects
                  (mkResults (successful results + Z.of_nat (length batch))
                             (failed results) (errors results)) w2
            | (Rejected error, w2) =>
                match error with
                | UndefinedError => (Rejected UndefinedError, w2)
                | _ =>
                    insert_from fuel' (i + batchSize) objects
                      (mkResults (successful results)
                                 (failed results + Z.of_nat (length batch))
                                 (errors results
                                  ++ [(Z.of_nat i,
                                       Z.of_nat (i + length batch), error)]))
                      w2
                end
            end
        end
      else (Resolved results, w)
  end.

(** [batchInsert(className, objects)]: the loop runs at most once per
    object. *)
Definition batchInsert (objects : list Document) : Async W Results :=
  insert_from (length objects) 0 objects (mkResults 0 0 []).

End BatchInsert.

(** An error entry names a batch of [n] objects: it starts at a multiple of
    the batch size and holds between one and [batchSize] objects of the
    input. *)
Definition names_a_batch (n : nat) (entry : Z * Z * Error) : Prop :=
  fst (fst entry) mod 50 = 0
  /\ 0 <= fst (fst entry) < snd (fst entry)
  /\ snd (fst entry) <= fst (fst entry) + 50
  /\ snd (fst entry) <= Z.of_nat n.

Section Embedding.

Context {W E : Type} `{World W}.

(** [generateEmbedding(text)].  [cache] is the [embeddings] cache of the
    cache manager, as long as no entry expires (its TTL is an hour);
    [embed text client] is the operation handed to [executeWithRetry], the
    call of [client.embed] for [text]; an embedding is an array, hence
    truthy.  The metrics recorded on the way are left out. *)
Definition generateEmbedding (cm : Retry.ConnectionManager)
    (cache : gmap string E) (embed : string -> string -> Async W E)
    (text : string) (w : W)
    : Outcome E * (Retry.ConnectionManager * gmap string E) * W :=
  let cacheKey := Cache.generateKey "embedding" [text] in
  match cache !! cacheKey with
  | Some cached => (Resolved cached, (cm, cache), w)
  | None =>
      match Retry.executeWithRetry cm "cohere" (embed text) w with
      | (Resolved result, cm', w') =>
          (Resolved result, (cm', <[cacheKey := result]> cache), w')
      | (Rejected error, cm', w') => (Rejected error, (cm', cache), w')
      end
  end.

End Embedding.

End Client.

(** ** Concrete runs *)
Module Scenario.

(** An operation that always fails with a 503, and one that always
    succeeds. *)
Definition failing : Async Sim Z :=
  scripted (fun _ => Rejected (OperationError (Some 503) 0)).

Definition succeeding : Async Sim Z :=
  scripted (fun _ => Resolved 42).

(** [new CircuitBreaker({ threshold: 3, timeout: 1000 })] at time 0, and the
    same breaker after failed calls at 100, 200 and 300. *)
Definition breaker_3_1000 : Breaker.CircuitBreaker :=
  Breaker.new (Breaker.mkOptions (Some 3) (Some 1000) None) 0.

Definition tripped : Breaker.CircuitBreaker :=
  let cb1 := (Breaker.execute breaker_3_1000 failing "op" (mkSim 100 [] 0)).1.2 in
  let cb2 := (Breaker.execute cb1 failing "op" (mkSim 200 [] 1)).1.2 in
  (Breaker.execute cb2 failing "op" (mkSim 300 [] 2)).1.2.

(** A breaker that saw one success before it tripped. *)
Definition tripped_after_success : Breaker.CircuitBreaker :=
  let cb0 := (Breaker.execute breaker_3_1000 succeeding "op" (mkSim 50 [] 0)).1.2 in
  let cb1 := (Breaker.execute cb0 failing "op" (mkSim 100 [] 1)).1.2 in
  let cb2 := (Breaker.execute cb1 failing "op" (mkSim 200 [] 2)).1.2 in
  (Breaker.execute cb2 failing "op" (mkSim 300 [] 3)).1.2.

(** The connection manager constructed at time 0, and the same manager
    after [n] successful calls to cohere made at time 500. *)
Definition manager : Retry.ConnectionManager := Retry.new 0.

Fixpoint after_cohere_calls (n : nat) : Retry.ConnectionManager :=
  match n with
  | O => manager
  | S n' =>
      (Retry.executeWithRetry (after_cohere_calls n') "cohere"
         (fun _ => succeeding) (mkSim 500 [] n')).1.2
  end.

(** One hundred calls use up the quota of the window that ends at 60000. *)
Definition exhausted : Retry.ConnectionManager := after_cohere_calls 100.

(** A request that fails twice with a 503 and succeeds from then on. *)
Definition flaky : Async Sim Z :=
  scripted (fun i => if (i <? 2)%nat
                     then Rejected (OperationError (Some 503) 0)
                     else Resolved 42).

(** [new EmbeddingQueue({ batchSize: 3, maxWait: 50 })]; two texts arrive,
    at 0 and at 40, and the clock is looked at when the first text is 50ms
    old, at 89 and at 90. *)
Definition queue_3_50 : Batch.EmbeddingQueue := Batch.new (Some 3) (Some 50).

Definition first_text : Batch.Item := Batch.mkItem "a" "{}" 0.
Definition second_text : Batch.Item := Batch.mkItem "b" "{}" 40.

Definition two_arrivals : list Batch.Event :=
  [Batch.Add "a" "{}" 0; Batch.Add "b" "{}" 40].

(** A key of the search cache hit ten times in the first ten milliseconds,
    swept every minute for two hours, and hit again two hours after it was
    first seen. *)
Definition ten_hits : list Cache.Event :=
  map (fun t => Cache.Hit "searches" "q" t) [1; 2; 3; 4; 5; 6; 7; 8; 9; 10].

Definition two_hours_later : list Cache.Event :=
  ten_hits ++ Cache.sweeps 120 60000 ++ [Cache.Hit "searches" "q" 7200001].

(** A key of the search cache hit once, at 1000. *)
Definition hit_once : list Cache.Event := [Cache.Hit "searches" "q" 1000].

(** One sample recorded into a metrics store, which then sees no call for
    25 hours. *)
Definition one_sample_then_idle : list Metrics.Event :=
  [Metrics.AddMetric "cache_hit_rate" 1 None []; Metrics.Elapse 90000000].

(** [new WeaviateConnectionPool({ poolSize: 2 })] at time 0 with both
    connections taken, at 10 and at 20, and not released. *)
Definition both_taken : Pool.WeaviateConnectionPool :=
  match Pool.getConnection (Pool.new (Some 2) 0) 10 with
  | Some (_, _, p1) =>
      match Pool.getConnection p1 20 with
      | Some (_, _, p2) => p2
      | None => p1
      end
  | None => Pool.new (Some 2) 0
  end.

(** What follows a first call under ["k"] that was handed promise 0: a
    second call, a call under another key, the operation of promise 0
    failing, and a third call before the handler of promise 0 has run. *)
Definition three_more_callers : list (Dedup.Event Z) :=
  [Dedup.Call "k"; Dedup.Call "other";
   Dedup.Settle O (Rejected (OperationError None 0)); Dedup.Call "k"].

(** A request the upstream answers with a 404. *)
Definition not_found : Async Sim Z :=
  fun w => (Rejected (OperationError (Some 404) 0), w).

End Scenario.

(** * Properties *)

(** ** Circuit breaker *)
Section BreakerSteps.

Context {W : Type} `{World W} {V : Type}.

Import Breaker.

Lemma State_eqb_eq (a b : State) : State_eqb a b = true <-> a = b.
Proof. destruct a, b; simpl; split; intros E; congruence. Qed.

(** An OPEN breaker inside its cool-down rejects the call: the operation is
    not run, and only the call counter moves. *)
Lemma execute_open_rejects (cb : CircuitBreaker) (op : Async W V)
    (name : string) (w : W) :
  state cb = OPEN ->
  Date_now w < nextAttempt cb ->
  execute cb op name w =
    (Rejected (CircuitOpenError name
                 (ceil_div (nextAttempt cb - Date_now w) 1000)),
     count_call cb, w).
Proof.
  intros Hopen Hcool. unfold execute, enter_call. simpl.
  rewrite Hopen. simpl.
  destruct (Z.ltb_spec (Date_now w) (nextAttempt cb)) as [_|Hge]; [reflexivity|lia].
Qed.

(** A call that is let through runs the operation once, against the breaker
    [enter_call] returned, and books its outcome. *)
Lemma execute_entered (cb cb1 : CircuitBreaker) (op : Async W V)
    (name : string) (w : W) :
  enter_call cb name (Date_now w) = (inr tt, cb1) ->
  execute cb op name w =
    match op w with
    | (Resolved v, w') => (Resolved v, onSuccess cb1 (Date_now w'), w')
    | (Rejected e, w') => (Rejected e, onFailure cb1 (Date_now w'), w')
    end.
Proof. intros Henter. unfold execute. rewrite Henter. reflexivity. Qed.

Lemma enter_call_closed (cb : CircuitBreaker) (name : string) (now : Z) :
  state cb <> OPEN ->
  enter_call cb name now = (inr tt, count_call cb).
Proof.
  intros Hstate. unfold enter_call. simpl.
  destruct (state cb); simpl; congruence.
Qed.

Lemma enter_call_cooled (cb : CircuitBreaker) (name : string) (now : Z) :
  state cb = OPEN ->
  nextAttempt cb <= now ->
  enter_call cb name now = (inr tt, set_state HALF_OPEN (count_call cb)).
Proof.
  intros Hopen Hcool. unfold enter_call. simpl. rewrite Hopen. simpl.
  destruct (Z.ltb_spec now (nextAttempt cb)) as [Hlt|_]; [lia|reflexivity].
Qed.

(** Every call is counted, whatever becomes of it. *)
Lemma enter_call_counts (cb : CircuitBreaker) (name : string) (now : Z) :
  totalCalls (stats (snd (enter_call cb name now))) = totalCalls (stats cb) + 1
  /\ totalSuccesses (stats (snd (enter_call cb name now)))
     = totalSuccesses (stats cb).
Proof.
  unfold enter_call. simpl.
  destruct (State_eqb (state cb) OPEN); [|simpl; auto].
  destruct (now <? nextAttempt cb); simpl; auto.
Qed.

Lemma onSuccess_totalCalls (cb : CircuitBreaker) (now : Z) :
  totalCalls (stats (onSuccess cb now)) = totalCalls (stats cb).
Proof.
  unfold onSuccess. destruct (lastFailureTime cb) as [lf|]; [|reflexivity].
  destruct (negb (lf =? 0) && (resetTimeout cb <? now - lf)); reflexivity.
Qed.

Lemma onFailure_totalCalls (cb : CircuitBreaker) (now : Z) :
  totalCalls (stats (onFailure cb now)) = totalCalls (stats cb).
Proof.
  unfold onFailure. destruct (State_eqb (state cb) HALF_OPEN); [reflexivity|].
  destruct (threshold cb <=? failures cb + 1); reflexivity.
Qed.

Lemma onSuccess_closes (cb : CircuitBreaker) (now : Z) :
  state cb = HALF_OPEN ->
  state (onSuccess cb now) = CLOSED /\ failures (onSuccess cb now) = 0.
Proof.
  intros Hhalf. unfold onSuccess. rewrite Hhalf. simpl.
  destruct (lastFailureTime cb) as [lf|]; [|auto].
  destruct (negb (lf =? 0) && (resetTimeout cb <? now - lf)); auto.
Qed.

Lemma onSuccess_failures (cb : CircuitBreaker) (now : Z) :
  failures (onSuccess cb now) = 0.
Proof.
  unfold onSuccess. destruct (lastFailureTime cb) as [lf|]; [|reflexivity].
  destruct (negb (lf =? 0) && (resetTimeout cb <? now - lf)); reflexivity.
Qed.

Lemma onFailure_failures (cb : CircuitBreaker) (now : Z) :
  failures (onFailure cb now) = failures cb + 1.
Proof.
  unfold onFailure. destruct (State_eqb (state cb) HALF_OPEN); [reflexivity|].
  destruct (threshold cb <=? failures cb + 1); reflexivity.
Qed.

(** A failure that reaches the threshold opens the breaker for [timeout]. *)
Lemma onFailure_opens (cb : CircuitBreaker) (now : Z) :
  threshold cb <= failures cb + 1 ->
  state (onFailure cb now) = OPEN
  /\ nextAttempt (onFailure cb now) = now + timeout cb.
Proof.
  intros Hreach. unfold onFailure.
  destruct (State_eqb (state cb) HALF_OPEN); [auto|].
  destruct (Z.leb_spec (threshold cb) (failures cb + 1)); [auto|lia].
Qed.

(** Below the threshold a CLOSED breaker stays CLOSED. *)
Lemma onFailure_below (cb : CircuitBreaker) (now : Z) :
  state cb = CLOSED ->
  failures cb + 1 < threshold cb ->
  onFailure cb now =
    mkBreaker (threshold cb) (timeout cb) (resetTimeout cb) CLOSED
              (failures cb + 1) (successes cb) (nextAttempt cb) (Some now)
              (mkStats (totalCalls (stats cb)) (totalFailures (stats cb) + 1)
                       (totalSuccesses (stats cb)) (circuitOpens (stats cb))).
Proof.
  intros Hclosed Hbelow. unfold onFailure. rewrite Hclosed. simpl.
  destruct (Z.leb_spec (threshold cb) (failures cb + 1)); [lia|reflexivity].
Qed.

(** A failed execution of a CLOSED breaker, in one equation. *)
Lemma execute_closed_failure (cb : CircuitBreaker) (op : Async W V)
    (name : string) (w w' : W) (e : Error) :
  state cb = CLOSED ->
  op w = (Rejected e, w') ->
  execute cb op name w =
    (Rejected e, onFailure (count_call cb) (Date_now w'), w').
Proof.
  intros Hclosed Hop.
  rewrite (execute_entered cb (count_call cb)).
  - rewrite Hop. reflexivity.
  - apply enter_call_closed. congruence.
Qed.

End BreakerSteps.

Section BreakerFacts.

Context {W : Type} `{World W} {V : Type}.

Import Breaker.

(** C1.  A breaker constructed with threshold 3 and timeout 1000ms is OPEN
    after three consecutive failed executions, with the cool-down ending
    1000ms after the third failure.  Any call made while a breaker is OPEN
    and before [nextAttempt] throws the circuit-open error, does not invoke
    the operation and leaves state, failure count and [nextAttempt] as they
    were.  The first call at or after [nextAttempt] runs the operation, once,
    against a HALF_OPEN breaker; if it succeeds the breaker is CLOSED and
    the consecutive-failure count is zero. *)
Theorem breaker_trips_rejects_and_recovers :
  forall (t0 : Z) (op1 op2 op3 : Async W V) (name : string)
         (w1 w2 w3 w1' w2' w3' : W) (e1 e2 e3 : Error),
    op1 w1 = (Rejected e1, w1') ->
    op2 w2 = (Rejected e2, w2') ->
    op3 w3 = (Rejected e3, w3') ->
    let cb0 := new (mkOptions (Some 3) (Some 1000) None) t0 in
    let cb1 := (execute cb0 op1 name w1).1.2 in
    let cb2 := (execute cb1 op2 name w2).1.2 in
    let cb3 := (execute cb2 op3 name w3).1.2 in
    (state cb3 = OPEN /\ failures cb3 = 3
     /\ nextAttempt cb3 = Date_now w3' + 1000)
    /\ (forall (cb : CircuitBreaker) (op : Async W V) (n : nat) (w : W),
          state cb = OPEN ->
          Date_now w < nextAttempt cb ->
          exists waitTime cb',
            execute cb (counted op) name (n, w)
            = (Rejected (CircuitOpenError name waitTime), cb', (n, w))
            /\ state cb' = OPEN /\ nextAttempt cb' = nextAttempt cb
            /\ failures cb' = failures cb)
    /\ (forall (cb : CircuitBreaker) (op : Async W V) (n : nat) (w w' : W)
               (v : V),
          state cb = OPEN ->
          nextAttempt cb <= Date_now w ->
          op w = (Resolved v, w') ->
          state (enter_call cb name (Date_now w)).2 = HALF_OPEN
          /\ exists cb',
               execute cb (counted op) name (n, w)
               = (Resolved v, cb', (S n, w'))
               /\ state cb' = CLOSED /\ failures cb' = 0).
Proof.
  intros t0 op1 op2 op3 name w1 w2 w3 w1' w2' w3' e1 e2 e3 H1 H2 H3.
  cbn zeta. split; [|split].
  - rewrite (execute_closed_failure _ op1 name w1 w1' e1) by easy.
    cbn [fst snd]. rewrite onFailure_below by (simpl; easy).
    rewrite (execute_closed_failure _ op2 name w2 w2' e2) by easy.
    cbn [fst snd]. rewrite onFailure_below by (simpl; easy).
    rewrite (execute_closed_failure _ op3 name w3 w3' e3) by easy.
    cbn [fst snd].
    match goal with
    | |- context [onFailure ?c ?t] =>
        destruct (onFailure_opens c t) as [Hs Hn]; [simpl; lia|];
        rewrite Hs, Hn, (onFailure_failures c t)
    end.
    simpl. repeat split; lia.
  - intros cb op n w Hopen Hcool.
    exists (ceil_div (nextAttempt cb - Date_now w) 1000), (count_call cb).
    split; [|auto].
    rewrite (@execute_open_rejects (nat * W) _ V cb (counted op) name (n, w))
      by assumption.
    reflexivity.
  - intros cb op n w w' v Hopen Hcool Hop.
    pose proof (enter_call_cooled cb name (Date_now w) Hopen Hcool) as Henter.
    split; [rewrite Henter; reflexivity|].
    exists (onSuccess (set_state HALF_OPEN (count_call cb)) (Date_now w')).
    split; [|apply onSuccess_closes; reflexivity].
    rewrite (@execute_entered (nat * W) World_counted V cb _ (counted op)
               name (n, w) Henter).
    simpl. rewrite Hop. reflexivity.
Qed.

(** C10.  Every call of [execute] adds one to [totalCalls], whatever its
    outcome.  A call rejected by an OPEN breaker runs no operation and adds
    nothing to [totalSuccesses], so the success rate of [getStatus], total
    successes over total calls, drops with it whenever it was above zero. *)
Theorem rejected_calls_count_in_success_rate :
  (forall (cb : CircuitBreaker) (op : Async W V) (name : string) (w : W),
     totalCalls (stats (execute cb op name w).1.2)
     = totalCalls (stats cb) + 1)
  /\ (forall (cb : CircuitBreaker) (op : Async W V) (name : string)
             (n : nat) (w : W),
        state cb = OPEN ->
        Date_now w < nextAttempt cb ->
        0 < totalSuccesses (stats cb) ->
        0 < totalCalls (stats cb) ->
        exists e cb',
          execute cb (counted op) name (n, w) = (Rejected e, cb', (n, w))
          /\ totalSuccesses (stats cb') = totalSuccesses (stats cb)
          /\ totalCalls (stats cb') = totalCalls (stats cb) + 1
          /\ (status_successRate (getStatus cb')
              < status_successRate (getStatus cb))%Q).
Proof.
  split.
  - intros cb op name w. unfold execute.
    pose proof (enter_call_counts cb name (Date_now w)) as [Hc _].
    destruct (enter_call cb name (Date_now w)) as [[err|[]] cb1];
      simpl in Hc; [exact Hc|].
    destruct (op w) as [[v|e] w']; cbn [fst snd].
    + rewrite onSuccess_totalCalls. exact Hc.
    + rewrite onFailure_totalCalls. exact Hc.
  - intros cb op name n w Hopen Hcool Hs Hc.
    exists (CircuitOpenError name (ceil_div (nextAttempt cb - Date_now w) 1000)),
           (count_call cb).
    split; [|split; [reflexivity|split; [reflexivity|]]].
    + rewrite (@execute_open_rejects (nat * W) _ V cb (counted op) name
                 (n, w)) by assumption.
      reflexivity.
    + cbn [getStatus status_successRate]. unfold successRate. simpl.
      destruct (Z.ltb_spec 0 (totalCalls (stats cb) + 1)); [|lia].
      destruct (Z.ltb_spec 0 (totalCalls (stats cb))); [|lia].
      apply Qmult_lt_compat_r; [reflexivity|].
      unfold Qlt, Qdiv, Qmult, Qinv, inject_Z. simpl.
      destruct (totalCalls (stats cb)) as [|c|c] eqn:Ec; try lia.
      destruct (totalCalls (stats cb) + 1) as [|c1|c1] eqn:Ec1; try lia.
      simpl. nia.
Qed.

End BreakerFacts.

(** The scenario of C1 on the simulated clock: failures at 100, 200 and 300
    open the breaker until 1300; a call at 1299 is rejected with the
    operation not run, a successful call at 1300 closes the breaker. *)
Lemma breaker_trips_rejects_and_recovers_witness :
  Breaker.state Scenario.tripped = Breaker.OPEN
  /\ Breaker.nextAttempt Scenario.tripped = 1300
  /\ (Breaker.execute Scenario.tripped (counted Scenario.succeeding) "op"
        (O, mkSim 1299 [] 3)).2 = (O, mkSim 1299 [] 3)
  /\ Breaker.state
       (Breaker.execute Scenario.tripped (counted Scenario.succeeding) "op"
          (O, mkSim 1300 [] 3)).1.2 = Breaker.CLOSED.
Proof.
  pose proof (@breaker_trips_rejects_and_recovers Sim _ Z 0
                Scenario.failing Scenario.failing Scenario.failing "op"
                (mkSim 100 [] 0) (mkSim 200 [] 1) (mkSim 300 [] 2)
                (mkSim 100 [] 1) (mkSim 200 [] 2) (mkSim 300 [] 3)
                (OperationError (Some 503) 0) (OperationError (Some 503) 0)
                (OperationError (Some 503) 0) eq_refl eq_refl eq_refl)
    as [[Hopen [_ Hnext]] [Hreject Hprobe]].
  split; [exact Hopen|]. split; [exact Hnext|]. split.
  - destruct (Hreject Scenario.tripped Scenario.succeeding O
                (mkSim 1299 [] 3) eq_refl eq_refl)
      as [waitTime [cb' [Hrun _]]].
    rewrite Hrun. reflexivity.
  - destruct (Hprobe Scenario.tripped Scenario.succeeding O
                (mkSim 1300 [] 3) (mkSim 1300 [] 4) 42 eq_refl
                ltac:(vm_compute; discriminate) eq_refl)
      as [_ [cb' [Hrun [Hclosed _]]]].
    rewrite Hrun. exact Hclosed.
Defined.

(** C10 on the simulated clock: after one success and three failures the
    status shows 25.00%; a rejected call takes it to 20.00%. *)
Lemma rejected_calls_count_in_success_rate_witness :
  let before := Breaker.getStatus Scenario.tripped_after_success in
  let after :=
    Breaker.getStatus
      (Breaker.execute Scenario.tripped_after_success
         (counted Scenario.succeeding) "op" (O, mkSim 400 [] 4)).1.2 in
  Breaker.toFixed2 (Breaker.status_successRate before) = 2500
  /\ Breaker.toFixed2 (Breaker.status_successRate after) = 2000
  /\ (Breaker.status_successRate after
      < Breaker.status_successRate before)%Q.
Proof.
  cbv zeta. split; [reflexivity|]. split; [reflexivity|].
  destruct (@rejected_calls_count_in_success_rate Sim _ Z) as [_ Hdrop].
  destruct (Hdrop Scenario.tripped_after_success Scenario.succeeding "op" O
              (mkSim 400 [] 4) eq_refl eq_refl eq_refl eq_refl)
    as [e [cb' [Hrun [_ [_ Hrate]]]]].
  rewrite Hrun. exact Hrate.
Defined.

(** ** Retrying executor *)
Section RetrySteps.

Context {W : Type} `{World W} {V : Type}.

Import Retry.

(** With the quota used up and the window still running, the check throws
    and leaves the limiter alone. *)
Lemma checkRateLimit_exhausted (cm : ConnectionManager) (name : string)
    (conn : Connection) (limiter : RateLimiter) (now : Z) :
  connections cm !! name = Some conn ->
  rateLimiter conn = Some limiter ->
  maxRequests limiter <= requests limiter ->
  now <= resetTime limiter ->
  checkRateLimit cm name now =
    (inl (RateLimitError (ceil_div (resetTime limiter - now) 1000)), cm).
Proof.
  intros Hconn Hlim Hfull Hwindow. unfold checkRateLimit.
  rewrite Hconn, Hlim.
  destruct (Z.ltb_spec (resetTime limiter) now); [lia|].
  destruct (Z.leb_spec (maxRequests limiter) (requests limiter)); [|lia].
  reflexivity.
Qed.

Lemma attempt_once_exhausted (cm : ConnectionManager) (conn cohere : Connection)
    (limiter : RateLimiter) (op : string -> Async W V) (w : W) :
  connections cm !! "cohere" = Some cohere ->
  rateLimiter cohere = Some limiter ->
  maxRequests limiter <= requests limiter ->
  Date_now w <= resetTime limiter ->
  attempt_once cm "cohere" conn op w =
    (Rejected (RateLimitError
                 (ceil_div (resetTime limiter - Date_now w) 1000)), cm, w).
Proof.
  intros Hconn Hlim Hfull Hwindow. unfold attempt_once. simpl String.eqb.
  cbv iota.
  rewrite (checkRateLimit_exhausted cm "cohere" cohere limiter) by assumption.
  reflexivity.
Qed.

End RetrySteps.

Section RetryFacts.

Context {W : Type} `{World W} {V : Type}.

Import Retry.

(** C5, as the code has it.  While the quota of the current window is used
    up, an attempt on cohere throws the rate-limit error, which names the
    seconds left in the window, and does not invoke the operation.  The
    retry loop handles that error like a transient failure: on every pass
    but the last it waits [retryDelay * 2^attempt] and tries again; on the
    last pass the error reaches the caller. *)
Theorem rate_limit_error_goes_through_retry :
  forall (cm : ConnectionManager) (cohere : Connection)
         (limiter : RateLimiter) (op : string -> Async W V) (n : nat) (w : W),
    connections cm !! "cohere" = Some cohere ->
    rateLimiter cohere = Some limiter ->
    maxRequests limiter <= requests limiter ->
    Date_now w <= resetTime limiter ->
    let error :=
      RateLimitError (ceil_div (resetTime limiter - Date_now w) 1000) in
    attempt_once cm "cohere" cohere (fun c => counted (op c)) (n, w)
    = (Rejected error, cm, (n, w))
    /\ (forall (passes : nat) (attempt : Z) (lastError : Error),
          attempt < retries (retryConfig cm) ->
          retry_loop (S passes) attempt lastError cm "cohere" cohere op w
          = retry_loop passes (attempt + 1) error cm "cohere" cohere op
              (sleep (retryDelay (retryConfig cm) * 2 ^ attempt) w))
    /\ (forall (passes : nat) (attempt : Z) (lastError : Error),
          retries (retryConfig cm) <= attempt ->
          retry_loop (S passes) attempt lastError cm "cohere" cohere op w
          = (Rejected error, cm, w)).
Proof.
  intros cm cohere limiter op n w Hconn Hlim Hfull Hwindow error.
  split; [|split].
  - rewrite (@attempt_once_exhausted (nat * W) _ V cm cohere cohere limiter)
      by assumption.
    reflexivity.
  - intros passes attempt lastError Hmore. cbn [retry_loop].
    rewrite (attempt_once_exhausted cm cohere cohere limiter) by assumption.
    destruct (Z.ltb_spec attempt (retries (retryConfig cm))); [|lia].
    reflexivity.
  - intros passes attempt lastError Hlast. cbn [retry_loop].
    rewrite (attempt_once_exhausted cm cohere cohere limiter) by assumption.
    destruct (Z.ltb_spec attempt (retries (retryConfig cm))); [lia|].
    reflexivity.
Qed.

End RetryFacts.

(** The manager of the scenario has used its quota: 100 of 100 requests,
    in the window that ends at 60000. *)
Lemma exhausted_limiter :
  Retry.connections Scenario.exhausted !! "cohere"
  = Some (Retry.mkConnection "cohere" (Some (Retry.mkLimiter 100 60000 100))).
Proof. vm_compute. reflexivity. Qed.

(** C5 refuted: called at 1000 with the quota used up, the executor does
    not fail at once.  It retries three times, waiting 1000, 2000 and 4000ms,
    and rejects at 8000; the operation is never invoked.  Called at 59500
    it does not fail at all: the retry at 60500 finds a new window and the
    operation runs. *)
Lemma rate_limit_error_is_retried :
  (let '(r, _, w') :=
     Retry.executeWithRetry Scenario.exhausted "cohere"
       (fun _ => Scenario.succeeding) (mkSim 1000 [] 100) in
   r = Rejected (RateLimitError 52)
   /\ w' = mkSim 8000 [1000; 2000; 4000] 100
   /\ sim_sleeps w' <> [])
  /\ (let '(r, _, w') :=
        Retry.executeWithRetry Scenario.exhausted "cohere"
          (fun _ => Scenario.succeeding) (mkSim 59500 [] 100) in
      r = Resolved 42 /\ w' = mkSim 60500 [1000] 101).
Proof. vm_compute. repeat split; discriminate. Qed.

(** The general statement at the scenario: the first pass at time 1000 goes
    on to a second pass at 2000. *)
Lemma rate_limit_error_goes_through_retry_witness :
  Retry.retry_loop 4 0 UndefinedError Scenario.exhausted "cohere"
    (Retry.mkConnection "cohere" (Some (Retry.mkLimiter 100 60000 100)))
    (fun _ => Scenario.succeeding) (mkSim 1000 [] 100)
  = Retry.retry_loop 3 1 (RateLimitError 59) Scenario.exhausted "cohere"
      (Retry.mkConnection "cohere" (Some (Retry.mkLimiter 100 60000 100)))
      (fun _ => Scenario.succeeding) (mkSim 2000 [1000] 100).
Proof.
  destruct (@rate_limit_error_goes_through_retry Sim World_Sim Z
              Scenario.exhausted
              (Retry.mkConnection "cohere"
                 (Some (Retry.mkLimiter 100 60000 100)))
              (Retry.mkLimiter 100 60000 100)
              (fun _ => Scenario.succeeding) O (mkSim 1000 [] 100)
              exhausted_limiter eq_refl ltac:(simpl; lia)
              ltac:(vm_compute; discriminate))
    as [_ [Hretry _]].
  exact (Hretry 3%nat 0 UndefinedError eq_refl).
Defined.

(** ** The proxy route: where the breaker sits *)
Section ProxyFacts.

Context {W : Type} `{World W} {V : Type}.

Import Breaker.

(** C6, as the code has it.  The breaker is entered once per logical call,
    around the whole retry loop.  It books the final outcome of the loop and
    nothing else: after a call that is let through, the consecutive-failure
    count is zero if the loop ended in a success and one more than before if
    it ended in a failure, however many attempts failed inside the loop. *)
Theorem breaker_books_one_outcome_per_call :
  forall (cb : CircuitBreaker) (cm : Retry.ConnectionManager)
         (request : string -> Async W V) (w : W),
    state cb <> OPEN \/ nextAttempt cb <= Date_now w ->
    exists cb',
      Proxy.mcp_proxy cb cm request w
      = ((Retry.executeWithRetry cm "mcp" request w).1.1, cb',
         ((Retry.executeWithRetry cm "mcp" request w).1.2,
          (Retry.executeWithRetry cm "mcp" request w).2))
      /\ totalCalls (stats cb') = totalCalls (stats cb) + 1
      /\ failures cb' =
           match (Retry.executeWithRetry cm "mcp" request w).1.1 with
           | Resolved _ => 0
           | Rejected _ => failures cb + 1
           end.
Proof.
  intros cb cm request w Hlet.
  assert (Henter : exists cb1,
             enter_call cb "mcp-proxy" (Date_now w) = (inr tt, cb1)
             /\ totalCalls (stats cb1) = totalCalls (stats cb) + 1
             /\ failures cb1 = failures cb).
  { destruct (state cb) eqn:Hstate.
    - exists (count_call cb).
      split; [apply enter_call_closed; congruence|auto].
    - destruct Hlet as [Hno|Hcool]; [contradiction|].
      exists (set_state HALF_OPEN (count_call cb)).
      split; [apply enter_call_cooled; assumption|auto].
    - exists (count_call cb).
      split; [apply enter_call_closed; congruence|auto]. }
  destruct Henter as [cb1 [Henter [Hcalls Hfail]]].
  unfold Proxy.mcp_proxy, execute. cbn [Date_now Proxy.World_managed fst snd].
  rewrite Henter.
  destruct (Retry.executeWithRetry cm "mcp" request w) as [[[v|e] cm'] w'];
    cbn [fst snd].
  - exists (onSuccess cb1 (Date_now w')). split; [reflexivity|].
    rewrite onSuccess_totalCalls, onSuccess_failures. auto.
  - exists (onFailure cb1 (Date_now w')). split; [reflexivity|].
    rewrite onFailure_totalCalls, onFailure_failures. split; lia.
Qed.

End ProxyFacts.

(** C6 refuted: a request whose four attempts all fail adds one to the
    failure count of the breaker, not four; a request that fails twice and
    then succeeds leaves the count at zero, not at two. *)
Lemma retries_are_hidden_from_breaker :
  (let '(_, cb', (_, w')) :=
     Proxy.mcp_proxy (Proxy.mcp_breaker 0) Scenario.manager
       (fun _ => Scenario.failing) (mkSim 100 [] 0) in
   sim_calls w' = 4%nat
   /\ Breaker.failures cb' = 1
   /\ Breaker.failures cb' <> Breaker.failures (Proxy.mcp_breaker 0) + 4)
  /\ (let '(r, cb', (_, w')) :=
        Proxy.mcp_proxy (Proxy.mcp_breaker 0) Scenario.manager
          (fun _ => Scenario.flaky) (mkSim 100 [] 0) in
      r = Resolved 42
      /\ sim_calls w' = 3%nat
      /\ Breaker.failures cb' = 0
      /\ Breaker.failures cb' <> Breaker.failures (Proxy.mcp_breaker 0) + 2).
Proof. vm_compute. repeat split; discriminate. Qed.

(** The general statement at the scenario of four failed attempts. *)
Lemma breaker_books_one_outcome_per_call_witness :
  exists cb',
    (Proxy.mcp_proxy (Proxy.mcp_breaker 0) Scenario.manager
       (fun _ => Scenario.failing) (mkSim 100 [] 0)).1.2 = cb'
    /\ Breaker.failures cb' = 1.
Proof.
  assert (Hclosed : Breaker.state (Proxy.mcp_breaker 0) <> Breaker.OPEN)
    by discriminate.
  pose proof (@breaker_books_one_outcome_per_call Sim World_Sim Z
                (Proxy.mcp_breaker 0) Scenario.manager
                (fun _ => Scenario.failing) (mkSim 100 [] 0)
                (or_introl Hclosed)) as Hcall.
  destruct Hcall as [cb' [Hrun [_ Hfail]]].
  exists cb'. split.
  - rewrite Hrun. reflexivity.
  - exact Hfail.
Defined.

(** ** Request deduplicator *)
Section DedupFacts.

Context {V : Type}.

Import Dedup.

Lemma new_consistent : consistent (@new V).
Proof.
  split; [|split; [|split; [|split]]];
    intros ? ? Hl; simpl in Hl; by rewrite lookup_empty in Hl.
Qed.

Lemma dedupe_consistent (key : string) (d : RequestDeduplicator V) :
  consistent d -> consistent (dedupe key d).2.
Proof.
  intros (Hpi & Hip & Hfresh & Harr & Hset). unfold dedupe.
  destruct (pending d !! key) as [p|] eqn:Hkey; simpl.
  - split; [|split; [|split; [|split]]]; simpl; eauto.
  - split; [|split; [|split; [|split]]]; simpl.
    + intros k p Hk. destruct (decide (key = k)) as [->|Hne].
      * rewrite lookup_insert_eq in Hk. injection Hk as <-.
        apply lookup_insert_eq.
      * rewrite lookup_insert_ne in Hk by done.
        pose proof (Hfresh _ _ (Hpi _ _ Hk)).
        rewrite lookup_insert_ne by lia. auto.
    + intros p k Hp. destruct (decide (fresh d = p)) as [<-|Hne].
      * rewrite lookup_insert_eq in Hp. injection Hp as <-.
        apply lookup_insert_eq.
      * rewrite lookup_insert_ne in Hp by done.
        pose proof (Hip _ _ Hp) as Hk.
        rewrite lookup_insert_ne by congruence. exact Hk.
    + intros p k Hp. destruct (decide (fresh d = p)) as [<-|Hne]; [lia|].
      rewrite lookup_insert_ne in Hp by done.
      pose proof (Hfresh _ _ Hp). lia.
    + intros p o Hp. destruct (Harr _ _ Hp) as [k Hk].
      pose proof (Hfresh _ _ Hk).
      rewrite lookup_insert_ne by lia. eauto.
    + intros p o Hp. destruct (Hset _ _ Hp) as [Hlt Hnone].
      split; [lia|]. rewrite lookup_insert_ne by lia. exact Hnone.
Qed.

Lemma settle_consistent (p : Promise) (o : Outcome V)
    (d : RequestDeduplicator V) :
  consistent d -> consistent (settle p o d).
Proof.
  intros Hd. unfold settle.
  destruct (inflight d !! p) as [key|] eqn:Hp; [|exact Hd].
  destruct (arrived d !! p) as [o'|] eqn:Ha; [exact Hd|].
  destruct Hd as (Hpi & Hip & Hfresh & Harr & Hset).
  split; [|split; [|split; [|split]]]; simpl; auto.
  intros q o' Hq. destruct (decide (p = q)) as [<-|Hne]; [eauto|].
  rewrite lookup_insert_ne in Hq by done. eauto.
Qed.

Lemma react_consistent (p : Promise) (d : RequestDeduplicator V) :
  consistent d -> consistent (react p d).
Proof.
  intros Hd. unfold react.
  destruct (inflight d !! p) as [key|] eqn:Hp; [|exact Hd].
  destruct (arrived d !! p) as [o|] eqn:Ha; [|exact Hd].
  destruct Hd as (Hpi & Hip & Hfresh & Harr & Hset).
  split; [|split; [|split; [|split]]]; simpl.
  - intros k q Hk. apply lookup_delete_Some in Hk as [Hne Hk].
    apply lookup_delete_Some. split; [|auto].
    intros <-. apply Hpi in Hk. congruence.
  - intros q k Hq. apply lookup_delete_Some in Hq as [Hne Hq].
    apply lookup_delete_Some. split; [|auto].
    intros <-. apply Hip in Hq. apply Hip in Hp. congruence.
  - intros q k Hq. apply lookup_delete_Some in Hq as [_ Hq]. eauto.
  - intros q o' Hq. apply lookup_delete_Some in Hq as [Hne Hq].
    destruct (Harr _ _ Hq) as [k Hk]. exists k.
    apply lookup_delete_Some. auto.
  - intros q o' Hq. destruct (decide (p = q)) as [<-|Hne].
    + split; [eauto|apply lookup_delete_eq].
    + rewrite lookup_insert_ne in Hq by done.
      destruct (Hset _ _ Hq) as [Hlt Hnone].
      split; [exact Hlt|]. rewrite lookup_delete_ne by done. exact Hnone.
Qed.

Lemma step_consistent (e : Event V) (d : RequestDeduplicator V) :
  consistent d -> consistent (step d e).2.
Proof.
  intros Hd. destruct e as [key|p o|p]; simpl.
  - pose proof (dedupe_consistent key d Hd).
    destruct (dedupe key d). assumption.
  - apply settle_consistent, Hd.
  - apply react_consistent, Hd.
Qed.

Lemma run_consistent (events : list (Event V)) (d : RequestDeduplicator V) :
  consistent d -> consistent (run events d).2.
Proof.
  revert d. induction events as [|e rest IH]; intros d Hd; simpl.
  - exact Hd.
  - pose proof (step_consistent e d Hd) as Hd'.
    destruct (step d e) as [returned d'].
    specialize (IH d' Hd'). destruct (run rest d') as [more d''].
    exact IH.
Qed.

Lemma reachable_consistent (d : RequestDeduplicator V) :
  reachable d -> consistent d.
Proof. intros [events ->]. apply run_consistent, new_consistent. Qed.

(** One event other than the handler of [p], with [p] registered under
    [K]: a call under [K] is handed [p], [requestFn] is not called for [K],
    [p] stays registered and unsettled, and the outcome waiting for the
    handler is the first one to arrive. *)
Lemma step_while_registered (e : Event V) (d : RequestDeduplicator V)
    (K : string) (p : Promise) :
  consistent d ->
  pending d !! K = Some p ->
  e <> React p ->
  (forall r, (step d e).1 = Some (K, r) -> r = p)
  /\ pending (step d e).2 !! K = Some p
  /\ invocations K (step d e).2 = invocations K d
  /\ settled (step d e).2 !! p = settled d !! p
  /\ arrived (step d e).2 !! p
     = match arrived d !! p with
       | Some o => Some o
       | None => first_settlement p [e]
       end.
Proof.
  intros Hd HK He.
  assert (Hkeep : forall o : option (Outcome V),
             o = match o with Some o' => Some o' | None => None end)
    by (intros [o'|]; reflexivity).
  assert (Hflp : inflight d !! p = Some K) by (apply Hd; exact HK).
  destruct e as [key|q o|q]; simpl.
  - unfold dedupe. destruct (decide (key = K)) as [->|Hne].
    + rewrite HK. simpl.
      split; [intros r Hr; congruence|]. repeat split; auto.
    + destruct (pending d !! key) as [q|] eqn:Hkey; simpl.
      * split; [intros r Hr; congruence|]. repeat split; auto.
      * rewrite lookup_insert_ne by done.
        split; [intros r Hr; congruence|]. split; [exact HK|].
        split; [|split; [reflexivity|apply Hkeep]].
        unfold invocations. simpl.
        destruct (String.string_dec key K); [contradiction|reflexivity].
  - split; [discriminate|].
    assert (Harr : arrived (settle q o d) !! p
                   = match arrived d !! p with
                     | Some o' => Some o'
                     | None => if Nat.eqb q p then Some o else None
                     end).
    { unfold settle. destruct (Nat.eqb_spec q p) as [->|Hne].
      - rewrite Hflp. destruct (arrived d !! p) as [o'|] eqn:Ha.
        + rewrite Ha. reflexivity.
        + simpl. apply lookup_insert_eq.
      - destruct (inflight d !! q) as [key|]; [|apply Hkeep].
        destruct (arrived d !! q) as [o'|]; [apply Hkeep|].
        simpl. rewrite lookup_insert_ne by done. apply Hkeep. }
    split; [|split; [|split; [|exact Harr]]]; unfold settle;
      destruct (inflight d !! q) as [key|]; auto;
      destruct (arrived d !! q) as [o'|]; auto.
  - assert (Hq : q <> p) by congruence.
    split; [discriminate|]. unfold react.
    destruct (inflight d !! q) as [key|] eqn:Hfl;
      [|repeat split; auto; apply Hkeep].
    destruct (arrived d !! q) as [o'|] eqn:Ha;
      [|repeat split; auto; apply Hkeep].
    simpl. split; [|split; [reflexivity|split]].
    + rewrite lookup_delete_ne; [exact HK|].
      intros ->. destruct Hd as (_ & Hip & _). apply Hip in Hfl. congruence.
    + apply lookup_insert_ne. exact Hq.
    + rewrite lookup_delete_ne by done. apply Hkeep.
Qed.

(** The same over a whole run in which the handler of [p] does not run. *)
Lemma run_while_registered (events : list (Event V)) :
  forall (d : RequestDeduplicator V) (K : string) (p : Promise),
    consistent d ->
    pending d !! K = Some p ->
    unsettled_during p events ->
    (forall r, In (K, r) (run events d).1 -> r = p)
    /\ pending (run events d).2 !! K = Some p
    /\ invocations K (run events d).2 = invocations K d
    /\ settled (run events d).2 !! p = settled d !! p
    /\ arrived (run events d).2 !! p
       = match arrived d !! p with
         | Some o => Some o
         | None => first_settlement p events
         end.
Proof.
  induction events as [|e rest IH]; intros d K p Hd HK Hun; simpl.
  - repeat split; [intros r []|exact HK|].
    destruct (arrived d !! p); reflexivity.
  - assert (He : e <> React p).
    { intros ->. apply (Hun p); [left; reflexivity|reflexivity]. }
    assert (Hrest : unsettled_during p rest).
    { intros q Hin. apply (Hun q). right. exact Hin. }
    pose proof (step_consistent e d Hd) as Hd'.
    destruct (step_while_registered e d K p Hd HK He)
      as (Hret1 & HK1 & Hinv1 & Hset1 & Harr1).
    destruct (step d e) as [returned d']. simpl in Hd', Hret1, HK1, Hinv1, Hset1, Harr1.
    destruct (IH d' K p Hd' HK1 Hrest) as (Hret & HK2 & Hinv & Hset & Harr).
    destruct (run rest d') as [more d'']. simpl in Hret, HK2, Hinv, Hset, Harr |- *.
    split; [|split; [exact HK2|split; [congruence|split; [congruence|]]]].
    + intros r Hin. destruct returned as [kr|]; [|auto].
      destruct Hin as [->|Hin]; auto.
    + rewrite Harr, Harr1.
      destruct (arrived d !! p) as [o|]; [reflexivity|].
      destruct e as [key|q o|q]; simpl; try reflexivity.
      destruct (Nat.eqb q p); reflexivity.
Qed.

(** C2.  Take a first call [dedupe(K, fn)] made when nothing is registered
    under [K], handed promise [p], and any events that follow while [p] is
    unsettled: further calls under [K], calls under other keys, the
    operation of [p] and other operations settling, handlers of other
    promises.  Then [fn] has run exactly once for [K], every caller under
    [K] holds [p], which is the only promise in flight for [K] and still
    unsettled.  Once the operation has settled ([o], unless it settled
    during the events) and its handler has run, [p] is settled with the
    outcome of the operation, resolved or rejected, and the entry for [K]
    is gone.  At every reachable state two promises in flight never share a
    key. *)
Theorem dedupe_runs_once_and_shares_outcome :
  forall (d : RequestDeduplicator V) (K : string) (events : list (Event V))
         (o : Outcome V),
    reachable d ->
    pending d !! K = None ->
    let p := (dedupe K d).1 in
    let d1 := (dedupe K d).2 in
    unsettled_during p events ->
    let callers := (run events d1).1 in
    let d2 := (run events d1).2 in
    let d3 := react p (settle p o d2) in
    let outcome := default o (first_settlement p events) in
    invocations K d1 = S (invocations K d)
    /\ invocations K d2 = S (invocations K d)
    /\ invocations K d3 = S (invocations K d)
    /\ (forall r, In (K, r) callers -> r = p)
    /\ pending d2 !! K = Some p
    /\ (forall q, inflight d2 !! q = Some K -> q = p)
    /\ settled d2 !! p = None
    /\ settled d3 !! p = Some outcome
    /\ pending d3 !! K = None
    /\ (forall d' : RequestDeduplicator V, reachable d' ->
          forall q1 q2 k,
            inflight d' !! q1 = Some k -> inflight d' !! q2 = Some k ->
            q1 = q2).
Proof.
  intros d K events o Hreach Hfree p d1 Hun callers d2 d3 outcome.
  pose proof (reachable_consistent d Hreach) as Hd.
  pose proof (dedupe_consistent K d Hd) as Hd1. fold d1 in Hd1.
  assert (Hp : p = fresh d) by (unfold p, dedupe; rewrite Hfree; reflexivity).
  assert (Hd1eq : d1 = mkDedup (<[K := p]> (pending d)) (deduped d)
                               (total d + 1) (<[p := K]> (inflight d))
                               (arrived d) (settled d) (K :: invoked d)
                               (S p)).
  { unfold d1, dedupe. rewrite Hfree, Hp. reflexivity. }
  assert (HK1 : pending d1 !! K = Some p).
  { rewrite Hd1eq. apply lookup_insert_eq. }
  assert (Hinv1 : invocations K d1 = S (invocations K d)).
  { rewrite Hd1eq. unfold invocations. simpl.
    destruct (String.string_dec K K); [reflexivity|contradiction]. }
  assert (Hnew : arrived d1 !! p = None /\ settled d1 !! p = None).
  { rewrite Hd1eq. simpl. destruct Hd as (_ & _ & Hfresh & Harr & Hset).
    split.
    - destruct (arrived d !! p) as [o'|] eqn:Ha; [|reflexivity].
      destruct (Harr _ _ Ha) as [k Hk]. apply Hfresh in Hk. lia.
    - destruct (settled d !! p) as [o'|] eqn:Hs; [|reflexivity].
      destruct (Hset _ _ Hs) as [Hlt _]. lia. }
  destruct Hnew as [Harr1 Hset1].
  destruct (run_while_registered events d1 K p Hd1 HK1 Hun)
    as (Hret & HK2 & Hinv2 & Hset2 & Harr2).
  fold callers in Hret. fold d2 in HK2, Hinv2, Hset2, Harr2.
  rewrite Harr1 in Harr2.
  pose proof (run_consistent events d1 Hd1) as Hd2. fold d2 in Hd2.
  assert (Hfl : inflight d2 !! p = Some K) by (apply Hd2; exact HK2).
  assert (Hd3 : d3 = mkDedup (delete K (pending d2)) (deduped d2) (total d2)
                             (delete p (inflight d2))
                             (delete p (arrived (settle p o d2)))
                             (<[p := outcome]> (settled d2)) (invoked d2)
                             (fresh d2)).
  { unfold d3, outcome, react, settle. rewrite Hfl, Harr2.
    destruct (first_settlement p events) as [o'|]; simpl.
    - rewrite Hfl, Harr2. reflexivity.
    - rewrite Hfl, lookup_insert_eq. reflexivity. }
  split; [exact Hinv1|]. split; [congruence|].
  split; [rewrite Hd3; unfold invocations in *; simpl; congruence|].
  split; [exact Hret|]. split; [exact HK2|].
  split.
  { intros q Hq. destruct Hd2 as (_ & Hip & _). apply Hip in Hq. congruence. }
  split; [congruence|].
  split; [rewrite Hd3; simpl; apply lookup_insert_eq|].
  split; [rewrite Hd3; simpl; apply lookup_delete_eq|].
  intros d' Hd' q1 q2 k H1 H2.
  destruct (reachable_consistent d' Hd') as (_ & Hip & _).
  apply Hip in H1. apply Hip in H2. congruence.
Qed.

End DedupFacts.

(** C2 on a run: after the first call under ["k"], a second call, a call
    under another key, the operation failing, and a third call made before
    the handler has run.  One invocation for ["k"], every caller holds
    promise 0, which ends rejected, and the entry is gone. *)
Lemma dedupe_runs_once_and_shares_outcome_witness :
  let d1 := (Dedup.dedupe "k" (@Dedup.new Z)).2 in
  let after := Dedup.run Scenario.three_more_callers d1 in
  let d3 := Dedup.react O (Dedup.settle O (Resolved 7) after.2) in
  Dedup.invocations "k" d3 = 1%nat
  /\ (forall r, In ("k", r) after.1 -> r = O)
  /\ Dedup.settled d3 !! O = Some (Rejected (OperationError None 0))
  /\ Dedup.pending d3 !! "k" = None.
Proof.
  assert (Hreach : Dedup.reachable (@Dedup.new Z)) by (exists []; reflexivity).
  assert (Hun : Dedup.unsettled_during O Scenario.three_more_callers).
  { intros p Hin. simpl in Hin.
    destruct Hin as [Hin|[Hin|[Hin|[Hin|[]]]]]; discriminate Hin. }
  pose proof (@dedupe_runs_once_and_shares_outcome Z (@Dedup.new Z) "k"
                Scenario.three_more_callers (Resolved 7) Hreach eq_refl Hun)
    as (_ & _ & Hinv & Hret & _ & _ & _ & Hout & Hgone & _).
  cbv zeta. split; [exact Hinv|]. split; [exact Hret|].
  split; [exact Hout|exact Hgone].
Defined.

(** ** Embedding queue *)
Section BatchFacts.

Import Batch.

(** Below the batch size, every [add] outside a flush re-arms the timeout
    to [maxWait] after that [add], whatever timeout was armed before. *)
Lemma add_rearms_timer (q : EmbeddingQueue) (text options : string) (now : Z) :
  processing q = false ->
  Z.of_nat (length (queue q)) + 1 < batchSize q ->
  add q text options now =
    (None,
     mkQueue (batchSize q) (maxWait q)
             (queue q ++ [mkItem text options now]) false
             (Some (now + maxWait q))).
Proof.
  intros Hidle Hroom. unfold add, scheduleProcessing. simpl.
  rewrite Hidle. simpl. rewrite length_app. simpl.
  destruct (Z.leb_spec (batchSize q) (Z.of_nat (length (queue q) + 1)));
    [lia|reflexivity].
Qed.

End BatchFacts.

(** C3 at its failing input, [batchSize = 3] and [maxWait = 50].  After
    texts at 0 and at 40 the timeout is due at 90, not at 50.  When the
    first text is 50ms old nothing is flushed, nor at 89; the flush comes
    at 90 and takes both texts, the first of them 90ms after it arrived. *)
Theorem later_add_postpones_flush :
  Batch.timer (Batch.run Scenario.two_arrivals Scenario.queue_3_50).2 = Some 90
  /\ Batch.run (Scenario.two_arrivals ++ [Batch.Clock 50; Batch.Clock 89])
       Scenario.queue_3_50
     = ([], Batch.mkQueue 3 50 [Scenario.first_text; Scenario.second_text]
                          false (Some 90))
  /\ (Batch.run (Scenario.two_arrivals
                 ++ [Batch.Clock 50; Batch.Clock 89; Batch.Clock 90])
        Scenario.queue_3_50).1
     = [(90, [Scenario.first_text; Scenario.second_text])]
  /\ Batch.maxWait Scenario.queue_3_50
     < 90 - Batch.timestamp Scenario.first_text.
Proof. vm_compute. repeat split; reflexivity. Qed.

(** ** Adaptive cache: access patterns *)
Section PatternFacts.

Import Cache.

Lemma Qmax_zero_one (h : Q) : (h == 0)%Q -> (Qmax h 1 == 1)%Q.
Proof.
  intros Hh. apply Q.max_r. rewrite Hh. discriminate.
Qed.

(** [created] is never set, so the hours since creation are always zero and
    the frequency [trackAccess] stores is the count itself. *)
Lemma trackAccess_stores_count (patterns : gmap string AccessPattern)
    (cacheType key : string) (now : Z) :
  well_formed patterns ->
  exists pattern,
    trackAccess patterns cacheType key now !! patternKey cacheType key
    = Some pattern
    /\ count pattern
       = count (default (mkPattern 0 now 0 None)
                        (patterns !! patternKey cacheType key)) + 1
    /\ lastAccess pattern = now
    /\ created pattern = None
    /\ (frequency pattern == inject_Z (count pattern))%Q.
Proof.
  intros Hwf. unfold trackAccess. eexists. split; [apply lookup_insert_eq|].
  simpl.
  assert (Hcreated : created (default (mkPattern 0 now 0 None)
                                (patterns !! patternKey cacheType key)) = None).
  { destruct (patterns !! patternKey cacheType key) as [pattern|] eqn:Hp;
      [apply (Hwf _ _ Hp)|reflexivity]. }
  repeat split; [exact Hcreated|].
  rewrite Hcreated. simpl. rewrite Z.sub_diag.
  rewrite Qmax_zero_one by reflexivity. field.
Qed.

Lemma trackAccess_well_formed (patterns : gmap string AccessPattern)
    (cacheType key : string) (now : Z) :
  well_formed patterns -> well_formed (trackAccess patterns cacheType key now).
Proof.
  intros Hwf k pattern Hk.
  destruct (decide (patternKey cacheType key = k)) as [<-|Hne].
  - destruct (trackAccess_stores_count patterns cacheType key now Hwf)
      as (pattern' & Hl & Hcount & _ & Hcreated & Hfreq).
    rewrite Hl in Hk. injection Hk as <-.
    assert (Hpos : 0 < count pattern').
    { rewrite Hcount.
      destruct (patterns !! patternKey cacheType key) as [old|] eqn:Hold;
        simpl; [|lia].
      destruct (Hwf _ _ Hold) as (_ & Hc & _). lia. }
    repeat split; [exact Hcreated|exact Hpos|].
    rewrite Hfreq. unfold Qle. simpl. lia.
  - unfold trackAccess in Hk. rewrite lookup_insert_ne in Hk by done.
    exact (Hwf _ _ Hk).
Qed.

(** A sweep multiplies every frequency it keeps by [decayFactor] and
    changes nothing else of the pattern. *)
Lemma updatePatterns_decays (patterns : gmap string AccessPattern) (now : Z)
    (k : string) (pattern : AccessPattern) :
  updatePatterns patterns now !! k = Some pattern ->
  exists old,
    patterns !! k = Some old
    /\ frequency pattern = (frequency old * decayFactor)%Q
    /\ count pattern = count old /\ lastAccess pattern = lastAccess old
    /\ created pattern = created old.
Proof.
  unfold updatePatterns. rewrite lookup_omap.
  destruct (patterns !! k) as [old|]; simpl; [|discriminate].
  unfold decay.
  destruct (24 * 60 * 60 * 1000 <? now - lastAccess old); [discriminate|].
  destruct (negb (Qle_bool (1 # 100) (frequency old * decayFactor)));
    [discriminate|].
  intros Heq. injection Heq as <-. exists old. simpl. auto.
Qed.

Lemma updatePatterns_well_formed (patterns : gmap string AccessPattern)
    (now : Z) :
  well_formed patterns -> well_formed (updatePatterns patterns now).
Proof.
  intros Hwf k pattern Hk.
  destruct (updatePatterns_decays patterns now k pattern Hk)
    as (old & Hold & Hfreq & Hcount & _ & Hcreated).
  destruct (Hwf _ _ Hold) as (Hc & Hpos & Hnonneg).
  repeat split; [congruence|lia|].
  rewrite Hfreq. apply Qmult_le_0_compat; [exact Hnonneg|discriminate].
Qed.

Lemma run_well_formed (events : list Event) : well_formed (run events).
Proof.
  unfold run.
  assert (Hgen : forall patterns, well_formed patterns ->
                   well_formed (fold_left step events patterns)).
  { induction events as [|[cacheType key now|now] rest IH];
      intros patterns Hwf; simpl.
    - exact Hwf.
    - apply IH, trackAccess_well_formed, Hwf.
    - apply IH, updatePatterns_well_formed, Hwf. }
  apply Hgen. intros k pattern Hk. by rewrite lookup_empty in Hk.
Qed.

End PatternFacts.

(** C7 at its failing input.  The key is hit ten times in its first ten
    milliseconds, survives the 120 sweeps of the next two hours, and is hit
    again exactly two hours after it was first seen.  The count is 11 and
    the last access is the time of the hit, but the frequency stored is 11,
    the count itself; accesses per hour since the key was first seen would
    be 11/2. *)
Theorem frequency_ignores_age :
  exists pattern,
    Cache.run Scenario.two_hours_later !! Cache.patternKey "searches" "q"
    = Some pattern
    /\ Cache.count pattern = 11
    /\ Cache.lastAccess pattern = 7200001
    /\ (Cache.frequency pattern == 11)%Q
    /\ (Cache.accesses_per_hour 11 1 7200001 == 11 # 2)%Q
    /\ ~ (Cache.frequency pattern == Cache.accesses_per_hour 11 1 7200001)%Q.
Proof.
  eexists. split; [vm_compute; reflexivity|].
  vm_compute. repeat split; discriminate.
Qed.

(** ** Adaptive cache: the TTL *)
Section TTLFacts.

Import Cache.

Lemma ln_10_pos : (0 < ln 10)%R.
Proof. rewrite <- ln_1. apply ln_increasing; lra. Qed.

(** [a^m < b^n] on integers gives [m ln a < n ln b]. *)
Lemma pow_lt_ln (a b : Z) (m n : nat) :
  0 < a -> 0 < b -> a ^ Z.of_nat m < b ^ Z.of_nat n ->
  (INR m * ln (IZR a) < INR n * ln (IZR b))%R.
Proof.
  intros Ha Hb Hlt.
  rewrite <- !ln_pow by (apply IZR_lt; assumption).
  rewrite !pow_IZR. apply ln_increasing.
  - apply IZR_lt. apply Z.pow_pos_nonneg; lia.
  - apply IZR_lt. exact Hlt.
Qed.

(** From [10^3 < 2^10] and [2^93 < 10^28]. *)
Lemma log10_2_bounds : (3 / 10 < log10 2 < 28 / 93)%R.
Proof.
  pose proof ln_10_pos as H10.
  pose proof (pow_lt_ln 10 2 3 10 ltac:(lia) ltac:(lia)
                ltac:(vm_compute; reflexivity)) as Hlo.
  pose proof (pow_lt_ln 2 10 93 28 ltac:(lia) ltac:(lia)
                ltac:(vm_compute; reflexivity)) as Hhi.
  simpl INR in *.
  unfold log10. split.
  - apply Rmult_lt_reg_r with (ln 10); [exact H10|].
    unfold Rdiv at 2. rewrite Rmult_assoc, Rinv_l by lra. lra.
  - apply Rmult_lt_reg_r with (ln 10); [exact H10|].
    unfold Rdiv at 1. rewrite Rmult_assoc, Rinv_l by lra. lra.
Qed.

Lemma Math_round_bounds (x : R) :
  (x - / 2 < IZR (Math_round x) <= x + / 2)%R.
Proof.
  unfold Math_round. destruct (base_Int_part (x + / 2)) as [Hle Hgt]. lra.
Qed.

Lemma Q2R_minMultiplier : Q2R minMultiplier = (1 / 2)%R.
Proof. unfold Q2R, minMultiplier. simpl. lra. Qed.

Lemma Q2R_maxMultiplier : Q2R maxMultiplier = 3%R.
Proof. unfold Q2R, maxMultiplier. simpl. lra. Qed.

Lemma boundedMultiplier_bounds (f : Q) :
  (Q2R minMultiplier <= boundedMultiplier f <= Q2R maxMultiplier)%R.
Proof.
  unfold boundedMultiplier. rewrite Q2R_minMultiplier, Q2R_maxMultiplier.
  split; [apply Rmax_l|].
  apply Rmax_lub; [lra|apply Rmin_l].
Qed.

Lemma baseTTL_positive (cacheType : string) : 0 < baseTTL cacheType.
Proof.
  unfold baseTTL, stdTTL.
  repeat (destruct (String.eqb cacheType _); [reflexivity|]). reflexivity.
Qed.

(** Rounding keeps the product inside the integer bounds. *)
Lemma rounded_product_bounds (base : Z) (f : Q) :
  0 < base ->
  (IZR base * Q2R minMultiplier
   <= IZR (Math_round (IZR base * boundedMultiplier f))
   <= IZR base * Q2R maxMultiplier)%R.
Proof.
  intros Hbase.
  pose proof (boundedMultiplier_bounds f) as [Hlo Hhi].
  pose proof (Math_round_bounds (IZR base * boundedMultiplier f)) as [Hgt Hle].
  rewrite Q2R_minMultiplier, Q2R_maxMultiplier in *.
  pose proof (IZR_lt 0 base Hbase) as Hpos.
  set (n := Math_round (IZR base * boundedMultiplier f)) in *.
  assert (Hn_lo : base <= 2 * n).
  { assert (Hlt : (IZR (base - 1) < IZR (2 * n))%R).
    { rewrite minus_IZR, mult_IZR. nra. }
    apply lt_IZR in Hlt. lia. }
  assert (Hn_hi : n <= 3 * base).
  { assert (Hlt : (IZR n < IZR (3 * base + 1))%R).
    { rewrite plus_IZR, mult_IZR. nra. }
    apply lt_IZR in Hlt. lia. }
  apply IZR_le in Hn_lo, Hn_hi. rewrite mult_IZR in Hn_lo, Hn_hi.
  lra.
Qed.

Lemma ln_nonneg (x : R) : (1 <= x)%R -> (0 <= ln x)%R.
Proof.
  intros [Hgt|<-]; [|rewrite ln_1; lra].
  rewrite <- ln_1. left. apply ln_increasing; lra.
Qed.

(** A frequency that is not negative never shortens the TTL. *)
Lemma boundedMultiplier_ge_1 (f : Q) :
  (0 <= f)%Q -> (1 <= boundedMultiplier f)%R.
Proof.
  intros Hf. apply Qreals.Qle_Rle in Hf. rewrite RMicromega.Q2R_0 in Hf.
  unfold boundedMultiplier. rewrite Q2R_maxMultiplier.
  assert (Hlog : (0 <= log10 (Q2R f + 1))%R).
  { unfold log10, Rdiv. apply Rmult_le_pos; [apply ln_nonneg; lra|].
    left. apply Rinv_0_lt_compat, ln_10_pos. }
  eapply Rle_trans; [|apply Rmax_r].
  apply Rmin_glb; lra.
Qed.

(** C4, as the code has it.  Without an explicit TTL, [set] uses the base
    TTL of the namespace when the key has no pattern; when it has one with a
    frequency other than zero it uses the product of the base TTL and the
    clamped multiplier, rounded to whole seconds with [Math.round].  In every
    case the TTL lies within [minMultiplier, maxMultiplier] times the base
    TTL, within 150s and 900s for a base of 300s, and, the stored
    frequencies not being negative, never below the base TTL. *)
Theorem adaptive_ttl_rounded_and_bounded :
  forall (patterns : gmap string AccessPattern) (cacheType key : string),
    well_formed patterns ->
    let ttl := set_ttl patterns cacheType key None in
    let base := baseTTL cacheType in
    (patterns !! patternKey cacheType key = None -> ttl = base)
    /\ (forall pattern,
          patterns !! patternKey cacheType key = Some pattern ->
          ~ (frequency pattern == 0)%Q ->
          ttl = Math_round (IZR base * boundedMultiplier (frequency pattern)))
    /\ (IZR base * Q2R minMultiplier <= IZR ttl
        <= IZR base * Q2R maxMultiplier)%R
    /\ (base = 300 -> 150 <= ttl <= 900)
    /\ base <= ttl.
Proof.
  intros patterns cacheType key Hwf ttl base.
  pose proof (baseTTL_positive cacheType) as Hbase. fold base in Hbase.
  pose proof (IZR_lt 0 base Hbase) as Hpos.
  assert (Hbounds : (IZR base * Q2R minMultiplier <= IZR ttl
                     <= IZR base * Q2R maxMultiplier)%R).
  { unfold ttl, set_ttl, getAdaptiveTTL. fold base.
    destruct (patterns !! patternKey cacheType key) as [pattern|].
    - destruct (Qeq_bool (frequency pattern) 0).
      + rewrite Q2R_minMultiplier, Q2R_maxMultiplier. lra.
      + apply rounded_product_bounds, Hbase.
    - rewrite Q2R_minMultiplier, Q2R_maxMultiplier. lra. }
  split; [|split; [|split; [exact Hbounds|split]]].
  - intros Hnone. unfold ttl, set_ttl, getAdaptiveTTL. rewrite Hnone.
    reflexivity.
  - intros pattern Hsome Hfreq. unfold ttl, set_ttl, getAdaptiveTTL.
    rewrite Hsome.
    destruct (Qeq_bool (frequency pattern) 0) eqn:Hzero; [|reflexivity].
    apply Qeq_bool_iff in Hzero. contradiction.
  - intros H300. destruct Hbounds as [Hlo Hhi].
    rewrite Q2R_minMultiplier, H300 in Hlo.
    rewrite Q2R_maxMultiplier, H300 in Hhi.
    assert (Hgt : (IZR 149 < IZR ttl)%R) by lra.
    assert (Hlt : (IZR ttl < IZR 901)%R) by lra.
    apply lt_IZR in Hgt, Hlt. lia.
  - unfold ttl, set_ttl, getAdaptiveTTL. fold base.
    destruct (patterns !! patternKey cacheType key) as [pattern|] eqn:Hsome;
      [|lia].
    destruct (Qeq_bool (frequency pattern) 0); [lia|].
    destruct (Hwf _ _ Hsome) as (_ & _ & Hnonneg).
    pose proof (boundedMultiplier_ge_1 (frequency pattern) Hnonneg) as Hge.
    pose proof (Math_round_bounds
                  (IZR base * boundedMultiplier (frequency pattern)))
      as [Hgt _].
    assert (Hlt : (IZR (base - 1)
                   < IZR (Math_round
                            (IZR base * boundedMultiplier (frequency pattern))))%R).
    { rewrite minus_IZR. nra. }
    apply lt_IZR in Hlt. lia.
Qed.

End TTLFacts.

(** The pattern of a search key hit once, at 1000. *)
Lemma hit_once_pattern :
  Cache.run Scenario.hit_once !! Cache.patternKey "searches" "q"
  = Some (Cache.mkPattern 1 1000 1 None).
Proof. vm_compute. reflexivity. Qed.

(** C4 refuted: for a search key hit once the frequency is 1 and the TTL is
    345s, while 300 times the clamped multiplier, 300 + 150 log10 2, lies
    strictly between 345 and 346 and is no whole number. *)
Lemma adaptive_ttl_is_not_the_product :
  Cache.set_ttl (Cache.run Scenario.hit_once) "searches" "q" None = 345
  /\ IZR (Cache.set_ttl (Cache.run Scenario.hit_once) "searches" "q" None)
     <> (IZR (Cache.baseTTL "searches") * Cache.boundedMultiplier 1)%R.
Proof.
  pose proof log10_2_bounds as [Hlo Hhi].
  assert (Hmul : Cache.boundedMultiplier 1
                 = (1 + Cache.log10 2 * (5 / 10))%R).
  { unfold Cache.boundedMultiplier.
    rewrite Q2R_minMultiplier, Q2R_maxMultiplier.
    replace (Q2R 1 + 1)%R with 2%R by (unfold Q2R; simpl; lra).
    rewrite Rmin_right by lra. apply Rmax_right. lra. }
  assert (Httl : Cache.set_ttl (Cache.run Scenario.hit_once) "searches" "q"
                   None = 345).
  { unfold Cache.set_ttl, Cache.getAdaptiveTTL. rewrite hit_once_pattern.
    cbn [Cache.frequency]. change (Qeq_bool 1 0) with false. cbv iota.
    change (Cache.baseTTL "searches") with 300. rewrite Hmul.
    symmetry. apply Int_part_spec. lra. }
  split; [exact Httl|].
  rewrite Httl. change (Cache.baseTTL "searches") with 300. rewrite Hmul. lra.
Qed.

(** The general statement at the pattern of the key hit once. *)
Lemma adaptive_ttl_rounded_and_bounded_witness :
  150 <= Cache.set_ttl (Cache.run Scenario.hit_once) "searches" "q" None <= 900.
Proof.
  pose proof (adaptive_ttl_rounded_and_bounded (Cache.run Scenario.hit_once)
                "searches" "q" (run_well_formed Scenario.hit_once))
    as (_ & _ & _ & Hrange & _).
  exact (Hrange eq_refl).
Defined.

(** ** Metrics store *)
Section MetricsFacts.

Import Metrics.

Variable localeCompare : string -> string -> comparison.

Lemma filter_keeps_all {A : Type} (f : A -> bool) (l : list A) :
  ~ (length (List.filter f l) < length l)%nat -> List.filter f l = l.
Proof.
  induction l as [|a l IH]; simpl; [reflexivity|].
  pose proof (List.filter_length_le f l) as Hle.
  destruct (f a); simpl; intros Hn.
  - f_equal. apply IH. lia.
  - lia.
Qed.

(** After [cleanupOldData(key)] at [now] no sample of that series is as old
    as 24 hours; the other series are as they were. *)
Lemma cleanupOldData_drops_expired (ts : gmap string (list MetricPoint))
    (key : string) (now : Z) (data : list MetricPoint) :
  ts !! key = Some data ->
  cleanupOldData ts key now !! key
  = Some (List.filter (fun point => negb (expired now point)) data)
  /\ (forall k, k <> key -> cleanupOldData ts key now !! k = ts !! k).
Proof.
  intros Hdata. unfold cleanupOldData. rewrite Hdata.
  assert (Hsame : List.filter (fun point => now - interval_24h <? timestamp point) data
                  = List.filter (fun point => negb (expired now point)) data).
  { apply List.filter_ext. intros point. unfold expired.
    destruct (Z.ltb_spec (now - interval_24h) (timestamp point));
      destruct (Z.leb_spec (timestamp point) (now - interval_24h));
      simpl; lia || reflexivity. }
  rewrite Hsame.
  destruct (Nat.ltb_spec
              (length (List.filter (fun point => negb (expired now point)) data))
              (length data)) as [Hlt|Hge].
  - split; [apply lookup_insert_eq|].
    intros k Hk. apply lookup_insert_ne. congruence.
  - split; [|reflexivity].
    rewrite Hdata. f_equal. symmetry. apply filter_keeps_all. lia.
Qed.

(** C8, as the code has it.  The horizon is applied when a sample is added,
    to the series the sample goes to and to no other: right after
    [addMetric] at [now] that series holds no sample with a timestamp of
    [now - 24h] or before, and every other series is untouched. *)
Theorem addMetric_prunes_its_own_series :
  forall (ts : gmap string (list MetricPoint)) (name : string) (value : Q)
         (timestamp : option Z) (tags : list (string * string)) (now : Z),
    let key := getMetricKey localeCompare name tags in
    let ts' := addMetric localeCompare ts name value timestamp tags now in
    (exists data,
        ts' !! key = Some data
        /\ Forall (fun point => expired now point = false) data)
    /\ (forall k, k <> key -> ts' !! k = ts !! k).
Proof.
  intros ts name value timestamp tags now key ts'.
  unfold ts', addMetric. fold key.
  set (data := default [] (ts !! key) ++ [mkPoint value (default now timestamp) tags]).
  destruct (cleanupOldData_drops_expired (<[key := data]> ts) key now data)
    as [Hkey Hother]; [apply lookup_insert_eq|].
  split.
  - eexists. split; [exact Hkey|].
    apply List.Forall_forall. intros point Hin.
    apply List.filter_In in Hin as [_ Hfresh].
    destruct (expired now point); [discriminate|reflexivity].
  - intros k Hk. rewrite Hother by exact Hk.
    apply lookup_insert_ne. congruence.
Qed.

End MetricsFacts.

(** C8 refuted: a sample recorded at 1000 into a series that then receives
    nothing for 25 hours is still in the store, an hour past the horizon. *)
Lemma idle_series_keeps_expired_sample :
  let store := Metrics.run String.compare 1000 Scenario.one_sample_then_idle in
  Metrics.clock store = 90001000
  /\ Metrics.timeSeries store !! "cache_hit_rate"
     = Some [Metrics.mkPoint 1 1000 []]
  /\ Metrics.expired (Metrics.clock store) (Metrics.mkPoint 1 1000 []) = true.
Proof. vm_compute. repeat split; reflexivity. Qed.

(** The statement of C8 at a store whose series holds a sample from 1000:
    adding a sample 25 hours later leaves only samples inside the horizon,
    and leaves another series alone. *)
Lemma addMetric_prunes_its_own_series_witness :
  let ts := Metrics.timeSeries
              (Metrics.run String.compare 1000
                 Scenario.one_sample_then_idle) in
  let ts' := Metrics.addMetric String.compare ts "cache_hit_rate" 0 None []
               90001000 in
  (exists data,
      ts' !! "cache_hit_rate" = Some data
      /\ Forall (fun point => Metrics.expired 90001000 point = false) data)
  /\ ts' !! "request_duration" = ts !! "request_duration".
Proof.
  cbv zeta.
  destruct (addMetric_prunes_its_own_series String.compare
              (Metrics.timeSeries
                 (Metrics.run String.compare 1000
                    Scenario.one_sample_then_idle))
              "cache_hit_rate" 0 None [] 90001000) as [Hpruned Hother].
  split; [exact Hpruned|].
  apply Hother. discriminate.
Defined.

(** ** Connection pool *)
Section PoolFacts.

Import Pool.

(** In a saturated pool the search for a free slot finds none. *)
Lemma find_free_saturated (slots : list PoolSlot) (current : nat) :
  Forall (fun conn => inUse conn = true) slots ->
  forall remaining i, find_free slots current i remaining = None.
Proof.
  intros Hsat remaining.
  induction remaining as [|remaining IH]; intros i; simpl; [reflexivity|].
  destruct (slots !! ((current + i) mod length slots)%nat) as [conn|] eqn:Hl;
    [|reflexivity].
  rewrite (proj1 (Forall_lookup _ slots) Hsat _ _ Hl). apply IH.
Qed.

(** C9.  A pool of two slots hands out slot 0, slot 1 and slot 0 again when
    every connection is released before the next is taken.  A saturated pool
    whose cursor points at a slot hands out the client of that slot at once,
    with a release that does nothing: the cursor moves on by one, wrapping
    at the end, the slot counts one more request and every slot stays marked
    in use. *)
Theorem pool_round_robin_and_saturation :
  (forall t0 t1 t2 t3 : Z,
     exists r1 p1 r2 p2 p3,
       getConnection (new (Some 2) t0) t1 = Some (0%nat, r1, p1)
       /\ r1 = ReleaseSlot 0
       /\ getConnection (release p1 r1) t2 = Some (1%nat, r2, p2)
       /\ r2 = ReleaseSlot 1
       /\ getConnection (release p2 r2) t3 = Some (0%nat, ReleaseSlot 0, p3))
  /\ (forall (p : WeaviateConnectionPool) (now : Z) (conn : PoolSlot),
        saturated p ->
        pool p !! currentIndex p = Some conn ->
        exists p',
          getConnection p now = Some (client conn, ReleaseNothing, p')
          /\ currentIndex p' = ((currentIndex p + 1) mod length (pool p))%nat
          /\ pool p' = <[currentIndex p :=
                           mkSlot (client conn) true (lastUsed conn)
                                  (requestCount conn + 1)]> (pool p)
          /\ saturated p').
Proof.
  split.
  - intros t0 t1 t2 t3. do 5 eexists. cbn. repeat split.
  - intros p now conn Hsat Hcur.
    assert (Hin : inUse conn = true)
      by exact (proj1 (Forall_lookup _ (pool p)) Hsat _ _ Hcur).
    unfold getConnection.
    rewrite (find_free_saturated (pool p) (currentIndex p) Hsat), Hcur, Hin.
    eexists. split; [reflexivity|]. cbn [currentIndex pool].
    split; [reflexivity|]. split; [reflexivity|].
    unfold saturated. cbn [pool]. apply Forall_insert; [exact Hsat|reflexivity].
Qed.

(** A pool without slots has nothing to hand out: [getConnection] throws. *)
Lemma getConnection_empty (p : WeaviateConnectionPool) (now : Z) :
  pool p = [] -> getConnection p now = None.
Proof. intros Hempty. unfold getConnection. rewrite Hempty. reflexivity. Qed.

End PoolFacts.

(** The saturated case of C9 on a pool of two with both connections out:
    the third and the fourth caller share slots 0 and 1. *)
Lemma pool_round_robin_and_saturation_witness :
  exists p',
    Pool.getConnection Scenario.both_taken 30
    = Some (0%nat, Pool.ReleaseNothing, p')
    /\ Pool.currentIndex p' = 1%nat.
Proof.
  assert (Hsat : Pool.saturated Scenario.both_taken).
  { unfold Pool.saturated. vm_compute. repeat constructor. }
  destruct pool_round_robin_and_saturation as [_ Hsaturated].
  destruct (Hsaturated Scenario.both_taken 30 (Pool.mkSlot 0 true 10 1)
              Hsat eq_refl) as [p' [Hget [Hcur _]]].
  exists p'. split; [exact Hget|exact Hcur].
Defined.

(** * Further properties *)

(** ** Circuit breaker: what holds between calls *)
Section BreakerRuns.

Import Breaker.

Lemma onSuccess_shape (cb : CircuitBreaker) (now : Z) :
  threshold (onSuccess cb now) = threshold cb
  /\ timeout (onSuccess cb now) = timeout cb
  /\ state (onSuccess cb now)
     = (if State_eqb (state cb) HALF_OPEN then CLOSED else state cb)
  /\ stats (onSuccess cb now)
     = mkStats (totalCalls (stats cb)) (totalFailures (stats cb))
               (totalSuccesses (stats cb) + 1) (circuitOpens (stats cb)).
Proof.
  unfold onSuccess. destruct (lastFailureTime cb) as [lf|]; [|auto].
  destruct (negb (lf =? 0) && (resetTimeout cb <? now - lf)); auto.
Qed.

Lemma onFailure_shape (cb : CircuitBreaker) (now : Z) :
  threshold (onFailure cb now) = threshold cb
  /\ timeout (onFailure cb now) = timeout cb
  /\ state (onFailure cb now)
     = (if State_eqb (state cb) HALF_OPEN
           || (threshold cb <=? failures cb + 1)
        then OPEN else state cb)
  /\ stats (onFailure cb now)
     = mkStats (totalCalls (stats cb)) (totalFailures (stats cb) + 1)
               (totalSuccesses (stats cb))
               (if State_eqb (state cb) HALF_OPEN
                   || (threshold cb <=? failures cb + 1)
                then circuitOpens (stats cb) + 1
                else circuitOpens (stats cb)).
Proof.
  unfold onFailure. destruct (State_eqb (state cb) HALF_OPEN); [auto|].
  destruct (threshold cb <=? failures cb + 1); auto.
Qed.

(** The breaker a call is let through with differs from the one before the
    call in the call counter, and in the state if that was OPEN. *)
Lemma enter_call_shape (cb : CircuitBreaker) (name : string) (now : Z) :
  let cb1 := (enter_call cb name now).2 in
  threshold cb1 = threshold cb /\ timeout cb1 = timeout cb
  /\ failures cb1 = failures cb
  /\ stats cb1 = stats (count_call cb)
  /\ match (enter_call cb name now).1 with
     | inl _ => state cb = OPEN /\ now < nextAttempt cb /\ state cb1 = OPEN
     | inr _ =>
         (state cb = OPEN /\ nextAttempt cb <= now /\ state cb1 = HALF_OPEN)
         \/ (state cb <> OPEN /\ state cb1 = state cb)
     end.
Proof.
  unfold enter_call. simpl. destruct (state cb) eqn:Hstate; simpl.
  - repeat split. right. split; congruence.
  - destruct (Z.ltb_spec now (nextAttempt cb)); simpl; repeat split; auto.
  - repeat split. right. split; congruence.
Qed.

(** What every breaker satisfies between calls. *)
Lemma execute_keeps_shape {W V : Type} `{World W} (cb : CircuitBreaker)
    (op : Async W V) (name : string) (w : W) :
  let cb' := (execute cb op name w).1.2 in
  0 < threshold cb ->
  state cb <> HALF_OPEN ->
  0 <= failures cb ->
  (state cb = CLOSED -> failures cb < threshold cb) ->
  threshold cb' = threshold cb /\ timeout cb' = timeout cb
  /\ state cb' <> HALF_OPEN
  /\ 0 <= failures cb'
  /\ (state cb' = CLOSED -> failures cb' < threshold cb').
Proof.
  intros cb' Hth Hrest Hnonneg Hclosed. subst cb'. unfold execute.
  pose proof (enter_call_shape cb name (Date_now w))
    as (Ht & Hto & Hf & _ & Hcase).
  destruct (enter_call cb name (Date_now w)) as [[err|[]] cb1];
    cbn [fst snd] in *.
  - destruct Hcase as (Hopen & _ & Hopen1).
    rewrite Ht, Hto, Hf, Hopen1. repeat split; (discriminate || lia).
  - assert (Hcb1 : state cb1 = HALF_OPEN
                   \/ (state cb1 = CLOSED /\ failures cb1 < threshold cb1)).
    { destruct Hcase as [(_ & _ & Hhalf)|(Hno & Hsame)]; [left; exact Hhalf|].
      right. rewrite Hsame, Hf, Ht.
      destruct (state cb); [auto|contradiction|contradiction]. }
    destruct (op w) as [[v|e] w']; cbn [fst snd].
    + destruct (onSuccess_shape cb1 (Date_now w')) as (Ht1 & Hto1 & Hs1 & _).
      rewrite Ht1, Hto1, Hs1, onSuccess_failures.
      split; [congruence|]. split; [congruence|].
      assert (Hc : (if State_eqb (state cb1) HALF_OPEN then CLOSED
                    else state cb1) = CLOSED).
      { destruct Hcb1 as [->|[-> _]]; reflexivity. }
      rewrite Hc. repeat split; (discriminate || lia).
    + destruct (onFailure_shape cb1 (Date_now w')) as (Ht1 & Hto1 & Hs1 & _).
      rewrite Ht1, Hto1, Hs1, onFailure_failures.
      split; [congruence|]. split; [congruence|].
      destruct Hcb1 as [Hhalf|[Hcl Hlt]].
      * rewrite Hhalf. simpl. repeat split; (discriminate || lia).
      * rewrite Hcl. simpl.
        destruct (Z.leb_spec (threshold cb1) (failures cb1 + 1));
          repeat split; (discriminate || lia).
Qed.

(** X1.  Between calls a breaker is CLOSED or OPEN, never HALF_OPEN; its
    threshold and timeout are those it was constructed with; and while it
    is CLOSED the consecutive-failure count is below the threshold. *)
Theorem breaker_rest_states :
  forall (options : Options) (t0 : Z) (cb : CircuitBreaker),
    0 < threshold (new options t0) ->
    run_from (new options t0) cb ->
    threshold cb = threshold (new options t0)
    /\ timeout cb = timeout (new options t0)
    /\ (state cb = CLOSED \/ state cb = OPEN)
    /\ 0 <= failures cb
    /\ (state cb = CLOSED -> failures cb < threshold cb).
Proof.
  intros options t0 cb Hth Hrun.
  assert (Hgen : threshold cb = threshold (new options t0)
                 /\ timeout cb = timeout (new options t0)
                 /\ state cb <> HALF_OPEN /\ 0 <= failures cb
                 /\ (state cb = CLOSED -> failures cb < threshold cb)).
  { induction Hrun as [|W V H cb op name w Hrun IH|cb now Hrun IH].
    - split; [reflexivity|]. split; [reflexivity|].
      split; [discriminate|]. split; [simpl; lia|].
      intros _. exact Hth.
    - destruct IH as (Ht & Hto & Hrest & Hnonneg & Hclosed).
      assert (Hpos : 0 < threshold cb) by lia.
      destruct (execute_keeps_shape cb op name w Hpos Hrest Hnonneg Hclosed)
        as (Ht' & Hto' & Hrest' & Hnonneg' & Hclosed').
      split; [congruence|]. split; [congruence|]. auto.
    - destruct IH as (Ht & Hto & Hrest & Hnonneg & Hclosed).
      split; [exact Ht|]. split; [exact Hto|].
      split; [discriminate|]. split; [simpl; lia|].
      intros _. simpl. lia. }
  destruct Hgen as (Ht & Hto & Hrest & Hnonneg & Hclosed).
  split; [exact Ht|]. split; [exact Hto|]. split; [|auto].
  destruct (state cb); [left|right|contradiction]; reflexivity.
Qed.

(** X2.  The lifetime counters add up: successes and failures together
    never exceed the calls (the difference is the calls rejected while
    OPEN), the breaker has opened at most once per failure, and a breaker
    that is OPEN has opened at least once.  [reset] leaves the counters. *)
Theorem breaker_counters_add_up :
  forall (options : Options) (t0 : Z) (cb : CircuitBreaker),
    run_from (new options t0) cb ->
    0 <= totalSuccesses (stats cb)
    /\ 0 <= circuitOpens (stats cb) <= totalFailures (stats cb)
    /\ totalSuccesses (stats cb) + totalFailures (stats cb)
       <= totalCalls (stats cb)
    /\ (state cb = OPEN -> 0 < circuitOpens (stats cb))
    /\ (forall now, stats (reset cb now) = stats cb).
Proof.
  intros options t0 cb Hrun.
  assert (Hgen : 0 <= totalSuccesses (stats cb)
                 /\ 0 <= circuitOpens (stats cb) <= totalFailures (stats cb)
                 /\ totalSuccesses (stats cb) + totalFailures (stats cb)
                    <= totalCalls (stats cb)
                 /\ (state cb = OPEN -> 0 < circuitOpens (stats cb))).
  { induction Hrun as [|W V H cb op name w Hrun IH|cb now Hrun IH].
    - simpl. repeat split; (lia || discriminate).
    - destruct IH as (Hs & Ho & Hsum & Hopen). unfold execute.
      pose proof (enter_call_shape cb name (Date_now w))
        as (_ & _ & _ & Hst & Hcase).
      destruct (enter_call cb name (Date_now w)) as [[err|[]] cb1];
        cbn [fst snd] in *.
      + destruct Hcase as (Hwas & _ & _). rewrite Hst. simpl.
        repeat split; try lia. intros _. auto.
      + destruct (op w) as [[v|e] w']; cbn [fst snd].
        * destruct (onSuccess_shape cb1 (Date_now w')) as (_ & _ & Hs1 & Hst1).
          rewrite Hst1, Hs1, Hst. simpl. repeat split; try lia.
          destruct Hcase as [(_ & _ & ->)|(Hno & ->)]; simpl;
            [discriminate|].
          destruct (state cb); [discriminate|contradiction|discriminate].
        * destruct (onFailure_shape cb1 (Date_now w')) as (_ & _ & Hs1 & Hst1).
          rewrite Hst1, Hs1, Hst. simpl.
          destruct (State_eqb (state cb1) HALF_OPEN
                    || (threshold cb1 <=? failures cb1 + 1)) eqn:Hop.
          -- repeat split; lia.
          -- repeat split; try lia.
             destruct Hcase as [(_ & _ & Hhalf)|(Hno & Hsame)].
             ++ rewrite Hhalf in Hop. discriminate.
             ++ rewrite Hsame. intros Habs. contradiction.
    - destruct IH as (Hs & Ho & Hsum & Hopen). simpl.
      repeat split; try lia. discriminate. }
  destruct Hgen as (Hs & Ho & Hsum & Hopen).
  repeat split; try lia; auto.
Qed.

(** X3.  A failed probe re-opens the breaker at once, whatever the
    threshold: when an OPEN breaker whose cool-down is over lets a call
    through and the operation fails, the breaker is OPEN again, the next
    attempt is [timeout] after the failure, and the failure count and the
    count of openings have each grown by one. *)
Theorem failed_probe_reopens :
  forall {W V : Type} `{World W} (cb : CircuitBreaker) (op : Async W V)
         (name : string) (w w' : W) (e : Error),
    state cb = OPEN ->
    nextAttempt cb <= Date_now w ->
    op w = (Rejected e, w') ->
    exists cb',
      execute cb op name w = (Rejected e, cb', w')
      /\ state cb' = OPEN
      /\ nextAttempt cb' = Date_now w' + timeout cb
      /\ failures cb' = failures cb + 1
      /\ circuitOpens (stats cb') = circuitOpens (stats cb) + 1
      /\ lastFailureTime cb' = Some (Date_now w').
Proof.
  intros W V H cb op name w w' e Hopen Hcool Hop.
  exists (onFailure (set_state HALF_OPEN (count_call cb)) (Date_now w')).
  split.
  - rewrite (execute_entered cb _ op name w
               (enter_call_cooled cb name (Date_now w) Hopen Hcool)).
    rewrite Hop. reflexivity.
  - unfold onFailure. simpl. auto.
Qed.

(** X4.  [reset] re-admits calls at once: the call that follows a reset
    runs the operation, exactly once, and returns its outcome, also when the
    breaker was OPEN with its cool-down still running; the reset breaker is
    CLOSED with no consecutive failures. *)
Theorem reset_readmits_calls :
  forall {W V : Type} `{World W} (cb : CircuitBreaker) (op : Async W V)
         (name : string) (now : Z) (n : nat) (w : W),
    state (reset cb now) = CLOSED
    /\ failures (reset cb now) = 0
    /\ (execute (reset cb now) (counted op) name (n, w)).1.1 = (op w).1
    /\ (execute (reset cb now) (counted op) name (n, w)).2
       = (S n, (op w).2).
Proof.
  intros W V H cb op name now n w.
  split; [reflexivity|]. split; [reflexivity|].
  rewrite (@execute_entered (nat * W) World_counted V (reset cb now)
             (count_call (reset cb now)) (counted op) name (n, w))
    by (apply enter_call_closed; discriminate).
  simpl. destruct (op w) as [[v|e] w']; split; reflexivity.
Qed.

End BreakerRuns.

(** The tripped breaker of the scenario is reached by three calls. *)
Lemma tripped_is_reached :
  Breaker.run_from (Breaker.new (Breaker.mkOptions (Some 3) (Some 1000) None) 0)
                   Scenario.tripped.
Proof.
  unfold Scenario.tripped. cbv zeta.
  apply Breaker.run_execute, Breaker.run_execute, Breaker.run_execute.
  apply Breaker.run_start.
Qed.

Lemma breaker_rest_states_witness :
  Breaker.threshold Scenario.tripped = 3
  /\ (Breaker.state Scenario.tripped = Breaker.CLOSED
      \/ Breaker.state Scenario.tripped = Breaker.OPEN).
Proof.
  assert (Hth : 0 < Breaker.threshold
                      (Breaker.new (Breaker.mkOptions (Some 3) (Some 1000) None) 0))
    by reflexivity.
  destruct (breaker_rest_states _ _ _ Hth tripped_is_reached)
    as (Ht & _ & Hstate & _).
  split; [exact Ht|exact Hstate].
Defined.

Lemma breaker_counters_add_up_witness :
  0 < Breaker.circuitOpens (Breaker.stats Scenario.tripped)
  /\ Breaker.totalSuccesses (Breaker.stats Scenario.tripped)
     + Breaker.totalFailures (Breaker.stats Scenario.tripped)
     <= Breaker.totalCalls (Breaker.stats Scenario.tripped).
Proof.
  destruct (breaker_counters_add_up _ _ _ tripped_is_reached)
    as (_ & _ & Hsum & Hopen & _).
  split; [apply Hopen; reflexivity|exact Hsum].
Defined.

(** A probe at 1300 that fails re-opens the tripped breaker until 2300. *)
Lemma failed_probe_reopens_witness :
  exists cb',
    Breaker.execute Scenario.tripped Scenario.failing "op" (mkSim 1300 [] 3)
    = (Rejected (OperationError (Some 503) 0), cb', mkSim 1300 [] 4)
    /\ Breaker.state cb' = Breaker.OPEN
    /\ Breaker.nextAttempt cb' = 2300.
Proof.
  assert (Hcool : Breaker.nextAttempt Scenario.tripped
                  <= Date_now (mkSim 1300 [] 3))
    by (vm_compute; discriminate).
  destruct (@failed_probe_reopens Sim Z World_Sim Scenario.tripped
              Scenario.failing "op" (mkSim 1300 [] 3) (mkSim 1300 [] 4)
              (OperationError (Some 503) 0) eq_refl Hcool eq_refl)
    as (cb' & Hrun & Hstate & Hnext & _).
  exists cb'. split; [exact Hrun|]. split; [exact Hstate|exact Hnext].
Defined.

(** ** Retrying executor: attempts, waits and quota *)
Section RetryRuns.

Import Retry.

(** X5.  An error that carries a response with a status below 500 is not
    retried: on a connection other than cohere the operation is invoked
    once, nothing is waited for, and the error reaches the caller. *)
Theorem client_error_is_not_retried :
  forall {W V : Type} `{World W} (cm : ConnectionManager) (name : string)
         (connection : Connection) (op : string -> Async W V) (n : nat)
         (w w' : W) (status code : Z),
    connections cm !! name = Some connection ->
    String.eqb name "cohere" = false ->
    0 <= retries (retryConfig cm) ->
    op (client connection) w
    = (Rejected (OperationError (Some status) code), w') ->
    status < 500 ->
    executeWithRetry cm name (fun c => counted (op c)) (n, w)
    = (Rejected (OperationError (Some status) code), cm, (S n, w')).
Proof.
  intros W V H cm name connection op n w w' status code Hconn Hname Hret Hop
         Hstatus.
  unfold executeWithRetry. rewrite Hconn.
  destruct (Z.to_nat (retries (retryConfig cm) + 1)) as [|k] eqn:Hk; [lia|].
  cbn [retry_loop]. unfold attempt_once. rewrite Hname. simpl.
  rewrite Hop. unfold retryCondition. simpl.
  destruct (Z.leb_spec 500 status); [lia|].
  rewrite andb_false_r. reflexivity.
Qed.

Lemma set_limiter_config (name : string) (l : RateLimiter)
    (cm : ConnectionManager) :
  retryConfig (set_limiter name l cm) = retryConfig cm.
Proof. reflexivity. Qed.

Lemma checkRateLimit_config (cm : ConnectionManager) (name : string) (now : Z) :
  retryConfig (checkRateLimit cm name now).2 = retryConfig cm.
Proof.
  unfold checkRateLimit. destruct (connections cm !! name) as [c|]; [|auto].
  destruct (rateLimiter c) as [l|]; [|auto].
  destruct (resetTime l <? now); simpl;
    match goal with |- context [if ?b then _ else _] => destruct b end;
    reflexivity.
Qed.

Lemma updateRateLimit_config (cm : ConnectionManager) (name : string) :
  retryConfig (updateRateLimit cm name) = retryConfig cm.
Proof.
  unfold updateRateLimit. destruct (connections cm !! name) as [c|]; [|auto].
  destruct (rateLimiter c); reflexivity.
Qed.

(** One attempt invokes the operation at most once, waits for nothing and
    leaves the retry configuration alone. *)
Lemma attempt_once_traced {W V : Type} `{World W} (cm : ConnectionManager)
    (name : string) (connection : Connection) (op : string -> Async W V)
    (n : nat) (l : list Z) (w : W) :
  let r := attempt_once cm name connection
             (fun c => counted (logged (op c))) (n, (l, w)) in
  retryConfig r.1.2 = retryConfig cm
  /\ r.2.2.1 = l
  /\ (r.2.1 <= S n)%nat.
Proof.
  unfold attempt_once.
  destruct (String.eqb name "cohere").
  - pose proof (checkRateLimit_config cm "cohere" (Date_now (n, (l, w))))
      as Hcfg.
    destruct (checkRateLimit cm "cohere" (Date_now (n, (l, w))))
      as [[err|[]] cm1]; simpl in Hcfg |- *.
    + repeat split; [exact Hcfg|lia].
    + destruct (op (client connection) w) as [[v|e] w']; simpl.
      * rewrite updateRateLimit_config. repeat split; [exact Hcfg|lia].
      * repeat split; [exact Hcfg|lia].
  - simpl. destruct (op (client connection) w) as [[v|e] w']; simpl;
      repeat split; lia.
Qed.

Lemma backoff_cons (cm : ConnectionManager) (attempt : Z) (k : nat) :
  backoff cm attempt (S k)
  = retryDelay (retryConfig cm) * 2 ^ attempt :: backoff cm (attempt + 1) k.
Proof.
  unfold backoff. simpl. rewrite Z.add_0_r. f_equal.
  rewrite <- seq_shift, map_map. apply map_ext. intros i. do 2 f_equal. lia.
Qed.

Lemma retry_loop_traced {W V : Type} `{World W} (connection : Connection)
    (name : string) (op : string -> Async W V) (iterations : nat) :
  forall (attempt : Z) (lastError : Error) (cm : ConnectionManager)
         (n : nat) (l : list Z) (w : W),
    0 <= attempt ->
    let r := retry_loop iterations attempt lastError cm name connection
               (fun c => counted (logged (op c))) (n, (l, w)) in
    exists k : nat,
      r.2.2.1 = l ++ backoff cm attempt k
      /\ (r.2.1 <= n + k + 1)%nat
      /\ (r.2.1 <= n + iterations)%nat
      /\ (k = O \/ attempt + Z.of_nat k <= retries (retryConfig cm)).
Proof.
  induction iterations as [|iterations IH];
    intros attempt lastError cm n l w Hattempt; cbn [retry_loop].
  - exists O. simpl. rewrite app_nil_r. repeat split; (lia || auto).
  - pose proof (attempt_once_traced cm name connection op n l w)
      as (Hcfg & Hlog & Hcount).
    destruct (attempt_once cm name connection
                (fun c => counted (logged (op c))) (n, (l, w)))
      as [[[v|e] cm1] [n1 [l1 w1]]]; cbn [fst snd] in *.
    + exists O. simpl. rewrite app_nil_r. repeat split; (lia || auto).
    + destruct ((attempt <? retries (retryConfig cm)) && retryCondition e)
        eqn:Hretry.
      * apply andb_prop in Hretry as [Hlt _]. apply Z.ltb_lt in Hlt.
        cbn [sleep World_counted World_logged fst snd].
        destruct (IH (attempt + 1) e cm1 n1
                     (l1 ++ [retryDelay (retryConfig cm) * 2 ^ attempt])
                     (sleep (retryDelay (retryConfig cm) * 2 ^ attempt) w1)
                     ltac:(lia))
          as (k & Hsleeps & Hinv & Hit & Hbound).
        exists (S k). rewrite Hcfg in Hbound.
        split; [|split; [lia|split; [lia|right; lia]]].
        rewrite Hsleeps, Hlog, backoff_cons, <- app_assoc.
        simpl. unfold backoff. rewrite Hcfg. reflexivity.
      * exists O. simpl. rewrite app_nil_r. repeat split; (lia || auto).
Qed.

(** X6.  One call of [executeWithRetry] waits [retryDelay * 2^i] before
    retry [i], for [i = 0, 1, ...], and makes at most [retries] retries:
    the waits are [retryDelay, 2 retryDelay, 4 retryDelay, ...] up to some
    [k <= retries] of them, and the operation is invoked at most [k + 1]
    times, whatever the operation does. *)
Theorem retries_are_bounded_and_back_off :
  forall {W V : Type} `{World W} (cm : ConnectionManager) (name : string)
         (op : string -> Async W V) (n : nat) (l : list Z) (w : W),
    0 <= retries (retryConfig cm) ->
    let r := executeWithRetry cm name (fun c => counted (logged (op c)))
               (n, (l, w)) in
    exists k : nat,
      Z.of_nat k <= retries (retryConfig cm)
      /\ r.2.2.1 = l ++ backoff cm 0 k
      /\ (r.2.1 <= n + k + 1)%nat.
Proof.
  intros W V H cm name op n l w Hret. unfold executeWithRetry.
  destruct (connections cm !! name) as [connection|].
  - destruct (retry_loop_traced connection name op
                (Z.to_nat (retries (retryConfig cm) + 1)) 0 UndefinedError
                cm n l w ltac:(lia)) as (k & Hsleeps & Hinv & _ & Hbound).
    exists k. split; [lia|]. split; assumption.
  - exists O. simpl. rewrite app_nil_r. repeat split; lia.
Qed.

End RetryRuns.

(** X5 on the connection manager of the scenario: a 404 from the proxy
    target is returned after one attempt. *)
Lemma client_error_is_not_retried_witness :
  Retry.executeWithRetry Scenario.manager "mcp"
    (fun _ => counted Scenario.not_found) (O, mkSim 100 [] 0)
  = (Rejected (OperationError (Some 404) 0), Scenario.manager,
     (1%nat, mkSim 100 [] 0)).
Proof.
  assert (Hret : 0 <= Retry.retries (Retry.retryConfig Scenario.manager))
    by (vm_compute; discriminate).
  assert (Hconn : Retry.connections Scenario.manager !! "mcp"
                  = Some (Retry.mkConnection "axios" None))
    by (vm_compute; reflexivity).
  exact (@client_error_is_not_retried Sim Z World_Sim Scenario.manager "mcp"
           (Retry.mkConnection "axios" None)
           (fun _ => Scenario.not_found) O
           (mkSim 100 [] 0) (mkSim 100 [] 0) 404 0 Hconn eq_refl Hret
           eq_refl eq_refl).
Defined.

(** X6 on the scenario: the waits of a call are a prefix of 1000, 2000,
    4000. *)
Lemma retries_are_bounded_and_back_off_witness :
  exists k : nat,
    Z.of_nat k <= 3
    /\ (Retry.executeWithRetry Scenario.manager "mcp"
          (fun _ => counted (Retry.logged Scenario.failing))
          (O, ([], mkSim 100 [] 0))).2.2.1
       = Retry.backoff Scenario.manager 0 k.
Proof.
  assert (Hret : 0 <= Retry.retries (Retry.retryConfig Scenario.manager))
    by (vm_compute; discriminate).
  destruct (@retries_are_bounded_and_back_off Sim Z World_Sim
              Scenario.manager "mcp" (fun _ => Scenario.failing) O []
              (mkSim 100 [] 0) Hret) as (k & Hk & Hsleeps & _).
  exists k. split; [exact Hk|exact Hsleeps].
Defined.

(** ** Retrying executor: the quota of cohere *)
Section QuotaFacts.

Import Retry.

Lemma limiter_of_set_limiter (cm : ConnectionManager) (name : string)
    (l l0 : RateLimiter) :
  limiter_of cm name = Some l0 ->
  limiter_of (set_limiter name l cm) name = Some l.
Proof.
  unfold limiter_of, set_limiter. simpl. intros Hl.
  destruct (connections cm !! name) as [c|] eqn:Hc; [|discriminate].
  rewrite lookup_alter_eq, Hc. reflexivity.
Qed.

Lemma getRateLimitStatus_limiter (cm : ConnectionManager) (name : string)
    (now : Z) (l : RateLimiter) :
  limiter_of cm name = Some l ->
  getRateLimitStatus cm name now
  = Some (maxRequests l - requests l, Z.max 0 (resetTime l - now)).
Proof.
  unfold limiter_of, getRateLimitStatus.
  destruct (connections cm !! name) as [c|]; [|discriminate].
  intros ->. reflexivity.
Qed.

(** The check leaves the limiter as it was or starts a new window with a
    count of zero; it passes only below the ceiling. *)
Lemma checkRateLimit_limiter (cm : ConnectionManager) (l : RateLimiter)
    (now : Z) :
  limiter_of cm "cohere" = Some l ->
  exists l1,
    limiter_of (checkRateLimit cm "cohere" now).2 "cohere" = Some l1
    /\ maxRequests l1 = maxRequests l
    /\ (requests l1 = requests l \/ requests l1 = 0)
    /\ match (checkRateLimit cm "cohere" now).1 with
       | inl _ => maxRequests l1 <= requests l1
       | inr _ => requests l1 < maxRequests l1
       end.
Proof.
  intros Hl. pose proof Hl as Hl'. unfold limiter_of in Hl'.
  unfold checkRateLimit.
  destruct (connections cm !! "cohere") as [c|] eqn:Hc; [|discriminate].
  rewrite Hl'.
  destruct (resetTime l <? now).
  - exists (mkLimiter 0 (now + 60000) (maxRequests l)).
    cbn [fst snd requests maxRequests].
    destruct (Z.leb_spec (maxRequests l) 0); cbn [fst snd];
      (split; [apply (limiter_of_set_limiter cm "cohere" _ l Hl)|]);
      repeat split; auto.
  - exists l.
    destruct (Z.leb_spec (maxRequests l) (requests l)); cbn [fst snd];
      repeat split; auto.
Qed.

Lemma updateRateLimit_limiter (cm : ConnectionManager) (l : RateLimiter) :
  limiter_of cm "cohere" = Some l ->
  limiter_of (updateRateLimit cm "cohere") "cohere"
  = Some (mkLimiter (requests l + 1) (resetTime l) (maxRequests l)).
Proof.
  intros Hl. pose proof Hl as Hl'. unfold limiter_of in Hl'.
  unfold updateRateLimit.
  destruct (connections cm !! "cohere") as [c|] eqn:Hc; [|discriminate].
  rewrite Hl'. apply (limiter_of_set_limiter cm "cohere" _ l Hl).
Qed.

(** What one attempt on cohere does to the limiter. *)
Lemma attempt_once_limiter {W V : Type} `{World W} (cm : ConnectionManager)
    (connection : Connection) (op : string -> Async W V) (w : W)
    (l : RateLimiter) :
  limiter_of cm "cohere" = Some l ->
  exists l1,
    limiter_of (attempt_once cm "cohere" connection op w).1.2 "cohere"
    = Some l1
    /\ maxRequests l1 = maxRequests l
    /\ match (attempt_once cm "cohere" connection op w).1.1 with
       | Resolved _ =>
           (requests l1 = requests l + 1 \/ requests l1 = 1)
           /\ (0 <= requests l -> 0 < requests l1 <= maxRequests l1)
       | Rejected _ =>
           (requests l1 = requests l \/ requests l1 = 0)
       end.
Proof.
  intros Hl. unfold attempt_once. simpl String.eqb. cbv iota.
  destruct (checkRateLimit_limiter cm l (Date_now w) Hl)
    as (l1 & Hl1 & Hmax & Hreq & Hpass).
  destruct (checkRateLimit cm "cohere" (Date_now w)) as [[err|[]] cm1];
    cbn [fst snd] in *.
  - exists l1. auto.
  - destruct (op (client connection) w) as [[v|e] w']; cbn [fst snd].
    + exists (mkLimiter (requests l1 + 1) (resetTime l1) (maxRequests l1)).
      split; [apply updateRateLimit_limiter, Hl1|].
      cbn [requests maxRequests]. split; [exact Hmax|]. split; lia.
    + exists l1. auto.
Qed.

Lemma retry_loop_limiter {W V : Type} `{World W} (connection : Connection)
    (op : string -> Async W V) (iterations : nat) :
  forall (attempt : Z) (lastError : Error) (cm : ConnectionManager) (w : W)
         (l : RateLimiter),
    limiter_of cm "cohere" = Some l ->
    0 <= requests l <= maxRequests l ->
    let r := retry_loop iterations attempt lastError cm "cohere" connection
               op w in
    exists l1,
      limiter_of r.1.2 "cohere" = Some l1
      /\ maxRequests l1 = maxRequests l
      /\ 0 <= requests l1 <= maxRequests l1
      /\ match r.1.1 with
         | Resolved _ => requests l1 = requests l + 1 \/ requests l1 = 1
         | Rejected _ => requests l1 = requests l \/ requests l1 = 0
         end.
Proof.
  induction iterations as [|iterations IH];
    intros attempt lastError cm w l Hl Hok; cbn [retry_loop].
  - exists l. cbn [fst snd]. repeat split; (lia || auto).
  - destruct (attempt_once_limiter cm connection op w l Hl)
      as (l1 & Hl1 & Hmax & Hstep).
    destruct (attempt_once cm "cohere" connection op w)
      as [[[v|e] cm1] w1]; cbn [fst snd] in *.
    + exists l1. destruct Hstep as [Hreq Hin].
      repeat split; (lia || auto).
    + assert (Hok1 : 0 <= requests l1 <= maxRequests l1) by lia.
      destruct ((attempt <? retries (retryConfig cm)) && retryCondition e).
      * destruct (IH (attempt + 1) e cm1
                     (sleep (retryDelay (retryConfig cm) * 2 ^ attempt) w1)
                     l1 Hl1 Hok1)
          as (l2 & Hl2 & Hmax2 & Hok2 & Hres).
        exists l2. split; [exact Hl2|]. split; [congruence|].
        split; [exact Hok2|].
        destruct (retry_loop iterations (attempt + 1) e cm1 "cohere"
                    connection op
                    (sleep (retryDelay (retryConfig cm) * 2 ^ attempt) w1))
          as [[[v|e'] cm2] w2]; cbn [fst snd] in *; lia.
      * exists l1. cbn [fst snd]. repeat split; (lia || auto).
Qed.


End QuotaFacts.


(** ** Request deduplicator: statistics and [clear] *)
Section DedupStats.

Context {V : Type}.

Import Dedup.

Lemma step_counted_right (e : Event V) (d : RequestDeduplicator V) :
  consistent d -> counted_right d -> counted_right (step d e).2.
Proof.
  intros (Hpi & Hip & Hfresh & Harr & Hset) (Hded & Htot & Hsize).
  destruct e as [key|p o|p]; simpl.
  - unfold dedupe. destruct (pending d !! key) as [q|] eqn:Hkey; simpl.
    + repeat split; simpl; lia.
    + repeat split; simpl; [lia|lia|].
      rewrite !map_size_insert_None; [lia| |exact Hkey].
      destruct (inflight d !! fresh d) as [k|] eqn:Hf; [|reflexivity].
      apply Hfresh in Hf. lia.
  - unfold settle. destruct (inflight d !! p); [|repeat split; auto].
    destruct (arrived d !! p); repeat split; auto.
  - unfold react. destruct (inflight d !! p) as [key|] eqn:Hp;
      [|repeat split; auto].
    destruct (arrived d !! p); [|repeat split; auto].
    repeat split; simpl; [lia|lia|].
    rewrite (map_size_delete key (pending d)), (Hip _ _ Hp).
    rewrite (map_size_delete p (inflight d)), Hp. lia.
Qed.

Lemma run_counted_right (events : list (Event V)) :
  forall d : RequestDeduplicator V,
    consistent d -> counted_right d -> counted_right (run events d).2.
Proof.
  induction events as [|e rest IH]; intros d Hd Hc; simpl; [exact Hc|].
  pose proof (step_consistent e d Hd) as Hd'.
  pose proof (step_counted_right e d Hd Hc) as Hc'.
  destruct (step d e) as [returned d'].
  specialize (IH d' Hd' Hc'). destruct (run rest d'). exact IH.
Qed.

(** X8.  The statistics add up at every reachable state: every call is
    either counted as deduplicated or it invoked its function, so [total]
    is [deduped] plus the number of invocations; [currentPending] is the
    number of operations whose handler has not run; and the rate lies
    between 0 and 100. *)
Theorem dedup_stats_add_up :
  forall d : RequestDeduplicator V,
    reachable d ->
    stat_total (getStats d)
    = stat_deduped (getStats d) + Z.of_nat (length (invoked d))
    /\ 0 <= stat_deduped (getStats d) <= stat_total (getStats d)
    /\ stat_currentPending (getStats d) = size (inflight d)
    /\ (0 <= stat_rate (getStats d) <= 100)%Q.
Proof.
  intros d [events ->].
  destruct (run_counted_right events new new_consistent) as (Hded & Htot & Hsize).
  { repeat split; reflexivity. }
  set (d := (run events new).2) in *.
  split; [exact Htot|]. split; [simpl; lia|]. split; [exact Hsize|].
  simpl. destruct (Z.ltb_spec 0 (total d)) as [Hpos|Hzero];
    [|split; discriminate].
  assert (Hle : deduped d <= total d) by lia.
  destruct (total d) as [|t|t] eqn:Ht; try lia.
  unfold Qle, Qdiv, Qmult, Qinv, inject_Z. simpl.
  split; nia.
Qed.

(** X9.  [clear()] does not cancel anything, it only forgets.  With an
    operation [p] in flight under [K], the next call under [K] after a
    [clear()] invokes its function again, so two operations run for [K] at
    once; and when the older one settles its handler deletes the entry of
    the newer one, so a further call invokes the function a third time
    while the second operation is still in flight. *)
Theorem clear_forgets_operations_in_flight :
  forall (d : RequestDeduplicator V) (K : string) (p : Promise)
         (o : Outcome V),
    consistent d ->
    pending d !! K = Some p ->
    let q := (dedupe K (clear d)).1 in
    let d2 := (dedupe K (clear d)).2 in
    let d3 := react p (settle p o d2) in
    q <> p
    /\ invocations K d2 = S (invocations K d)
    /\ inflight d2 !! p = Some K /\ inflight d2 !! q = Some K
    /\ pending d3 !! K = None
    /\ inflight d3 !! q = Some K
    /\ (dedupe K d3).1 <> q
    /\ invocations K (dedupe K d3).2 = S (S (invocations K d)).
Proof.
  intros d K p o (Hpi & Hip & Hfresh & Harr & Hset) HK q d2 d3.
  pose proof (Hpi _ _ HK) as Hp. pose proof (Hfresh _ _ Hp) as Hlt.
  assert (Hq : q = fresh d) by reflexivity.
  assert (Hd2 : d2 = mkDedup {[K := fresh d]} (deduped d) (total d + 1)
                             (<[fresh d := K]> (inflight d)) (arrived d)
                             (settled d) (K :: invoked d) (S (fresh d)))
    by reflexivity.
  assert (Hne : q <> p) by lia.
  assert (Hp2 : inflight d2 !! p = Some K).
  { rewrite Hd2. simpl. rewrite lookup_insert_ne by lia. exact Hp. }
  assert (Hq2 : inflight d2 !! q = Some K).
  { rewrite Hd2, Hq. simpl. apply lookup_insert_eq. }
  assert (Hinv2 : invocations K d2 = S (invocations K d)).
  { rewrite Hd2. unfold invocations. simpl.
    destruct (String.string_dec K K); [reflexivity|contradiction]. }
  assert (Hd3 : pending d3 = delete K (pending d2)
                /\ inflight d3 = delete p (inflight d2)
                /\ invoked d3 = invoked d2 /\ fresh d3 = fresh d2).
  { unfold d3, react, settle. rewrite Hp2.
    destruct (arrived d2 !! p) as [o'|] eqn:Ha; simpl.
    - rewrite Hp2, Ha. simpl. auto.
    - rewrite Hp2, lookup_insert_eq. simpl. auto. }
  destruct Hd3 as (Hpend3 & Hfl3 & Hinv3 & Hfresh3).
  assert (HK3 : pending d3 !! K = None).
  { rewrite Hpend3. apply lookup_delete_eq. }
  split; [exact Hne|]. split; [exact Hinv2|]. split; [exact Hp2|].
  split; [exact Hq2|]. split; [exact HK3|].
  split; [rewrite Hfl3, lookup_delete_ne by lia; exact Hq2|].
  unfold dedupe. rewrite HK3. simpl. rewrite Hfresh3, Hd2. simpl.
  split; [lia|].
  unfold invocations in *. simpl. rewrite Hinv3.
  destruct (String.string_dec K K); [|contradiction].
  f_equal. exact Hinv2.
Qed.

End DedupStats.

Lemma dedup_stats_add_up_witness :
  Dedup.stat_currentPending
    (Dedup.getStats (Dedup.run Scenario.three_more_callers
                       (Dedup.dedupe "k" (@Dedup.new Z)).2).2)
  = 2%nat.
Proof.
  assert (Hreach : Dedup.reachable
                     (Dedup.run Scenario.three_more_callers
                        (Dedup.dedupe "k" (@Dedup.new Z)).2).2).
  { exists (Dedup.Call "k" :: Scenario.three_more_callers). reflexivity. }
  destruct (dedup_stats_add_up _ Hreach) as (_ & _ & Hsize & _).
  rewrite Hsize. vm_compute. reflexivity.
Defined.

(** X9 after the first call of the scenario. *)
Lemma clear_forgets_operations_in_flight_witness :
  let d := (Dedup.dedupe "k" (@Dedup.new Z)).2 in
  Dedup.invocations "k" (Dedup.dedupe "k" (Dedup.clear d)).2 = 2%nat.
Proof.
  assert (Hd : Dedup.consistent (Dedup.dedupe "k" (@Dedup.new Z)).2)
    by (apply dedupe_consistent, new_consistent).
  destruct (clear_forgets_operations_in_flight
              (Dedup.dedupe "k" (@Dedup.new Z)).2 "k" O (Resolved 1) Hd
              eq_refl) as (_ & Hinv & _).
  exact Hinv.
Defined.

(** ** Embedding queue: batches and groups *)
Section BatchRuns.

Import Batch.

(** What one event does: the batch size and wait are kept, and a flush
    takes a prefix of the queue (with the item just added) and leaves the
    rest. *)
Lemma step_splits_queue (q : EmbeddingQueue) (e : Event) :
  batchSize (step q e).2 = batchSize q
  /\ maxWait (step q e).2 = maxWait q
  /\ match (step q e).1 with
     | Some batch =>
         batch = firstn (Z.to_nat (batchSize q)) (queue q ++ added [e])
         /\ queue (step q e).2
            = skipn (Z.to_nat (batchSize q)) (queue q ++ added [e])
         /\ queue q ++ added [e] <> []
         /\ processing (step q e).2 = true
     | None => queue (step q e).2 = queue q ++ added [e]
     end.
Proof.
  assert (Hpq : forall q0 : EmbeddingQueue,
             batchSize (processQueue q0).2 = batchSize q0
             /\ maxWait (processQueue q0).2 = maxWait q0
             /\ match (processQueue q0).1 with
                | Some batch =>
                    batch = firstn (Z.to_nat (batchSize q0)) (queue q0)
                    /\ queue (processQueue q0).2
                       = skipn (Z.to_nat (batchSize q0)) (queue q0)
                    /\ queue q0 <> []
                    /\ processing (processQueue q0).2 = true
                | None => queue (processQueue q0).2 = queue q0
                end).
  { intros q0. unfold processQueue.
    destruct (processing q0); simpl; [auto|].
    destruct (queue q0) as [|i rest] eqn:Hq0; simpl; [auto|].
    split; [reflexivity|]. split; [reflexivity|]. split; [reflexivity|].
    split; [reflexivity|]. split; [discriminate|reflexivity]. }
  assert (Hsp : forall (q0 : EmbeddingQueue) (now : Z),
             batchSize (scheduleProcessing q0 now).2 = batchSize q0
             /\ maxWait (scheduleProcessing q0 now).2 = maxWait q0
             /\ match (scheduleProcessing q0 now).1 with
                | Some batch =>
                    batch = firstn (Z.to_nat (batchSize q0)) (queue q0)
                    /\ queue (scheduleProcessing q0 now).2
                       = skipn (Z.to_nat (batchSize q0)) (queue q0)
                    /\ queue q0 <> []
                    /\ processing (scheduleProcessing q0 now).2 = true
                | None => queue (scheduleProcessing q0 now).2 = queue q0
                end).
  { intros q0 now. unfold scheduleProcessing. simpl.
    destruct (batchSize q0 <=? Z.of_nat (length (queue q0))); [|simpl; auto].
    apply (Hpq (mkQueue (batchSize q0) (maxWait q0) (queue q0)
                        (processing q0) None)). }
  destruct e as [text options now|now|now]; simpl.
  - unfold add. simpl. destruct (processing q) eqn:Hp; simpl; [auto|].
    pose proof (Hsp (mkQueue (batchSize q) (maxWait q)
                             (queue q ++ [mkItem text options now])
                             (processing q) (timer q)) now) as H.
    simpl in H. rewrite Hp in H. exact H.
  - rewrite app_nil_r. unfold timer_fires.
    destruct (timer q) as [due|]; [|simpl; auto].
    destruct (due <=? now); [|simpl; auto].
    apply (Hpq (mkQueue (batchSize q) (maxWait q) (queue q)
                        (processing q) None)).
  - rewrite app_nil_r. unfold processQueue_done. simpl.
    destruct (0 <? Z.of_nat (length (queue q))); [|simpl; auto].
    apply (Hsp (mkQueue (batchSize q) (maxWait q) (queue q) false (timer q))
               now).
Qed.

(** X10.  Nothing is lost, duplicated or reordered: after any run of adds,
    timer ticks and flush ends, the batches flushed so far, one after the
    other, followed by what is still queued, are exactly the items that
    were queued at the start followed by the items added, in order of
    arrival. *)
Theorem batches_preserve_arrival_order :
  forall (events : list Event) (q : EmbeddingQueue),
    concat (map snd (run events q).1) ++ queue (run events q).2
    = queue q ++ added events.
Proof.
  induction events as [|e rest IH]; intros q.
  - simpl. rewrite app_nil_r. reflexivity.
  - assert (Hadded : added (e :: rest) = added [e] ++ added rest).
    { destruct e; reflexivity. }
    rewrite Hadded, app_assoc. cbn [run].
    pose proof (step_splits_queue q e) as (_ & _ & Hsplit).
    destruct (step q e) as [flush q']. cbn [fst snd] in Hsplit.
    specialize (IH q'). destruct (run rest q') as [flushes q''].
    cbn [fst snd] in IH |- *.
    destruct flush as [batch|].
    + destruct Hsplit as (Hb & Hq' & _). simpl.
      rewrite <- app_assoc, IH, Hq', Hb, app_assoc, firstn_skipn.
      reflexivity.
    + rewrite IH, Hsplit. reflexivity.
Qed.

(** X11.  With a batch size of at least one, every flush of a run hands
    over at least one item and at most [batchSize] items. *)
Theorem batches_are_bounded :
  forall (events : list Event) (q : EmbeddingQueue) (now : Z)
         (batch : list Item),
    1 <= batchSize q ->
    In (now, batch) (run events q).1 ->
    1 <= Z.of_nat (length batch) <= batchSize q.
Proof.
  induction events as [|e rest IH]; intros q now batch Hsize Hin; simpl in Hin.
  - contradiction.
  - pose proof (step_splits_queue q e) as (Hbs & _ & Hsplit).
    destruct (step q e) as [flush q']. cbn [fst snd] in Hbs, Hsplit.
    specialize (IH q' now batch). rewrite Hbs in IH.
    destruct (run rest q') as [flushes q''].
    destruct flush as [b|]; [|auto].
    destruct Hin as [Heq|Hin]; [|auto].
    injection Heq as _ <-.
    destruct Hsplit as (-> & _ & Hne & _).
    rewrite length_firstn.
    clear IH. remember (queue q ++ added [e]) as Q eqn:HQ.
    destruct Q as [|i l]; [exfalso; apply Hne; reflexivity|].
    simpl length. lia.
Qed.

Lemma step_attended (q : EmbeddingQueue) (e : Event) :
  attended q -> attended (step q e).2.
Proof.
  intros Hq. unfold attended.
  assert (Hpq : forall q0, processing q0 = true
                           \/ processing (processQueue q0).2 = true
                           \/ queue (processQueue q0).2 = []).
  { intros q0. unfold processQueue. destruct (processing q0); [auto|].
    simpl. destruct (Z.eqb_spec (Z.of_nat (length (queue q0))) 0) as [Hz|Hnz];
      simpl; [|auto].
    right. right. destruct (queue q0); [reflexivity|discriminate Hz]. }
  assert (Hpq' : forall q0, processing q0 = true ->
                            processQueue q0 = (None, q0)).
  { intros q0 Hp. unfold processQueue. rewrite Hp. reflexivity. }
  assert (Hsp : forall q0 now,
             queue (scheduleProcessing q0 now).2 <> [] ->
             processing (scheduleProcessing q0 now).2 = true
             \/ is_Some (timer (scheduleProcessing q0 now).2)).
  { intros q0 now. unfold scheduleProcessing. simpl.
    destruct (batchSize q0 <=? Z.of_nat (length (queue q0)));
      [|simpl; eauto].
    destruct (processing q0) eqn:Hp.
    - rewrite Hpq' by (simpl; first [reflexivity | exact Hp]). simpl. auto.
    - destruct (Hpq (mkQueue (batchSize q0) (maxWait q0) (queue q0)
                             (processing q0) None)) as [H|[H|H]]; simpl in H.
      + congruence.
      + rewrite Hp in H. auto.
      + rewrite Hp in H. intros Hne. contradiction. }
  destruct e as [text options now|now|now]; simpl.
  - unfold add. simpl. destruct (processing q) eqn:Hp; simpl.
    + intros _. auto.
    + pose proof (Hsp (mkQueue (batchSize q) (maxWait q)
                               (queue q ++ [mkItem text options now])
                               (processing q) (timer q)) now) as H.
      simpl in H. rewrite Hp in H. exact H.
  - unfold timer_fires. destruct (timer q) as [due|] eqn:Ht; [|exact Hq].
    destruct (due <=? now); [|simpl; rewrite Ht; eauto].
    destruct (processing q) eqn:Hp.
    + rewrite Hpq' by (simpl; first [reflexivity | exact Hp]). simpl. auto.
    + destruct (Hpq (mkQueue (batchSize q) (maxWait q) (queue q)
                             (processing q) None)) as [H|[H|H]]; simpl in H.
      * congruence.
      * rewrite Hp in H. auto.
      * rewrite Hp in H. intros Hne. contradiction.
  - unfold processQueue_done. simpl.
    destruct (queue q) as [|i l] eqn:Hqueue; simpl; [intros []; reflexivity|].
    pose proof (Hsp (mkQueue (batchSize q) (maxWait q) (queue q) false
                             (timer q)) now) as H.
    rewrite Hqueue in H. exact H.
Qed.

(** X12.  No item is left waiting for nothing: at every state reached
    from a new queue by [add], the timer, the end of a flush and [clear],
    a queue that holds items has a flush in progress, whose end schedules
    the next one, or a timeout armed. *)
Theorem queued_items_are_attended :
  forall (opt_batchSize opt_maxWait : option Z) (q : EmbeddingQueue),
    reached (new opt_batchSize opt_maxWait) q ->
    queue q <> [] -> processing q = true \/ is_Some (timer q).
Proof.
  intros opt_batchSize opt_maxWait q Hreach.
  change (attended q).
  induction Hreach as [|q e Hreach IH|q Hreach IH].
  - intros Hne. simpl in Hne. contradiction.
  - apply step_attended, IH.
  - intros Hne. simpl in Hne. contradiction.
Qed.

(** X13.  The [add] that brings an idle queue to the batch size flushes
    at once, without a timeout: the batch is the whole queue, the new item
    last, and the queue is empty afterwards. *)
Theorem full_batch_flushes_at_once :
  forall (q : EmbeddingQueue) (text options : string) (now : Z),
    processing q = false ->
    Z.of_nat (length (queue q)) + 1 = batchSize q ->
    add q text options now
    = (Some (queue q ++ [mkItem text options now]),
       mkQueue (batchSize q) (maxWait q) [] true None).
Proof.
  intros q text options now Hidle Hfull.
  unfold add, scheduleProcessing, processQueue. simpl. rewrite Hidle. simpl.
  rewrite length_app. simpl.
  destruct (Z.leb_spec (batchSize q) (Z.of_nat (length (queue q) + 1)));
    [|lia].
  destruct (Z.eqb_spec (Z.of_nat (length (queue q) + 1)) 0); [lia|].
  assert (Hn : Z.to_nat (batchSize q) = length (queue q ++ [mkItem text options now])).
  { rewrite length_app. simpl. lia. }
  rewrite Hn, firstn_all, skipn_all. reflexivity.
Qed.

End BatchRuns.

Lemma run_reached (events : list Batch.Event) :
  forall q start : Batch.EmbeddingQueue,
    Batch.reached start q -> Batch.reached start (Batch.run events q).2.
Proof.
  induction events as [|e rest IH]; intros q start Hq; simpl; [exact Hq|].
  pose proof (Batch.reached_step start q e Hq) as Hstep.
  destruct (Batch.step q e) as [flush q'].
  specialize (IH q' start Hstep). destruct (Batch.run rest q'). exact IH.
Qed.

(** X11 on the scenario: the flush at 90 hands over two items, with a
    batch size of three. *)
Lemma batches_are_bounded_witness :
  1 <= Z.of_nat (length [Scenario.first_text; Scenario.second_text]) <= 3.
Proof.
  apply (batches_are_bounded (Scenario.two_arrivals ++ [Batch.Clock 90])
           Scenario.queue_3_50 90
           [Scenario.first_text; Scenario.second_text]).
  - vm_compute. discriminate.
  - vm_compute. left. reflexivity.
Defined.

(** X12 on the scenario: after the two arrivals the timeout is armed. *)
Lemma queued_items_are_attended_witness :
  Batch.processing (Batch.run Scenario.two_arrivals Scenario.queue_3_50).2
  = true
  \/ is_Some (Batch.timer
                (Batch.run Scenario.two_arrivals Scenario.queue_3_50).2).
Proof.
  apply (queued_items_are_attended (Some 3) (Some 50)).
  - apply run_reached, Batch.reached_start.
  - vm_compute. discriminate.
Defined.

(** X13 on the scenario: a third text at 45 flushes all three at once. *)
Lemma full_batch_flushes_at_once_witness :
  (Batch.add (Batch.run Scenario.two_arrivals Scenario.queue_3_50).2
     "c" "{}" 45).1
  = Some [Scenario.first_text; Scenario.second_text;
          Batch.mkItem "c" "{}" 45].
Proof.
  rewrite (full_batch_flushes_at_once
             (Batch.run Scenario.two_arrivals Scenario.queue_3_50).2
             "c" "{}" 45 eq_refl eq_refl).
  reflexivity.
Defined.

(** ** Embedding queue: grouping a batch *)
Section GroupFacts.

Import Batch.

Lemma with_options_snoc (key : string) (seen : list Item) (item : Item) :
  with_options key (seen ++ [item])
  = with_options key seen
    ++ (if String.eqb key (options item) then [item] else []).
Proof. unfold with_options. rewrite List.filter_app. reflexivity. Qed.

(** Inserting an item whose options already have a group. *)
Lemma group_insert_known (item : Item) (seen : list Item) (keys : list string) :
  NoDup keys ->
  In (options item) keys ->
  group_insert item (map (fun k => (k, with_options k seen)) keys)
  = map (fun k => (k, with_options k (seen ++ [item]))) keys.
Proof.
  induction keys as [|k keys IH]; intros Hnd Hin; [contradiction|].
  apply NoDup_cons in Hnd as [Hk Hnd]. simpl.
  rewrite with_options_snoc.
  destruct (String.eqb_spec k (options item)) as [->|Hne].
  - f_equal. apply map_ext_in. intros k' Hk'.
    rewrite with_options_snoc.
    destruct (String.eqb_spec k' (options item)) as [->|_];
      [|rewrite app_nil_r; reflexivity].
    exfalso. apply Hk. apply list_elem_of_In. exact Hk'.
  - rewrite app_nil_r. f_equal. apply IH; [exact Hnd|].
    destruct Hin as [Heq|Hin]; [contradiction|exact Hin].
Qed.

(** Inserting an item whose options have no group yet. *)
Lemma group_insert_new (item : Item) (seen : list Item) (keys : list string) :
  ~ In (options item) keys ->
  with_options (options item) seen = [] ->
  group_insert item (map (fun k => (k, with_options k seen)) keys)
  = map (fun k => (k, with_options k (seen ++ [item])))
        (keys ++ [options item]).
Proof.
  intros Hnew Hnone. induction keys as [|k keys IH]; simpl.
  - rewrite with_options_snoc, Hnone, String.eqb_refl. reflexivity.
  - rewrite with_options_snoc.
    destruct (String.eqb_spec k (options item)) as [->|Hne].
    + exfalso. apply Hnew. left. reflexivity.
    + rewrite app_nil_r. f_equal. apply IH. intros Hin. apply Hnew.
      right. exact Hin.
Qed.

Lemma with_options_nil (key : string) (seen : list Item) :
  (forall i, In i seen -> options i <> key) -> with_options key seen = [].
Proof.
  unfold with_options.
  induction seen as [|s seen IH]; intros Hno; simpl; [reflexivity|].
  destruct (String.eqb_spec key (options s)) as [->|_].
  - exfalso. apply (Hno s); [left|]; reflexivity.
  - apply IH. intros i Hi. apply Hno. right. exact Hi.
Qed.

(** The map [groupByOptions] builds, after the items [seen]. *)
Lemma groups_after (items : list Item) :
  forall (seen : list Item) (keys : list string),
    NoDup keys ->
    (forall key, In key keys <-> exists i, In i seen /\ options i = key) ->
    exists keys',
      NoDup keys'
      /\ (forall key,
             In key keys' <-> exists i, In i (seen ++ items) /\ options i = key)
      /\ fold_left (fun groups item => group_insert item groups) items
           (map (fun k => (k, with_options k seen)) keys)
         = map (fun k => (k, with_options k (seen ++ items))) keys'.
Proof.
  induction items as [|item items IH]; intros seen keys Hnd Hkeys.
  - exists keys. rewrite app_nil_r. auto.
  - simpl.
    assert (Hstep : exists keys1,
               NoDup keys1
               /\ (forall key, In key keys1 <->
                     exists i, In i (seen ++ [item]) /\ options i = key)
               /\ group_insert item
                    (map (fun k => (k, with_options k seen)) keys)
                  = map (fun k => (k, with_options k (seen ++ [item]))) keys1).
    { destruct (in_dec String.string_dec (options item) keys) as [Hin|Hnew].
      - exists keys. split; [exact Hnd|]. split.
        + intros key. rewrite Hkeys. split.
          * intros (i & Hi & Ho). exists i. split; [|exact Ho].
            apply in_or_app. left. exact Hi.
          * intros (i & Hi & Ho). apply in_app_or in Hi as [Hi|[<-|[]]].
            -- exists i. auto.
            -- apply Hkeys. rewrite <- Ho. exact Hin.
        + apply group_insert_known; [exact Hnd|exact Hin].
      - exists (keys ++ [options item]). split.
        + apply NoDup_app. split; [exact Hnd|]. split.
          * intros x Hx Hk. apply list_elem_of_In in Hx, Hk.
            destruct Hk as [<-|[]]. apply Hnew, Hx.
          * apply NoDup_singleton.
        + split.
          * intros key. rewrite in_app_iff, Hkeys. split.
            -- intros [(i & Hi & Ho)|[<-|[]]].
               ++ exists i. split; [apply in_or_app; left; exact Hi|exact Ho].
               ++ exists item. split; [apply in_or_app; right; left|];
                    reflexivity.
            -- intros (i & Hi & Ho). apply in_app_or in Hi as [Hi|[<-|[]]].
               ++ left. exists i. auto.
               ++ right. left. exact Ho.
          * apply group_insert_new; [exact Hnew|].
            apply with_options_nil. intros i Hi Ho. apply Hnew.
            apply Hkeys. exists i. auto. }
    destruct Hstep as (keys1 & Hnd1 & Hkeys1 & ->).
    destruct (IH (seen ++ [item]) keys1 Hnd1 Hkeys1)
      as (keys' & Hnd' & Hkeys' & Hfold).
    exists keys'. rewrite <- app_assoc in Hkeys', Hfold. simpl in Hkeys', Hfold.
    auto.
Qed.

(** X14.  [groupByOptions] splits a batch by options and loses nothing:
    there is one group for each options value that occurs, the groups come
    never two for the same value; the group of an options value holds
    exactly the items with that value, in order of arrival, and no group
    is empty. *)
Theorem groups_partition_the_batch :
  forall items : list Item,
    exists keys : list string,
      NoDup keys
      /\ (forall key, In key keys <-> exists i, In i items /\ options i = key)
      /\ groupByOptions items
         = map (fun key => with_options key items) keys
      /\ (forall group, In group (groupByOptions items) -> group <> []).
Proof.
  intros items. unfold groupByOptions.
  destruct (groups_after items [] [] (NoDup_nil_2 (A:=string)))
    as (keys & Hnd & Hkeys & Hfold).
  { intros key. split; [intros []|intros (i & [] & _)]. }
  simpl in Hkeys, Hfold.
  exists keys. split; [exact Hnd|]. split; [exact Hkeys|].
  rewrite Hfold, map_map. simpl.
  split; [reflexivity|].
  intros group Hin. apply in_map_iff in Hin as (key & <- & Hkey).
  apply Hkeys in Hkey as (i & Hi & Ho).
  intros Hnil.
  assert (Hin : In i (with_options key items)).
  { apply List.filter_In. split; [exact Hi|]. rewrite Ho.
    apply String.eqb_refl. }
  rewrite Hnil in Hin. contradiction.
Qed.

End GroupFacts.

(** ** Cache keys *)
Section KeyFacts.

Import Cache.

Lemma ToInt32_range (x : Z) : - 2 ^ 31 <= ToInt32 x < 2 ^ 31.
Proof.
  unfold ToInt32. pose proof (Z.mod_pos_bound (x + 2 ^ 31) (2 ^ 32)). lia.
Qed.

(** [ToInt32] only sees its argument modulo [2^32]. *)
Lemma ToInt32_congruent (x y k : Z) : x = y + k * 2 ^ 32 -> ToInt32 x = ToInt32 y.
Proof.
  intros ->. unfold ToInt32.
  replace (y + k * 2 ^ 32 + 2 ^ 31) with (y + 2 ^ 31 + k * 2 ^ 32) by lia.
  rewrite Z.mod_add by lia. reflexivity.
Qed.

Lemma ToInt32_offset (x : Z) : exists k, ToInt32 x = x + k * 2 ^ 32.
Proof.
  unfold ToInt32. exists (- ((x + 2 ^ 31) / 2 ^ 32)).
  pose proof (Z.div_mod (x + 2 ^ 31) (2 ^ 32)). lia.
Qed.

(** The shift, the subtraction and the mask amount to [31 * hash + char]
    cut to 32 bits. *)
Lemma hash_step_poly (p c : Z) :
  hash_step (ToInt32 p) c = ToInt32 (31 * p + c).
Proof.
  unfold hash_step.
  destruct (ToInt32_offset p) as [k Hk].
  destruct (ToInt32_offset (ToInt32 p * 2 ^ 5)) as [j Hj].
  apply (ToInt32_congruent _ _ (j + 31 * k)). rewrite Hj, Hk. lia.
Qed.

Lemma fold_hash_step_poly (units : list Z) :
  forall p : Z,
    fold_left hash_step units (ToInt32 p)
    = ToInt32 (fold_left (fun h c => 31 * h + c) units p).
Proof.
  induction units as [|c units IH]; intros p; simpl; [reflexivity|].
  rewrite hash_step_poly. apply IH.
Qed.

(** X15.  The hash behind every cache key is the 31-polynomial of the
    code units (the hash of Java's [String.hashCode]) cut to a signed 32-bit
    integer, with the sign dropped; it lies between 0 and [2^31]. *)
Theorem hash_is_polynomial_mod_2_32 :
  forall units : list Z,
    hash_of units = Z.abs (ToInt32 (poly31 units))
    /\ 0 <= hash_of units <= 2 ^ 31.
Proof.
  intros units. unfold hash_of, poly31.
  pose proof (fold_hash_step_poly units 0) as Hfold.
  change (ToInt32 0) with 0 in Hfold. rewrite Hfold.
  split; [reflexivity|].
  pose proof (ToInt32_range (fold_left (fun h c => 31 * h + c) units 0)).
  lia.
Qed.

Lemma codes_app (s t : string) : codes (s +:+ t) = codes s ++ codes t.
Proof. induction s as [|c s IH]; simpl; [reflexivity|]. rewrite IH. reflexivity. Qed.

(** Two passes over ["Aa"] and over ["BB"] leave the same hash. *)
Lemma hash_step_Aa_BB (h : Z) :
  hash_step (hash_step h 65) 97 = hash_step (hash_step h 66) 66.
Proof.
  unfold hash_step.
  destruct (ToInt32_offset (h * 2 ^ 5)) as [j Hj].
  destruct (ToInt32_offset (ToInt32 (h * 2 ^ 5) - h + 65)) as [a Ha].
  destruct (ToInt32_offset (ToInt32 (h * 2 ^ 5) - h + 66)) as [b Hb].
  destruct (ToInt32_offset
              (ToInt32 (ToInt32 (h * 2 ^ 5) - h + 65) * 2 ^ 5)) as [a' Ha'].
  destruct (ToInt32_offset
              (ToInt32 (ToInt32 (h * 2 ^ 5) - h + 66) * 2 ^ 5)) as [b' Hb'].
  apply (ToInt32_congruent _ _ (a' + 31 * a - b' - 31 * b)).
  rewrite Ha', Hb', Ha, Hb. lia.
Qed.

Lemma generateKey_Aa_BB (type s t : string) :
  generateKey type [s +:+ "Aa" +:+ t] = generateKey type [s +:+ "BB" +:+ t].
Proof.
  unfold generateKey, hashString, hash_of. cbn [String.concat].
  do 3 f_equal. rewrite !codes_app, !fold_left_app.
  generalize (fold_left hash_step (codes s) 0). intros h.
  change (codes "Aa") with [65; 97]. change (codes "BB") with [66; 66].
  cbn [fold_left]. rewrite hash_step_Aa_BB. reflexivity.
Qed.

Lemma Aa_is_not_BB (s t : string) : s +:+ "Aa" +:+ t <> s +:+ "BB" +:+ t.
Proof.
  induction s as [|c s IH]; simpl; [discriminate|].
  intros Heq. injection Heq as Heq. exact (IH Heq).
Qed.

(** X16.  Cache keys collide: replacing ["Aa"] by ["BB"] anywhere in the
    parameters of a key gives the same key, so two different requests share
    one cache entry. *)
Theorem keys_collide :
  forall (type s t : string),
    generateKey type [s +:+ "Aa" +:+ t] = generateKey type [s +:+ "BB" +:+ t]
    /\ s +:+ "Aa" +:+ t <> s +:+ "BB" +:+ t.
Proof.
  intros type s t. split; [apply generateKey_Aa_BB|apply Aa_is_not_BB].
Qed.

End KeyFacts.

(** ** Adaptive TTLs and the decay of idle patterns *)
Section AdaptiveFacts.

Import Cache.

Lemma Math_round_monotone (x y : R) :
  (x <= y)%R -> Math_round x <= Math_round y.
Proof.
  intros Hxy.
  pose proof (Math_round_bounds x) as [_ Hx].
  pose proof (Math_round_bounds y) as [Hy _].
  assert (Hlt : (IZR (Math_round x) < IZR (Math_round y + 1))%R).
  { rewrite plus_IZR. lra. }
  apply lt_IZR in Hlt. lia.
Qed.

Lemma boundedMultiplier_monotone (f g : Q) :
  (0 <= f)%Q -> (f <= g)%Q -> (boundedMultiplier f <= boundedMultiplier g)%R.
Proof.
  intros Hf Hfg. apply Qreals.Qle_Rle in Hf, Hfg.
  rewrite RMicromega.Q2R_0 in Hf.
  unfold boundedMultiplier.
  apply Rle_max_compat_l, Rle_min_compat_l.
  assert (Hln : (ln (Q2R f + 1) <= ln (Q2R g + 1))%R).
  { destruct Hfg as [Hlt|Heq].
    - left. apply ln_increasing; lra.
    - rewrite Heq. lra. }
  pose proof ln_10_pos as H10.
  assert (Hinv : (0 < / ln 10)%R) by (apply Rinv_0_lt_compat; exact H10).
  unfold log10, Rdiv. nra.
Qed.

Lemma rounded_product_ge_base (base : Z) (f : Q) :
  (0 <= f)%Q -> 0 < base ->
  base <= Math_round (IZR base * boundedMultiplier f).
Proof.
  intros Hf Hbase.
  pose proof (boundedMultiplier_ge_1 f Hf) as Hge.
  pose proof (IZR_lt 0 base Hbase) as Hpos.
  replace base with (Math_round (IZR base)) at 1.
  - apply Math_round_monotone. nra.
  - symmetry. unfold Math_round. apply Int_part_spec. lra.
Qed.

(** X17.  Within one namespace a key with the higher stored frequency
    never gets the shorter adaptive TTL. *)
Theorem hotter_key_lives_no_shorter :
  forall (patterns : gmap string AccessPattern) (cacheType key1 key2 : string)
         (p1 p2 : AccessPattern),
    well_formed patterns ->
    patterns !! patternKey cacheType key1 = Some p1 ->
    patterns !! patternKey cacheType key2 = Some p2 ->
    (frequency p1 <= frequency p2)%Q ->
    getAdaptiveTTL patterns cacheType key1
    <= getAdaptiveTTL patterns cacheType key2.
Proof.
  intros patterns cacheType key1 key2 p1 p2 Hwf H1 H2 Hle.
  destruct (Hwf _ _ H1) as (_ & _ & Hf1).
  destruct (Hwf _ _ H2) as (_ & _ & Hf2).
  pose proof (baseTTL_positive cacheType) as Hbase.
  unfold getAdaptiveTTL. rewrite H1, H2.
  destruct (Qeq_bool (frequency p1) 0) eqn:Hz1;
    destruct (Qeq_bool (frequency p2) 0) eqn:Hz2.
  - lia.
  - apply rounded_product_ge_base; assumption.
  - apply Qeq_bool_iff in Hz2. rewrite Hz2 in Hle.
    assert (Hzero : (frequency p1 == 0)%Q) by (apply Qle_antisym; assumption).
    apply Qeq_bool_iff in Hzero. congruence.
  - apply Math_round_monotone.
    pose proof (boundedMultiplier_monotone _ _ Hf1 Hle) as Hmono.
    pose proof (IZR_lt 0 _ Hbase) as Hpos. nra.
Qed.

Lemma decayed_nonneg (n : nat) (f : Q) : (0 <= f)%Q -> (0 <= decayed n f)%Q.
Proof.
  intros Hf. unfold decayed. apply Nat.iter_invariant; [|exact Hf].
  intros x Hx. apply Qmult_le_0_compat; [exact Hx|discriminate].
Qed.

Lemma decay_shrinks (x : Q) : (0 <= x)%Q -> (x * decayFactor <= x)%Q.
Proof.
  destruct x as [a b]. unfold Qle, Qmult, decayFactor. simpl.
  rewrite Pos2Z.inj_mul. nia.
Qed.

Lemma decayed_le (n : nat) (f : Q) : (0 <= f)%Q -> (decayed n f <= f)%Q.
Proof.
  intros Hf. induction n as [|n IH]; [apply Qle_refl|].
  pose proof (decayed_nonneg n f Hf) as Hpos.
  unfold decayed in *. rewrite Nat.iter_succ.
  eapply Qle_trans; [apply decay_shrinks, Hpos|exact IH].
Qed.

Lemma sweeps_keep_absent (n : nat) :
  forall (start : Z) (patterns : gmap string AccessPattern) (k : string),
    patterns !! k = None ->
    fold_left step (sweeps n start) patterns !! k = None.
Proof.
  induction n as [|n IH]; intros start patterns k Hk; simpl; [exact Hk|].
  apply IH. unfold updatePatterns. rewrite lookup_omap, Hk. reflexivity.
Qed.

Lemma sweeps_unfold (n : nat) (start : Z)
    (patterns : gmap string AccessPattern) :
  fold_left step (sweeps (S n) start) patterns
  = fold_left step (sweeps n (start + updateInterval))
      (updatePatterns patterns start).
Proof. reflexivity. Qed.

(** X18.  What [n + 1] sweeps, one a minute, leave of a pattern nobody
    touches: it is still there exactly when the last sweep came within 24
    hours of the last access and the frequency times [decayFactor] to the
    power [n + 1] has not fallen below 0.01; then that is the stored
    frequency, and nothing else of the pattern has changed. *)
Theorem idle_pattern_decays_geometrically :
  forall (n : nat) (start : Z) (patterns : gmap string AccessPattern)
         (k : string) (p : AccessPattern),
    patterns !! k = Some p ->
    (0 <= frequency p)%Q ->
    let last := start + Z.of_nat n * updateInterval in
    fold_left step (sweeps (S n) start) patterns !! k
    = if (last - lastAccess p <=? 24 * 60 * 60 * 1000)
         && Qle_bool (1 # 100) (decayed (S n) (frequency p))
      then Some (mkPattern (count p) (lastAccess p)
                           (decayed (S n) (frequency p)) (created p))
      else None.
Proof.
  induction n as [|n IH]; intros start patterns k p Hk Hf last.
  - subst last. change (Z.of_nat 0) with 0.
    rewrite Z.mul_0_l, Z.add_0_r. cbn [sweeps fold_left step].
    unfold updatePatterns. rewrite lookup_omap, Hk. cbn [mbind option_bind].
    unfold decay, decayed.
    change (Nat.iter 1 (fun x : Q => (x * decayFactor)%Q) (frequency p))
      with (frequency p * decayFactor)%Q.
    destruct (Z.ltb_spec (24 * 60 * 60 * 1000) (start - lastAccess p));
      destruct (Z.leb_spec (start - lastAccess p) (24 * 60 * 60 * 1000));
      try lia; [reflexivity|].
    cbn [andb].
    destruct (Qle_bool (1 # 100) (frequency p * decayFactor)); reflexivity.
  - subst last. rewrite (sweeps_unfold (S n)).
    set (after := updatePatterns patterns start).
    assert (Hafter : after !! k = decay start p).
    { unfold after, updatePatterns. rewrite lookup_omap, Hk. reflexivity. }
    replace (start + Z.of_nat (S (S n)) * updateInterval)
      with (start + updateInterval + Z.of_nat (S n) * updateInterval) by lia.
    replace (start + Z.of_nat (S n) * updateInterval)
      with (start + updateInterval + Z.of_nat n * updateInterval) by lia.
    unfold decayed. rewrite (Nat.iter_succ_r (S n)). fold (decayed (S n)).
    unfold decay in Hafter.
    destruct (Z.ltb_spec (24 * 60 * 60 * 1000) (start - lastAccess p))
      as [Hold|Hyoung].
    + rewrite sweeps_keep_absent by exact Hafter.
      destruct (Z.leb_spec
                  (start + updateInterval + Z.of_nat n * updateInterval
                   - lastAccess p) (24 * 60 * 60 * 1000)) as [Hin|Hout];
        [|reflexivity].
      unfold updateInterval in Hin. lia.
    + destruct (Qle_bool (1 # 100) (frequency p * decayFactor)) eqn:Hkeep;
        cbn [negb] in Hafter.
      * assert (Hf' : (0 <= frequency p * decayFactor)%Q).
        { apply Qmult_le_0_compat; [exact Hf|discriminate]. }
        rewrite (IH (start + updateInterval) after k _ Hafter Hf').
        reflexivity.
      * rewrite sweeps_keep_absent by exact Hafter.
        assert (Hlow : Qle_bool (1 # 100)
                         (decayed (S n) (frequency p * decayFactor)) = false).
        { destruct (Qle_bool (1 # 100)
                      (decayed (S n) (frequency p * decayFactor))) eqn:Hb;
            [|reflexivity].
          apply Qle_bool_iff in Hb.
          assert (Hge : (1 # 100 <= frequency p * decayFactor)%Q).
          { eapply Qle_trans; [exact Hb|]. apply decayed_le.
            apply Qmult_le_0_compat; [exact Hf|discriminate]. }
          apply Qle_bool_iff in Hge. congruence. }
        match goal with
        | |- context [Qle_bool (1 # 100) ?x] =>
            change x with (decayed (S n) (frequency p * decayFactor))
        end.
        rewrite Hlow, andb_false_r. reflexivity.
Qed.

End AdaptiveFacts.

Lemma hotter_key_lives_no_shorter_witness :
  Cache.getAdaptiveTTL
    (Cache.run [Cache.Hit "searches" "a" 1000; Cache.Hit "searches" "b" 1000;
                Cache.Hit "searches" "b" 2000]) "searches" "a"
  <= Cache.getAdaptiveTTL
       (Cache.run [Cache.Hit "searches" "a" 1000; Cache.Hit "searches" "b" 1000;
                   Cache.Hit "searches" "b" 2000]) "searches" "b".
Proof.
  apply (hotter_key_lives_no_shorter _ "searches" "a" "b"
           (Cache.mkPattern 1 1000 1 None) (Cache.mkPattern 2 2000 2 None)).
  - apply run_well_formed.
  - vm_compute. reflexivity.
  - vm_compute. reflexivity.
  - vm_compute. discriminate.
Defined.

Lemma idle_pattern_decays_geometrically_witness :
  fold_left Cache.step (Cache.sweeps 2 60000) (Cache.run Scenario.hit_once)
    !! Cache.patternKey "searches" "q"
  = Some (Cache.mkPattern 1 1000 (Cache.decayed 2 1) None).
Proof.
  assert (Hk : Cache.run Scenario.hit_once !! Cache.patternKey "searches" "q"
               = Some (Cache.mkPattern 1 1000 1 None))
    by (vm_compute; reflexivity).
  assert (Hf : (0 <= Cache.frequency (Cache.mkPattern 1 1000 1 None))%Q)
    by (vm_compute; discriminate).
  pose proof (idle_pattern_decays_geometrically 1 60000 _ _ _ Hk Hf) as H.
  exact H.
Defined.

(** ** Connection pool: who gets which connection *)
Section PoolRuns.

Import Pool.

Lemma find_free_found (slots : list PoolSlot) (current : nat) :
  forall remaining i index,
    find_free slots current i remaining = Some index ->
    exists d conn,
      (i <= d < i + remaining)%nat
      /\ index = ((current + d) mod length slots)%nat
      /\ slots !! index = Some conn /\ inUse conn = false
      /\ forall j, (i <= j < d)%nat ->
           exists c, slots !! ((current + j) mod length slots)%nat = Some c
                     /\ inUse c = true.
Proof.
  induction remaining as [|remaining IH]; intros i index Hfind;
    [discriminate|].
  cbn [find_free] in Hfind.
  destruct (slots !! ((current + i) mod length slots)%nat) as [conn|] eqn:Hl;
    [|discriminate].
  destruct (inUse conn) eqn:Hin.
  - destruct (IH _ _ Hfind) as (d & conn' & Hd & Hidx & Hsl & Hfree & Hbusy).
    exists d, conn'. split; [lia|]. split; [exact Hidx|].
    split; [exact Hsl|]. split; [exact Hfree|].
    intros j Hj. destruct (decide (j = i)) as [->|Hne].
    + exists conn. split; assumption.
    + apply Hbusy. lia.
  - injection Hfind as <-. exists i, conn.
    split; [lia|]. split; [reflexivity|]. split; [exact Hl|].
    split; [exact Hin|]. intros j Hj. lia.
Qed.

Lemma find_free_none (slots : list PoolSlot) (current : nat) :
  (0 < length slots)%nat ->
  forall remaining i,
    find_free slots current i remaining = None ->
    forall j, (i <= j < i + remaining)%nat ->
      exists c, slots !! ((current + j) mod length slots)%nat = Some c
                /\ inUse c = true.
Proof.
  intros Hlen.
  induction remaining as [|remaining IH]; intros i Hfind j Hj; [lia|].
  cbn [find_free] in Hfind.
  destruct (slots !! ((current + i) mod length slots)%nat) as [conn|] eqn:Hl.
  - destruct (inUse conn) eqn:Hin; [|discriminate].
    destruct (decide (j = i)) as [->|Hne].
    + exists conn. split; assumption.
    + apply (IH _ Hfind). lia.
  - apply lookup_ge_None in Hl.
    pose proof (Nat.mod_upper_bound (current + i) (length slots)). lia.
Qed.

(** The [n] indices the loop visits are all the indices of the pool. *)
Lemma cursor_reaches (n current k : nat) :
  (current < n)%nat -> (k < n)%nat ->
  exists j, (j < n)%nat /\ ((current + j) mod n)%nat = k.
Proof.
  intros Hc Hk. destruct (le_lt_dec current k) as [Hle|Hlt].
  - exists (k - current)%nat. split; [lia|].
    replace (current + (k - current))%nat with k by lia.
    apply Nat.mod_small, Hk.
  - exists (k + n - current)%nat. split; [lia|].
    replace (current + (k + n - current))%nat with (k + 1 * n)%nat by lia.
    rewrite Nat.Div0.mod_add. apply Nat.mod_small, Hk.
Qed.

(** A pool that is not empty hands out a connection. *)
Lemma getConnection_succeeds (p : WeaviateConnectionPool)
    (now : Z) :
  (currentIndex p < length (pool p))%nat ->
  exists c r p', getConnection p now = Some (c, r, p').
Proof.
  intros Hcur. unfold getConnection.
  destruct (find_free (pool p) (currentIndex p) 0 (length (pool p)))
    as [index|] eqn:Hfind.
  - destruct (find_free_found _ _ _ _ _ Hfind) as (d & conn & _ & _ & Hsl & _).
    rewrite Hsl. eexists _, _, _. reflexivity.
  - destruct (lookup_lt_is_Some_2 (pool p) (currentIndex p) Hcur)
      as [conn Hconn].
    rewrite Hconn. eexists _, _, _. reflexivity.
Qed.

(** X19.  A pool that is not empty always hands out a connection, and a
    busy one only when every connection is busy: either the connection is
    the first free one from the cursor on, to be released by its holder, or
    the pool is saturated and the connection at the cursor is shared. *)
Theorem busy_connection_only_when_saturated :
  forall (p : WeaviateConnectionPool) (now : Z),
    (currentIndex p < length (pool p))%nat ->
    exists c r p',
      getConnection p now = Some (c, r, p')
      /\ match r with
         | ReleaseSlot index =>
             exists d conn,
               (d < length (pool p))%nat
               /\ index = ((currentIndex p + d) mod length (pool p))%nat
               /\ pool p !! index = Some conn
               /\ inUse conn = false /\ client conn = c
               /\ forall j, (j < d)%nat ->
                    exists busy,
                      pool p !! ((currentIndex p + j) mod length (pool p))%nat
                      = Some busy
                      /\ inUse busy = true
         | ReleaseNothing =>
             saturated p
             /\ exists conn,
                  pool p !! currentIndex p = Some conn /\ client conn = c
         end.
Proof.
  intros p now Hcur. unfold getConnection.
  destruct (find_free (pool p) (currentIndex p) 0 (length (pool p)))
    as [index|] eqn:Hfind.
  - destruct (find_free_found _ _ _ _ _ Hfind)
      as (d & conn & Hd & Hidx & Hsl & Hfree & Hbusy).
    rewrite Hsl. eexists _, _, _. split; [reflexivity|].
    exists d, conn. split; [lia|]. split; [exact Hidx|].
    split; [exact Hsl|]. split; [exact Hfree|]. split; [reflexivity|].
    intros j Hj. apply Hbusy. lia.
  - destruct (lookup_lt_is_Some_2 (pool p) (currentIndex p) Hcur)
      as [conn Hconn].
    rewrite Hconn. eexists _, _, _. split; [reflexivity|].
    split; [|exists conn; split; reflexivity].
    unfold saturated. apply Forall_lookup. intros k c Hk.
    pose proof (lookup_lt_Some _ _ _ Hk) as Hlt.
    destruct (cursor_reaches _ _ _ Hcur Hlt) as (j & Hj & Hjk).
    destruct (find_free_none (pool p) (currentIndex p) ltac:(lia) _ _ Hfind j
                ltac:(lia)) as (c' & Hc' & Huse).
    rewrite Hjk, Hk in Hc'. injection Hc' as <-. exact Huse.
Qed.

Lemma fold_requestCount_shift (slots : list PoolSlot) :
  forall a : Z,
    fold_left (fun sum c => sum + requestCount c) slots a
    = a + requestCounts slots.
Proof.
  unfold requestCounts.
  induction slots as [|c slots IH]; intros a; cbn [fold_left]; [lia|].
  rewrite (IH (a + requestCount c)), (IH (0 + requestCount c)). lia.
Qed.

Lemma requestCounts_cons (c : PoolSlot) (slots : list PoolSlot) :
  requestCounts (c :: slots) = requestCount c + requestCounts slots.
Proof.
  unfold requestCounts at 1. simpl. apply fold_requestCount_shift.
Qed.

Lemma requestCounts_insert (slots : list PoolSlot) :
  forall (i : nat) (old new_slot : PoolSlot),
    slots !! i = Some old ->
    requestCounts (<[i := new_slot]> slots)
    = requestCounts slots - requestCount old + requestCount new_slot.
Proof.
  induction slots as [|c slots IH]; intros i old new_slot Hl; [discriminate|].
  destruct i as [|i]; simpl in *.
  - injection Hl as ->. rewrite !requestCounts_cons. lia.
  - rewrite !requestCounts_cons, (IH _ _ _ Hl). lia.
Qed.

Lemma clients_insert (slots : list PoolSlot) (i : nat)
    (old new_slot : PoolSlot) :
  slots !! i = Some old -> client new_slot = client old ->
  map client (<[i := new_slot]> slots) = map client slots.
Proof.
  revert i. induction slots as [|c slots IH]; intros i Hl Hc; [reflexivity|].
  destruct i as [|i]; simpl in *.
  - injection Hl as ->. rewrite Hc. reflexivity.
  - rewrite (IH _ Hl Hc). reflexivity.
Qed.

(** What one [getConnection()] changes. *)
Lemma getConnection_accounts (p p' : WeaviateConnectionPool) (now : Z)
    (c : nat) (r : Release) :
  getConnection p now = Some (c, r, p') ->
  map client (pool p') = map client (pool p)
  /\ length (pool p') = length (pool p)
  /\ (currentIndex p' < length (pool p'))%nat
  /\ totalRequests p' = totalRequests p + 1
  /\ requestCounts (pool p') = requestCounts (pool p) + 1
  /\ connectionsCreated p' = connectionsCreated p
  /\ poolSize p' = poolSize p.
Proof.
  unfold getConnection.
  destruct (find_free (pool p) (currentIndex p) 0 (length (pool p)))
    as [index|].
  - destruct (pool p !! index) as [conn|] eqn:Hl; [|discriminate].
    intros Heq. injection Heq as <- <- <-. cbn [pool currentIndex
      totalRequests connectionsCreated poolSize].
    pose proof (lookup_lt_Some _ _ _ Hl) as Hlt.
    rewrite length_insert.
    split; [apply (clients_insert _ _ conn); [exact Hl|reflexivity]|].
    split; [reflexivity|].
    split; [apply Nat.mod_upper_bound; lia|].
    split; [reflexivity|].
    split; [|split; reflexivity].
    rewrite (requestCounts_insert _ _ conn) by exact Hl. simpl. lia.
  - destruct (pool p !! currentIndex p) as [conn|] eqn:Hl; [|discriminate].
    intros Heq. injection Heq as <- <- <-. cbn [pool currentIndex
      totalRequests connectionsCreated poolSize].
    pose proof (lookup_lt_Some _ _ _ Hl) as Hlt.
    rewrite length_insert.
    split; [apply (clients_insert _ _ conn); [exact Hl|reflexivity]|].
    split; [reflexivity|].
    split; [apply Nat.mod_upper_bound; lia|].
    split; [reflexivity|].
    split; [|split; reflexivity].
    rewrite (requestCounts_insert _ _ conn) by exact Hl. simpl. lia.
Qed.

Lemma release_accounts (p : WeaviateConnectionPool) (r : Release) :
  map client (pool (release p r)) = map client (pool p)
  /\ length (pool (release p r)) = length (pool p)
  /\ currentIndex (release p r) = currentIndex p
  /\ totalRequests (release p r) = totalRequests p
  /\ requestCounts (pool (release p r)) = requestCounts (pool p)
  /\ connectionsCreated (release p r) = connectionsCreated p
  /\ poolSize (release p r) = poolSize p.
Proof.
  destruct r as [index|]; cbn [release]; [|repeat split; reflexivity].
  unfold releaseConnection.
  destruct (pool p !! index) as [conn|] eqn:Hl; [|repeat split; reflexivity].
  cbn [pool currentIndex totalRequests connectionsCreated poolSize].
  rewrite length_insert.
  split; [apply (clients_insert _ _ conn); [exact Hl|reflexivity]|].
  split; [reflexivity|]. split; [reflexivity|]. split; [reflexivity|].
  split; [|split; reflexivity].
  rewrite (requestCounts_insert _ _ conn) by exact Hl. simpl. lia.
Qed.

(** X20.  Whatever callers do with a pool that is not empty (take
    connections, release them late, twice, or never), no call to
    [getConnection()] throws, the clients stay in their slots, the cursor
    stays inside the pool, and the requests counted on the slots add up to
    the total, which is the number of calls to [getConnection()]. *)
Theorem pool_requests_add_up :
  forall (p : WeaviateConnectionPool) (events : list Event),
    (currentIndex p < length (pool p))%nat ->
    let p' := run p events in
    map client (pool p') = map client (pool p)
    /\ (currentIndex p' < length (pool p'))%nat
    /\ totalRequests p' = totalRequests p + acquisitions events
    /\ requestCounts (pool p') = requestCounts (pool p) + acquisitions events
    /\ forall now, exists c r p'', getConnection p' now = Some (c, r, p'').
Proof.
  intros p events. revert p. unfold run.
  induction events as [|e events IH]; intros p Hcur; cbn [fold_left].
  - unfold acquisitions. cbn [List.filter length].
    split; [reflexivity|]. split; [exact Hcur|]. split; [simpl; lia|].
    split; [simpl; lia|].
    intros now.
    destruct (getConnection_succeeds p now Hcur)
      as (c & r & p'' & Hget).
    exists c, r, p''. exact Hget.
  - destruct e as [now|r]; cbn [step].
    + destruct (getConnection_succeeds p now Hcur)
        as (c & r & p1 & Hget).
      rewrite Hget.
      destruct (getConnection_accounts _ _ _ _ _ Hget)
        as (Hcl & Hlen & Hcur1 & Htot & Hreq & _).
      destruct (IH p1 Hcur1) as (Hcl' & Hcur' & Htot' & Hreq' & Hnext).
      split; [congruence|]. split; [exact Hcur'|].
      assert (Hacq : acquisitions (Acquire now :: events)
                     = 1 + acquisitions events).
      { unfold acquisitions. cbn [List.filter length]. lia. }
      rewrite Hacq. split; [lia|]. split; [lia|]. exact Hnext.
    + destruct (release_accounts p r)
        as (Hcl & Hlen & Hcur1 & Htot & Hreq & _).
      assert (Hcur2 : (currentIndex (release p r)
                       < length (pool (release p r)))%nat) by lia.
      destruct (IH _ Hcur2) as (Hcl' & Hcur' & Htot' & Hreq' & Hnext).
      split; [congruence|]. split; [exact Hcur'|].
      assert (Hacq : acquisitions (Return r :: events)
                     = acquisitions events) by reflexivity.
      rewrite Hacq. split; [lia|]. split; [lia|]. exact Hnext.
Qed.

End PoolRuns.

Section PoolRotation.

Import Pool.

Lemma initializePool_length (n created : nat) (now : Z) :
  length (initializePool n created now) = n.
Proof.
  revert created. induction n as [|n IH]; intros created; simpl;
    [reflexivity|]. rewrite IH. reflexivity.
Qed.

Lemma initializePool_lookup (n : nat) (now : Z) :
  forall (created j : nat),
    (j < n)%nat ->
    initializePool n created now !! j
    = Some (mkSlot (created + j) false now 0).
Proof.
  induction n as [|n IH]; intros created j Hj; [lia|].
  destruct j as [|j]; simpl.
  - rewrite Nat.add_0_r. reflexivity.
  - rewrite IH by lia. do 2 f_equal. lia.
Qed.

Lemma taken_next (n m : nat) (p : WeaviateConnectionPool) (now : Z) :
  (0 < n)%nat -> taken n m p ->
  exists r p',
    getConnection p now = Some ((m mod n)%nat, r, p') /\ taken n (S m) p'.
Proof.
  intros Hn (Hlen & Hcur & Hslots).
  assert (Hlt : (m mod n < n)%nat) by (apply Nat.mod_upper_bound; lia).
  destruct (Hslots _ Hlt) as (conn & Hconn & Hclient & Huse).
  unfold getConnection. rewrite Hlen, Hcur.
  destruct (le_lt_dec n m) as [Hfull|Hroom].
  - assert (Hsat : Forall (fun c => inUse c = true) (pool p)).
    { apply Forall_lookup. intros k c Hk.
      pose proof (lookup_lt_Some _ _ _ Hk) as Hklt. rewrite Hlen in Hklt.
      destruct (Hslots _ Hklt) as (c' & Hc' & _ & Hu).
      rewrite Hk in Hc'. injection Hc' as <-. rewrite Hu.
      apply Nat.ltb_lt. lia. }
    rewrite (find_free_saturated _ _ Hsat), Hconn, Hclient.
    eexists _, _. split; [reflexivity|].
    split; [cbn [pool]; rewrite length_insert; exact Hlen|].
    split; [cbn [currentIndex]; rewrite Nat.Div0.add_mod_idemp_l;
            f_equal; lia|].
    intros j Hj. cbn [pool].
    destruct (Hslots _ Hj) as (cj & Hcj & Hclj & Huj).
    destruct (decide (j = m mod n)%nat) as [->|Hne].
    + rewrite list_lookup_insert_eq by lia.
      eexists. split; [reflexivity|]. cbn [client inUse].
      split; [reflexivity|]. rewrite Huse.
      transitivity true; [apply Nat.ltb_lt; lia|symmetry; apply Nat.ltb_lt; lia].
    + rewrite list_lookup_insert_ne by congruence.
      exists cj. split; [exact Hcj|]. split; [exact Hclj|]. rewrite Huj.
      transitivity true; [apply Nat.ltb_lt; lia|symmetry; apply Nat.ltb_lt; lia].
  - rewrite (Nat.mod_small m n) in * by exact Hroom.
    assert (Hfree : inUse conn = false).
    { rewrite Huse. apply Nat.ltb_ge. lia. }
    destruct n as [|n']; [lia|]. cbn [find_free].
    rewrite Hlen, Nat.add_0_r, (Nat.mod_small m (S n')) by exact Hroom.
    rewrite Hconn, Hfree, Hconn, Hclient.
    eexists _, _. split; [reflexivity|].
    split; [cbn [pool]; rewrite length_insert; exact Hlen|].
    split; [cbn [currentIndex]; f_equal; lia|].
    intros j Hj. cbn [pool].
    destruct (Hslots _ Hj) as (cj & Hcj & Hclj & Huj).
    destruct (decide (j = m)) as [->|Hne].
    + rewrite list_lookup_insert_eq by lia.
      eexists. split; [reflexivity|]. cbn [client inUse].
      split; [reflexivity|]. symmetry. apply Nat.ltb_lt. lia.
    + rewrite list_lookup_insert_ne by congruence.
      exists cj. split; [exact Hcj|]. split; [exact Hclj|]. rewrite Huj.
      destruct (Nat.ltb_spec j m); destruct (Nat.ltb_spec j (S m));
        try reflexivity; lia.
Qed.

Lemma handed_out_taken (n : nat) (times : list Z) :
  (0 < n)%nat ->
  forall (m : nat) (p : WeaviateConnectionPool),
    taken n m p ->
    handed_out p times
    = map (fun i => (i mod n)%nat) (seq m (length times)).
Proof.
  intros Hn. induction times as [|now times IH]; intros m p Htaken;
    [reflexivity|].
  cbn [handed_out length seq map].
  destruct (taken_next n m p now Hn Htaken) as (r & p' & Hget & Hnext).
  rewrite Hget. f_equal. apply IH, Hnext.
Qed.

(** X21.  Callers that never release still get connections: a fresh pool
    of [n] hands out its clients in the order 0, 1, ..., n-1, 0, 1, ...,
    the first [n] exclusively and every later one shared. *)
Theorem round_robin_without_release :
  forall (n : nat) (t0 : Z) (times : list Z),
    (0 < n)%nat ->
    handed_out (new (Some (Z.of_nat n)) t0) times
    = map (fun i => (i mod n)%nat) (seq 0 (length times)).
Proof.
  intros n t0 times Hn. apply handed_out_taken; [exact Hn|].
  unfold new, or_default.
  destruct (Z.eqb_spec (Z.of_nat n) 0) as [Hz|_]; [lia|].
  rewrite Nat2Z.id. cbn [pool currentIndex].
  split; [apply initializePool_length|].
  split; [symmetry; apply Nat.Div0.mod_0_l|].
  intros j Hj. cbn [pool]. rewrite initializePool_lookup by exact Hj.
  eexists. split; [reflexivity|]. split; [reflexivity|].
  symmetry. apply Nat.ltb_ge. lia.
Qed.

(** X22.  [execute] gives the connection back whether the operation
    succeeds or fails: run on a pool that is not empty, with nothing else
    touching the pool meanwhile, it leaves every slot as busy or as free as
    it found it, counts one request, counts an error exactly when the
    operation fails, and returns what the operation settled with. *)
Theorem execute_gives_connection_back :
  forall (V : Type) (p : WeaviateConnectionPool) (errors : Z)
         (operation : nat -> Outcome V) (now : Z),
    (currentIndex p < length (pool p))%nat ->
    exists c p' errors',
      execute p errors operation now = Some (operation c, p', errors')
      /\ map inUse (pool p') = map inUse (pool p)
      /\ map client (pool p') = map client (pool p)
      /\ totalRequests p' = totalRequests p + 1
      /\ errors' = match operation c with
                   | Resolved _ => errors
                   | Rejected _ => errors + 1
                   end.
Proof.
  intros V p errors operation now Hcur. unfold execute, getConnection.
  destruct (find_free (pool p) (currentIndex p) 0 (length (pool p)))
    as [index|] eqn:Hfind.
  - destruct (find_free_found _ _ _ _ _ Hfind)
      as (d & conn & _ & _ & Hsl & Hfree & _).
    rewrite Hsl. pose proof (lookup_lt_Some _ _ _ Hsl) as Hlt.
    exists (client conn).
    assert (Hback :
      map inUse
        (pool (release
                 (mkPool (poolSize p)
                    (<[index := mkSlot (client conn) true now
                                       (requestCount conn + 1)]> (pool p))
                    ((index + 1) mod length (pool p))%nat
                    (connectionsCreated p) (totalRequests p + 1))
                 (ReleaseSlot index)))
      = map inUse (pool p)
      /\ map client
           (pool (release
                    (mkPool (poolSize p)
                       (<[index := mkSlot (client conn) true now
                                          (requestCount conn + 1)]> (pool p))
                       ((index + 1) mod length (pool p))%nat
                       (connectionsCreated p) (totalRequests p + 1))
                    (ReleaseSlot index)))
         = map client (pool p)
      /\ totalRequests
           (release
              (mkPool (poolSize p)
                 (<[index := mkSlot (client conn) true now
                                    (requestCount conn + 1)]> (pool p))
                 ((index + 1) mod length (pool p))%nat
                 (connectionsCreated p) (totalRequests p + 1))
              (ReleaseSlot index))
         = totalRequests p + 1).
    { cbn [release]. unfold releaseConnection. cbn [pool].
      rewrite list_lookup_insert_eq by exact Hlt.
      cbn [pool totalRequests connectionsCreated poolSize currentIndex
           client lastUsed requestCount].
      rewrite list_insert_insert_eq.
      split; [|split; [|reflexivity]].
      - apply list_eq. intros k. rewrite !list_lookup_fmap.
        destruct (decide (k = index)) as [->|Hne].
        + rewrite list_lookup_insert_eq by exact Hlt. rewrite Hsl.
          simpl. rewrite Hfree. reflexivity.
        + rewrite list_lookup_insert_ne by congruence. reflexivity.
      - apply (clients_insert _ _ conn); [exact Hsl|reflexivity]. }
    destruct Hback as (Hflags & Hclients & Htotal).
    destruct (operation (client conn)) as [result|error];
      eexists _, _; (split; [reflexivity|]);
      (split; [exact Hflags|]); (split; [exact Hclients|]);
      (split; [exact Htotal|reflexivity]).
  - destruct (lookup_lt_is_Some_2 (pool p) (currentIndex p) Hcur)
      as [conn Hconn].
    rewrite Hconn. exists (client conn).
    assert (Hflags :
      map inUse (<[currentIndex p :=
                     mkSlot (client conn) (inUse conn) (lastUsed conn)
                            (requestCount conn + 1)]> (pool p))
      = map inUse (pool p)).
    { apply list_eq. intros k. rewrite !list_lookup_fmap.
      destruct (decide (k = currentIndex p)) as [->|Hne].
      - rewrite list_lookup_insert_eq by exact Hcur. rewrite Hconn.
        reflexivity.
      - rewrite list_lookup_insert_ne by congruence. reflexivity. }
    assert (Hclients :
      map client (<[currentIndex p :=
                      mkSlot (client conn) (inUse conn) (lastUsed conn)
                             (requestCount conn + 1)]> (pool p))
      = map client (pool p)).
    { apply (clients_insert _ _ conn); [exact Hconn|reflexivity]. }
    destruct (operation (client conn)) as [result|error];
      eexists _, _; (split; [reflexivity|]); cbn [release pool totalRequests];
      (split; [exact Hflags|]); (split; [exact Hclients|]);
      split; reflexivity.
Qed.

End PoolRotation.

Lemma busy_connection_only_when_saturated_witness :
  exists c r p',
    Pool.getConnection Scenario.both_taken 5 = Some (c, r, p')
    /\ r = Pool.ReleaseNothing.
Proof.
  assert (Hcur : (Pool.currentIndex Scenario.both_taken
                  < length (Pool.pool Scenario.both_taken))%nat)
    by (vm_compute; lia).
  destruct (busy_connection_only_when_saturated Scenario.both_taken 5 Hcur)
    as (c & r & p' & Hget & _).
  exists c, r, p'. split; [exact Hget|].
  vm_compute in Hget. injection Hget as _ <- _. reflexivity.
Defined.

Lemma pool_requests_add_up_witness :
  Pool.totalRequests
    (Pool.run (Pool.new (Some 2) 0)
       [Pool.Acquire 1; Pool.Acquire 2; Pool.Return (Pool.ReleaseSlot 0);
        Pool.Return (Pool.ReleaseSlot 0); Pool.Acquire 3])
  = 0 + 3.
Proof.
  assert (Hcur : Nat.lt (Pool.currentIndex (Pool.new (Some 2) 0))
                        (length (Pool.pool (Pool.new (Some 2) 0))))
    by (vm_compute; lia).
  exact (proj1 (proj2 (proj2
           (pool_requests_add_up (Pool.new (Some 2) 0)
              [Pool.Acquire 1; Pool.Acquire 2;
               Pool.Return (Pool.ReleaseSlot 0);
               Pool.Return (Pool.ReleaseSlot 0); Pool.Acquire 3] Hcur)))).
Defined.

Lemma round_robin_without_release_witness :
  Pool.handed_out (Pool.new (Some 3) 0) [1; 2; 3; 4; 5]
  = [0%nat; 1%nat; 2%nat; 0%nat; 1%nat].
Proof.
  assert (Hn : (0 < 3)%nat) by lia.
  exact (round_robin_without_release 3 0 [1; 2; 3; 4; 5] Hn).
Defined.

Lemma execute_gives_connection_back_witness :
  exists p' errors',
    Pool.execute (Pool.new (Some 2) 0) 0
      (fun _ : nat => @Rejected unit (OperationError (Some 500) 1)) 7
    = Some (Rejected (OperationError (Some 500) 1), p', errors')
    /\ map Pool.inUse (Pool.pool p') = [false; false]
    /\ errors' = 1.
Proof.
  assert (Hcur : Nat.lt (Pool.currentIndex (Pool.new (Some 2) 0))
                        (length (Pool.pool (Pool.new (Some 2) 0))))
    by (vm_compute; lia).
  destruct (execute_gives_connection_back unit (Pool.new (Some 2) 0) 0
              (fun _ : nat => @Rejected unit (OperationError (Some 500) 1)) 7
              Hcur)
    as (c & p' & errors' & Hexec & Hflags & _ & _ & Herrors).
  exists p', errors'. split; [exact Hexec|]. split; [exact Hflags|].
  exact Herrors.
Defined.

(** ** Time series: what is stored and how it is aggregated *)
Section SeriesFacts.

Import Metrics.

Variable localeCompare : string -> string -> comparison.

(** X23.  [addMetric] stores a sample exactly when its timestamp is less
    than 24 hours behind the clock: the series then holds its older samples
    that are still inside the horizon, followed by the new one as the latest;
    a sample that is too old is dropped on arrival, and the series is pruned
    all the same.  A sample without a timestamp is always stored. *)
Theorem addMetric_stores_fresh_samples_only :
  forall (ts : gmap string (list MetricPoint)) (name : string) (v : Q)
         (stamp : option Z) (tags : list (string * string)) (now : Z),
    let key := getMetricKey localeCompare name tags in
    let point := mkPoint v (default now stamp) tags in
    let kept :=
      List.filter (fun old => negb (expired now old)) (default [] (ts !! key)) in
    addMetric localeCompare ts name v stamp tags now !! key
    = Some (if expired now point then kept else kept ++ [point])
    /\ (stamp = None -> expired now point = false).
Proof.
  intros ts name v stamp tags now key point kept. split.
  - unfold addMetric. fold key. fold point.
    destruct (cleanupOldData_drops_expired
                (<[key := default [] (ts !! key) ++ [point]]> ts) key now
                (default [] (ts !! key) ++ [point])) as [Hkey _];
      [apply lookup_insert_eq|].
    rewrite Hkey, List.filter_app. cbn [List.filter]. fold kept.
    destruct (expired now point); cbn [negb]; [rewrite app_nil_r|];
      reflexivity.
  - intros ->. unfold expired, point, interval_24h. cbn [timestamp default].
    apply Z.leb_gt. lia.
Qed.

Lemma intervalMs_positive (interval : string) : 0 < intervalMs interval.
Proof.
  unfold intervalMs.
  repeat (destruct (String.eqb interval _); [reflexivity|]). reflexivity.
Qed.

(** A bucket time is the start of the aligned window the sample lies in. *)
Lemma bucketTime_window (ms t : Z) (point : MetricPoint) :
  0 < ms -> t mod ms = 0 ->
  (bucketTime ms point =? t) = in_window ms t point.
Proof.
  intros Hms Ht. unfold bucketTime, in_window.
  apply Z.mod_divide in Ht; [|lia]. destruct Ht as [q ->].
  pose proof (Z.div_mod (timestamp point) ms ltac:(lia)) as Hdm.
  pose proof (Z.mod_pos_bound (timestamp point) ms Hms) as Hb.
  destruct (Z.eqb_spec (timestamp point / ms * ms) (q * ms)) as [Heq|Hne].
  - symmetry. apply andb_true_iff. split; [apply Z.leb_le|apply Z.ltb_lt]; lia.
  - symmetry. apply andb_false_iff.
    destruct (Z.leb_spec (q * ms) (timestamp point)) as [Hle|Hgt];
      [|left; reflexivity].
    right. apply Z.ltb_ge.
    assert (Hq : q <> timestamp point / ms) by (intros ->; lia).
    assert (Hlt : q < timestamp point / ms).
    { assert (q <= timestamp point / ms); [|lia].
      apply Z.div_le_lower_bound; lia. }
    nia.
Qed.

Lemma bucketTime_aligned (ms : Z) (point : MetricPoint) :
  0 < ms -> bucketTime ms point mod ms = 0.
Proof. intros Hms. unfold bucketTime. apply Z.mod_mul. lia. Qed.

Lemma values_at_snoc (ms t : Z) (seen : list MetricPoint) (p : MetricPoint) :
  values_at ms t (seen ++ [p])
  = values_at ms t seen ++ (if bucketTime ms p =? t then [value p] else []).
Proof.
  unfold values_at. rewrite List.filter_app, map_app. cbn [List.filter].
  destruct (bucketTime ms p =? t); reflexivity.
Qed.

Lemma bucket_push_known (ms : Z) (p : MetricPoint) (seen : list MetricPoint)
    (keys : list Z) :
  NoDup keys ->
  In (bucketTime ms p) keys ->
  bucket_push (bucketTime ms p) (value p)
    (map (fun k => (k, values_at ms k seen)) keys)
  = map (fun k => (k, values_at ms k (seen ++ [p]))) keys.
Proof.
  induction keys as [|k keys IH]; intros Hnd Hin; [contradiction|].
  apply NoDup_cons in Hnd as [Hk Hnd]. cbn [map bucket_push].
  rewrite values_at_snoc.
  destruct (Z.eqb_spec k (bucketTime ms p)) as [Heq|Hne].
  - rewrite Z.eqb_sym, (proj2 (Z.eqb_eq _ _) Heq).
    f_equal. apply map_ext_in. intros k' Hk'. rewrite values_at_snoc.
    destruct (Z.eqb_spec (bucketTime ms p) k') as [Heq'|_];
      [|rewrite app_nil_r; reflexivity].
    exfalso. apply Hk. apply list_elem_of_In. congruence.
  - assert (Hne' : (bucketTime ms p =? k) = false)
      by (apply Z.eqb_neq; congruence).
    rewrite Hne', app_nil_r. f_equal. apply IH; [exact Hnd|].
    destruct Hin as [Heq|Hin]; [congruence|exact Hin].
Qed.

Lemma bucket_push_new (ms : Z) (p : MetricPoint) (seen : list MetricPoint)
    (keys : list Z) :
  ~ In (bucketTime ms p) keys ->
  values_at ms (bucketTime ms p) seen = [] ->
  bucket_push (bucketTime ms p) (value p)
    (map (fun k => (k, values_at ms k seen)) keys)
  = map (fun k => (k, values_at ms k (seen ++ [p])))
        (keys ++ [bucketTime ms p]).
Proof.
  intros Hnew Hnone. induction keys as [|k keys IH]; cbn [map bucket_push app].
  - rewrite values_at_snoc, Hnone, Z.eqb_refl. reflexivity.
  - rewrite values_at_snoc.
    destruct (Z.eqb_spec k (bucketTime ms p)) as [Heq|Hne].
    + exfalso. apply Hnew. left. exact Heq.
    + assert (Hne' : (bucketTime ms p =? k) = false)
        by (apply Z.eqb_neq; congruence).
      rewrite Hne', app_nil_r. f_equal. apply IH. intros Hin. apply Hnew.
      right. exact Hin.
Qed.

Lemma values_at_nil (ms t : Z) (seen : list MetricPoint) :
  (forall p, In p seen -> bucketTime ms p <> t) -> values_at ms t seen = [].
Proof.
  unfold values_at.
  induction seen as [|s seen IH]; intros Hno; cbn [List.filter map];
    [reflexivity|].
  destruct (Z.eqb_spec (bucketTime ms s) t) as [Heq|_].
  - exfalso. apply (Hno s); [left; reflexivity|exact Heq].
  - apply IH. intros p Hp. apply Hno. right. exact Hp.
Qed.

(** The map [aggregateTimeSeries] builds, after the samples [seen]. *)
Lemma buckets_after (ms : Z) (data : list MetricPoint) :
  forall (seen : list MetricPoint) (keys : list Z),
    NoDup keys ->
    (forall t, In t keys <-> exists p, In p seen /\ bucketTime ms p = t) ->
    exists keys',
      NoDup keys'
      /\ (forall t,
             In t keys' <-> exists p, In p (seen ++ data) /\ bucketTime ms p = t)
      /\ fold_left (fun buckets point =>
                      bucket_push (bucketTime ms point) (value point) buckets)
           data (map (fun k => (k, values_at ms k seen)) keys)
         = map (fun k => (k, values_at ms k (seen ++ data))) keys'.
Proof.
  induction data as [|point data IH]; intros seen keys Hnd Hkeys.
  - exists keys. rewrite app_nil_r. auto.
  - cbn [fold_left].
    assert (Hstep : exists keys1,
               NoDup keys1
               /\ (forall t, In t keys1 <->
                     exists p, In p (seen ++ [point]) /\ bucketTime ms p = t)
               /\ bucket_push (bucketTime ms point) (value point)
                    (map (fun k => (k, values_at ms k seen)) keys)
                  = map (fun k => (k, values_at ms k (seen ++ [point]))) keys1).
    { destruct (in_dec Z.eq_dec (bucketTime ms point) keys) as [Hin|Hnew].
      - exists keys. split; [exact Hnd|]. split.
        + intros t. rewrite Hkeys. split.
          * intros (p & Hp & Ht). exists p. split; [|exact Ht].
            apply in_or_app. left. exact Hp.
          * intros (p & Hp & Ht). apply in_app_or in Hp as [Hp|[<-|[]]].
            -- exists p. auto.
            -- apply Hkeys. rewrite <- Ht. exact Hin.
        + apply bucket_push_known; [exact Hnd|exact Hin].
      - exists (keys ++ [bucketTime ms point]). split.
        + apply NoDup_app. split; [exact Hnd|]. split.
          * intros x Hx Hk. apply list_elem_of_In in Hx, Hk.
            destruct Hk as [<-|[]]. apply Hnew, Hx.
          * apply NoDup_singleton.
        + split.
          * intros t. rewrite in_app_iff, Hkeys. split.
            -- intros [(p & Hp & Ht)|[<-|[]]].
               ++ exists p. split; [apply in_or_app; left; exact Hp|exact Ht].
               ++ exists point. split; [apply in_or_app; right; left|];
                    reflexivity.
            -- intros (p & Hp & Ht). apply in_app_or in Hp as [Hp|[<-|[]]].
               ++ left. exists p. auto.
               ++ right. left. exact Ht.
          * apply bucket_push_new; [exact Hnew|].
            apply values_at_nil. intros p Hp Ht. apply Hnew.
            apply Hkeys. exists p. auto. }
    destruct Hstep as (keys1 & Hnd1 & Hkeys1 & ->).
    destruct (IH (seen ++ [point]) keys1 Hnd1 Hkeys1)
      as (keys' & Hnd' & Hkeys' & Hfold).
    exists keys'. rewrite <- app_assoc in Hkeys', Hfold.
    cbn [app] in Hkeys', Hfold. auto.
Qed.

Lemma insert_aggregate_In (a b : Aggregate) (sorted : list Aggregate) :
  In b (insert_aggregate a sorted) <-> b = a \/ In b sorted.
Proof.
  induction sorted as [|c sorted IH]; cbn [insert_aggregate].
  - split; [intros [<-|[]]; left; reflexivity|intros [->|[]]; left; reflexivity].
  - destruct (agg_timestamp a <? agg_timestamp c).
    + split; [intros [<-|H]; [left; reflexivity|right; exact H]
             |intros [->|H]; [left; reflexivity|right; exact H]].
    + cbn [In]. rewrite IH. tauto.
Qed.

Lemma insert_aggregate_perm (a : Aggregate) (sorted : list Aggregate) :
  Permutation (insert_aggregate a sorted) (a :: sorted).
Proof.
  induction sorted as [|c sorted IH]; cbn [insert_aggregate]; [reflexivity|].
  destruct (agg_timestamp a <? agg_timestamp c); [reflexivity|].
  etransitivity; [apply perm_skip, IH|apply perm_swap].
Qed.

Lemma insert_aggregate_count (a : Aggregate) (sorted : list Aggregate) :
  list_sum (map agg_count (insert_aggregate a sorted))
  = (agg_count a + list_sum (map agg_count sorted))%nat.
Proof.
  induction sorted as [|c sorted IH]; cbn [insert_aggregate].
  - reflexivity.
  - destruct (agg_timestamp a <? agg_timestamp c); [reflexivity|].
    change (list_sum (map agg_count (c :: insert_aggregate a sorted)))
      with (agg_count c
            + list_sum (map agg_count (insert_aggregate a sorted)))%nat.
    rewrite IH.
    change (list_sum (map agg_count (c :: sorted)))
      with (agg_count c + list_sum (map agg_count sorted))%nat.
    lia.
Qed.

(** Inserting into a strictly increasing list a timestamp it does not hold
    keeps it strictly increasing. *)
Lemma insert_aggregate_sorted (a : Aggregate) (sorted : list Aggregate) :
  StronglySorted Z.lt (map agg_timestamp sorted) ->
  ~ In (agg_timestamp a) (map agg_timestamp sorted) ->
  StronglySorted Z.lt (map agg_timestamp (insert_aggregate a sorted)).
Proof.
  induction sorted as [|c sorted IH]; intros Hs Hnew; cbn [insert_aggregate].
  - repeat constructor.
  - cbn [map] in Hs, Hnew. apply StronglySorted_inv in Hs as [Hs Hall].
    destruct (Z.ltb_spec (agg_timestamp a) (agg_timestamp c)) as [Hlt|Hge].
    + cbn [map]. constructor.
      * constructor; assumption.
      * constructor; [exact Hlt|].
        eapply List.Forall_impl; [|exact Hall]. intros x Hx. cbn beta in Hx. lia.
    + cbn [map]. constructor.
      * apply IH; [exact Hs|]. intros Hin. apply Hnew. right. exact Hin.
      * apply List.Forall_forall. intros x Hx.
        apply in_map_iff in Hx as (b & <- & Hb).
        apply insert_aggregate_In in Hb as [->|Hb].
        -- assert (agg_timestamp a <> agg_timestamp c).
           { intros Heq. apply Hnew. left. symmetry. exact Heq. }
           lia.
        -- apply (proj1 (List.Forall_forall _ _) Hall).
           apply in_map. exact Hb.
Qed.

Lemma sort_aggregates_spec (aggregated : list Aggregate) :
  forall sorted : list Aggregate,
    StronglySorted Z.lt (map agg_timestamp sorted) ->
    NoDup (map agg_timestamp (sorted ++ aggregated)) ->
    let result :=
      fold_left (fun sorted a => insert_aggregate a sorted) aggregated sorted in
    StronglySorted Z.lt (map agg_timestamp result)
    /\ (forall b, In b result <-> In b sorted \/ In b aggregated)
    /\ list_sum (map agg_count result)
       = (list_sum (map agg_count sorted)
          + list_sum (map agg_count aggregated))%nat.
Proof.
  induction aggregated as [|a aggregated IH]; intros sorted Hs Hnd;
    cbn [fold_left].
  - split; [exact Hs|]. split; [intros b; cbn [In]; tauto|].
    change (list_sum (map agg_count [])) with 0%nat. lia.
  - assert (Hnew : ~ In (agg_timestamp a) (map agg_timestamp sorted)).
    { rewrite map_app in Hnd. cbn [map] in Hnd.
      apply NoDup_app in Hnd as (_ & Hdisj & _).
      intros Hin. apply (Hdisj (agg_timestamp a));
        [apply list_elem_of_In; exact Hin|].
      apply list_elem_of_In. left. reflexivity. }
    assert (Hnd' : NoDup (map agg_timestamp
                            (insert_aggregate a sorted ++ aggregated))).
    { assert (Hperm : Permutation
                        (map agg_timestamp
                           (insert_aggregate a sorted ++ aggregated))
                        (map agg_timestamp (sorted ++ a :: aggregated))).
      { apply Permutation_map.
        etransitivity; [|apply Permutation_middle].
        rewrite app_comm_cons. apply Permutation_app_tail.
        apply insert_aggregate_perm. }
      rewrite Hperm. exact Hnd. }
    destruct (IH (insert_aggregate a sorted)
                (insert_aggregate_sorted a sorted Hs Hnew) Hnd')
      as (Hsorted & Hin & Hcount).
    split; [exact Hsorted|]. split.
    + intros b. rewrite Hin, insert_aggregate_In. cbn [In].
      split; [intros [[->|H]|H]|intros [H|[<-|H]]]; auto.
    + rewrite Hcount, insert_aggregate_count.
      change (list_sum (map agg_count (a :: aggregated)))
        with (agg_count a + list_sum (map agg_count aggregated))%nat.
      lia.
Qed.

Lemma bucket_push_total (t : Z) (v : Q) (buckets : list (Z * list Q)) :
  list_sum (map (fun b => length (snd b)) (bucket_push t v buckets))
  = S (list_sum (map (fun b => length (snd b)) buckets)).
Proof.
  induction buckets as [|[t' values] buckets IH]; cbn [bucket_push];
    [reflexivity|].
  destruct (t' =? t).
  - change (list_sum (map (fun b => length (snd b))
                        ((t', values ++ [v]) :: buckets)))
      with (length (values ++ [v])
            + list_sum (map (fun b => length (snd b)) buckets))%nat.
    change (list_sum (map (fun b => length (snd b)) ((t', values) :: buckets)))
      with (length values
            + list_sum (map (fun b => length (snd b)) buckets))%nat.
    rewrite length_app. cbn [length]. lia.
  - change (list_sum (map (fun b => length (snd b))
                        ((t', values) :: bucket_push t v buckets)))
      with (length values
            + list_sum (map (fun b => length (snd b))
                          (bucket_push t v buckets)))%nat.
    rewrite IH.
    change (list_sum (map (fun b => length (snd b)) ((t', values) :: buckets)))
      with (length values
            + list_sum (map (fun b => length (snd b)) buckets))%nat.
    lia.
Qed.

Lemma group_buckets_total (ms : Z) (data : list MetricPoint) :
  forall buckets : list (Z * list Q),
    list_sum (map (fun b => length (snd b))
                (fold_left (fun buckets point =>
                              bucket_push (bucketTime ms point) (value point)
                                          buckets) data buckets))
    = (list_sum (map (fun b => length (snd b)) buckets) + length data)%nat.
Proof.
  induction data as [|p data IH]; intros buckets; cbn [fold_left length];
    [lia|].
  rewrite IH, bucket_push_total. lia.
Qed.


End SeriesFacts.

(** ** Metric keys and the order of tags *)
Section TagOrder.

Import Metrics.

Variable localeCompare : string -> string -> comparison.

Hypothesis localeCompare_trans :
  forall a b c,
    localeCompare a b = Lt -> localeCompare b c = Lt -> localeCompare a c = Lt.
Hypothesis localeCompare_total :
  forall a b, localeCompare a b <> Lt -> a <> b -> localeCompare b a = Lt.
Hypothesis localeCompare_asym :
  forall a b, localeCompare a b = Lt -> localeCompare b a <> Lt.

Lemma insert_tag_perm (t : string * string) (sorted : list (string * string)) :
  Permutation (insert_tag localeCompare t sorted) (t :: sorted).
Proof.
  induction sorted as [|u sorted IH]; cbn [insert_tag]; [reflexivity|].
  destruct (localeCompare (fst t) (fst u)); try reflexivity;
    (etransitivity; [apply perm_skip, IH|apply perm_swap]).
Qed.

Lemma insert_tag_sorted (t : string * string)
    (sorted : list (string * string)) :
  StronglySorted (tag_before localeCompare) sorted ->
  (forall u, In u sorted -> fst u <> fst t) ->
  StronglySorted (tag_before localeCompare) (insert_tag localeCompare t sorted).
Proof.
  induction sorted as [|u sorted IH]; intros Hs Hnew; cbn [insert_tag].
  - repeat constructor.
  - apply StronglySorted_inv in Hs as [Hs Hall].
    assert (Hlater : localeCompare (fst t) (fst u) <> Lt ->
                     StronglySorted (tag_before localeCompare)
                       (u :: insert_tag localeCompare t sorted)).
    { intros Hnot. constructor.
      - apply IH; [exact Hs|]. intros x Hx. apply Hnew. right. exact Hx.
      - apply List.Forall_forall. intros x Hx.
        apply (Permutation_in _ (insert_tag_perm t sorted)) in Hx.
        destruct Hx as [<-|Hx].
        + apply localeCompare_total; [exact Hnot|].
          intros Heq. apply (Hnew u); [left; reflexivity|].
          symmetry. exact Heq.
        + exact (proj1 (List.Forall_forall _ _) Hall x Hx). }
    destruct (localeCompare (fst t) (fst u)) eqn:Hcmp;
      try (apply Hlater; discriminate).
    constructor; [constructor; assumption|].
    constructor; [exact Hcmp|].
    eapply List.Forall_impl; [|exact Hall].
    intros x Hx. unfold tag_before in *.
    eapply localeCompare_trans; [exact Hcmp|exact Hx].
Qed.

Lemma sort_tags_spec (ts : list (string * string)) :
  forall sorted : list (string * string),
    StronglySorted (tag_before localeCompare) sorted ->
    List.NoDup (map fst (sorted ++ ts)) ->
    let result :=
      fold_left (fun sorted t => insert_tag localeCompare t sorted) ts sorted in
    StronglySorted (tag_before localeCompare) result
    /\ Permutation result (sorted ++ ts).
Proof.
  induction ts as [|t ts IH]; intros sorted Hs Hnd; cbn [fold_left].
  - rewrite app_nil_r. split; [exact Hs|reflexivity].
  - assert (Hperm : Permutation (insert_tag localeCompare t sorted ++ ts)
                                (sorted ++ t :: ts)).
    { etransitivity; [|apply Permutation_middle].
      rewrite app_comm_cons. apply Permutation_app_tail, insert_tag_perm. }
    assert (Hnew : forall u, In u sorted -> fst u <> fst t).
    { intros u Hu Heq. rewrite map_app in Hnd. cbn [map] in Hnd.
      apply List.NoDup_remove_2 in Hnd. apply Hnd.
      apply in_or_app. left. rewrite <- Heq. apply in_map. exact Hu. }
    destruct (IH (insert_tag localeCompare t sorted)
                (insert_tag_sorted t sorted Hs Hnew)) as [Hsorted Hresult].
    { eapply Permutation_NoDup; [|exact Hnd].
      apply Permutation_map. symmetry. exact Hperm. }
    split; [exact Hsorted|]. etransitivity; [exact Hresult|exact Hperm].
Qed.


End TagOrder.

Lemma String_compare_Lt_trans (a : string) :
  forall b c : string,
    String.compare a b = Lt -> String.compare b c = Lt ->
    String.compare a c = Lt.
Proof.
  induction a as [|x a IH]; intros [|y b] [|z c]; cbn [String.compare];
    try discriminate; try reflexivity.
  unfold Ascii.compare.
  destruct (N.compare_spec (Ascii.N_of_ascii x) (Ascii.N_of_ascii y))
    as [Hxy|Hxy|Hxy]; try discriminate;
    destruct (N.compare_spec (Ascii.N_of_ascii y) (Ascii.N_of_ascii z))
      as [Hyz|Hyz|Hyz]; try discriminate; intros Hab Hbc.
  - rewrite Hxy, Hyz, N.compare_refl. exact (IH _ _ Hab Hbc).
  - rewrite Hxy. rewrite (proj2 (N.compare_lt_iff _ _) Hyz). reflexivity.
  - rewrite <- Hyz. rewrite (proj2 (N.compare_lt_iff _ _) Hxy). reflexivity.
  - rewrite (proj2 (N.compare_lt_iff _ _) (N.lt_trans _ _ _ Hxy Hyz)).
    reflexivity.
Qed.


(** ** Request metrics *)
Section CollectorFacts.

Import Collector.

Lemma tail_drop {A : Type} (l : list A) : tail l = drop 1 l.
Proof. destruct l; reflexivity. Qed.

(** Pushing onto the last [n] elements gives the last [n] elements. *)
Lemma push_window_last_n (n : nat) (l : list Z) (x : Z) :
  (0 < n)%nat -> push_window n (last_n n l) x = last_n n (l ++ [x]).
Proof.
  intros Hn. unfold push_window, last_n.
  rewrite !length_app, length_drop. cbn [length].
  destruct (le_lt_dec n (length l)) as [Hfull|Hroom].
  - destruct (Nat.ltb_spec n (length l - (length l - n) + 1)) as [_|Hle];
      [|lia].
    rewrite tail_drop.
    rewrite <- (drop_app_le l [x] (length l - n)) by lia.
    rewrite drop_drop. f_equal. lia.
  - destruct (Nat.ltb_spec n (length l - (length l - n) + 1)) as [Hlt|_];
      [lia|].
    replace (length l - n)%nat with 0%nat by lia.
    replace (length l + 1 - n)%nat with 0%nat by lia. reflexivity.
Qed.

Lemma endpoint_entry_snoc (rs : list Request) (r : Request) :
  endpoint_entry (rs ++ [r])
  = Some (mkEndpoint
            (count (default (mkEndpoint 0 []) (endpoint_entry rs)) + 1)
            (push_window 100
               (durations (default (mkEndpoint 0 []) (endpoint_entry rs)))
               (req_duration r))).
Proof.
  destruct rs as [|r0 rs]; [reflexivity|].
  change (endpoint_entry (r0 :: rs))
    with (Some (mkEndpoint (Z.of_nat (length (r0 :: rs)))
                           (last_n 100 (map req_duration (r0 :: rs))))).
  cbn [default from_option]. unfold Datatypes.id. cbn [count durations].
  rewrite push_window_last_n by lia.
  change [req_duration r] with (map req_duration [r]).
  rewrite <- (map_app req_duration (r0 :: rs) [r]).
  change ((r0 :: rs) ++ [r]) with (r0 :: (rs ++ [r])).
  unfold endpoint_entry. do 2 f_equal.
  cbn [length]. rewrite length_app. cbn [length]. lia.
Qed.

Lemma group_entry_snoc (rs : list Request) (r : Request) :
  group_entry (rs ++ [r]) = Some (default 0 (group_entry rs) + 1).
Proof.
  destruct rs as [|r0 rs]; [reflexivity|].
  change ((r0 :: rs) ++ [r]) with (r0 :: (rs ++ [r])).
  unfold group_entry. cbn [default from_option length].
  unfold Datatypes.id. f_equal.
  rewrite length_app. cbn [length]. lia.
Qed.

(** X26.  The request metrics account for every request: after any
    sequence of finished requests the total is their number, the errors are
    those with a status of 400 or more, the overall window holds the last
    1000 durations; each endpoint that was hit has its number of requests
    and the last 100 of its durations, in order, and each status group that
    occurred has its number of requests.  Endpoints and groups that did not
    occur have no entry. *)
Theorem requests_are_accounted :
  forall requests : list Request,
    let m := run requests in
    total m = Z.of_nat (length requests)
    /\ errors m
       = Z.of_nat (length (List.filter (fun r => 400 <=? res_statusCode r)
                                       requests))
    /\ responseTimes m = last_n 1000 (map req_duration requests)
    /\ (forall endpoint,
          byEndpoint m !! endpoint
          = endpoint_entry (to_endpoint endpoint requests))
    /\ (forall statusGroup,
          byStatus m !! statusGroup
          = group_entry (in_group statusGroup requests)).
Proof.
  intros requests. unfold run.
  induction requests as [|r requests IH] using rev_ind.
  - cbn. repeat split; intros; apply lookup_empty.
  - rewrite fold_left_app. cbn [fold_left].
    set (m := fold_left _ requests new) in *.
    cbv zeta in IH. destruct IH as (Ht & He & Hr & Hep & Hst).
    unfold recordRequest.
    cbn [total errors responseTimes byEndpoint byStatus].
    split; [rewrite Ht, length_app; cbn [length]; lia|].
    split.
    { rewrite He, List.filter_app, length_app. cbn [List.filter].
      destruct (400 <=? res_statusCode r); cbn [length]; lia. }
    split.
    { rewrite Hr, map_app. apply push_window_last_n. lia. }
    split.
    + intros endpoint. unfold to_endpoint. rewrite List.filter_app.
      cbn [List.filter]. fold (to_endpoint endpoint requests).
      destruct (String.eqb_spec (req_path r) endpoint) as [<-|Hne].
      * rewrite lookup_insert_eq, Hep. symmetry. apply endpoint_entry_snoc.
      * rewrite lookup_insert_ne by exact Hne.
        rewrite app_nil_r. apply Hep.
    + intros statusGroup. unfold in_group. rewrite List.filter_app.
      cbn [List.filter]. fold (in_group statusGroup requests).
      destruct (Z.eqb_spec (res_statusCode r / 100) statusGroup) as [<-|Hne].
      * rewrite lookup_insert_eq, Hst. symmetry. apply group_entry_snoc.
      * rewrite lookup_insert_ne by exact Hne.
        rewrite app_nil_r. apply Hst.
Qed.

End CollectorFacts.

(** ** The further properties at concrete inputs *)

Lemma groups_partition_the_batch_witness :
  exists keys : list string,
    NoDup keys
    /\ Batch.groupByOptions
         [Scenario.first_text; Batch.mkItem "c" "{model:x}" 10;
          Scenario.second_text]
       = map (fun key =>
                Batch.with_options key
                  [Scenario.first_text; Batch.mkItem "c" "{model:x}" 10;
                   Scenario.second_text]) keys.
Proof.
  destruct (groups_partition_the_batch
              [Scenario.first_text; Batch.mkItem "c" "{model:x}" 10;
               Scenario.second_text]) as (keys & Hnd & _ & Hgroups & _).
  exists keys. split; [exact Hnd|exact Hgroups].
Defined.

Lemma addMetric_stores_fresh_samples_only_witness :
  Metrics.addMetric String.compare ∅ "request_duration" 12 (Some 1000) []
    90000000
  !! Metrics.getMetricKey String.compare "request_duration" []
  = Some [].
Proof.
  exact (proj1 (addMetric_stores_fresh_samples_only String.compare ∅
                  "request_duration" 12 (Some 1000) [] 90000000)).
Defined.


Lemma requests_are_accounted_witness :
  Collector.total
    (Collector.run [Collector.mkRequest "/health" 200 3;
                    Collector.mkRequest "/api/mcp/tools" 502 40])
  = 2.
Proof.
  exact (proj1 (requests_are_accounted
                  [Collector.mkRequest "/health" 200 3;
                   Collector.mkRequest "/api/mcp/tools" 502 40])).
Defined.

(** ** Batch insert *)
Section ClientFacts.

Import Client.

Context {W E : Type}.
Variable batchGenerateEmbeddings : list string -> Async W (list (option E)).
Variable insertBatch : list (Document * option E) -> Async W unit.

Lemma reported_snoc (errors : list (Z * Z * Error)) (entry : Z * Z * Error) :
  reported (errors ++ [entry])
  = reported errors + (snd (fst entry) - fst (fst entry)).
Proof.
  unfold reported. induction errors as [|e errors IH]; cbn [app fold_right].
  - lia.
  - rewrite IH. lia.
Qed.

Lemma insert_from_accounts (objects : list Document) :
  forall (fuel i : nat) (results : Results) (w : W),
    (length objects <= i + batchSize * fuel)%nat ->
    (i mod 50 = 0)%nat ->
    failed results = reported (errors results) ->
    Forall (names_a_batch (length objects)) (errors results) ->
    match insert_from batchGenerateEmbeddings insertBatch fuel i objects
                      results w with
    | (Resolved r, _) =>
        successful r + failed r
        = successful results + failed results
          + Z.of_nat (length objects - i)
        /\ successful results <= successful r
        /\ failed r = reported (errors r)
        /\ Forall (names_a_batch (length objects)) (errors r)
    | (Rejected error, _) =>
        (exists texts w0 w1,
            batchGenerateEmbeddings texts w0 = (Rejected error, w1))
        \/ (exists batch w0 w1,
               insertBatch batch w0 = (Rejected UndefinedError, w1))
    end.
Proof.
  unfold batchSize.
  induction fuel as [|fuel IH]; intros i results w Hfuel Hmod Hrep Hnames;
    cbn [insert_from].
  - replace (length objects - i)%nat with 0%nat by lia.
    split; [lia|]. split; [lia|]. split; assumption.
  - destruct (Nat.ltb_spec i (length objects)) as [Hlt|Hge].
    2:{ replace (length objects - i)%nat with 0%nat by lia.
        split; [lia|]. split; [lia|]. split; assumption. }
    set (batch := take batchSize (drop i objects)).
    assert (Hlen : length batch = Nat.min 50 (length objects - i)).
    { unfold batch, batchSize. rewrite length_take, length_drop. reflexivity. }
    assert (Hmod' : ((i + 50) mod 50 = 0)%nat).
    { replace (i + 50)%nat with (i + 1 * 50)%nat by lia.
      rewrite Nat.Div0.mod_add. exact Hmod. }
    destruct (batchGenerateEmbeddings (map textToEmbed batch) w)
      as [[embeddings|error] w1] eqn:Hembed.
    2:{ left. exists (map textToEmbed batch), w, w1. exact Hembed. }
    destruct (insertBatch _ w1) as [[[]|error] w2] eqn:Hinsert.
    + specialize (IH (i + 50)%nat
                    (mkResults (successful results + Z.of_nat (length batch))
                               (failed results) (errors results)) w2).
      cbn [successful failed errors] in IH.
      unfold batchSize in *.
      destruct (insert_from batchGenerateEmbeddings insertBatch fuel (i + 50)
                  objects _ w2) as [[r|error] w3].
      * destruct IH as (Hsum & Hmono & Hrep' & Hnames');
          [lia|exact Hmod'|exact Hrep|exact Hnames|].
        split; [lia|]. split; [lia|]. split; assumption.
      * apply IH; [lia|exact Hmod'|exact Hrep|exact Hnames].
    + specialize (IH (i + 50)%nat
                    (mkResults (successful results)
                               (failed results + Z.of_nat (length batch))
                               (errors results
                                ++ [(Z.of_nat i, Z.of_nat (i + length batch),
                                     error)])) w2).
      cbn [successful failed errors] in IH.
      unfold batchSize in *.
      assert (Hrep1 : failed results + Z.of_nat (length batch)
                      = reported (errors results
                                  ++ [(Z.of_nat i, Z.of_nat (i + length batch),
                                       error)])).
      { rewrite reported_snoc. cbn [fst snd]. lia. }
      assert (Hnames1 : Forall (names_a_batch (length objects))
                          (errors results
                           ++ [(Z.of_nat i, Z.of_nat (i + length batch),
                                error)])).
      { apply Forall_app. split; [exact Hnames|].
        apply Forall_singleton. unfold names_a_batch. cbn [fst snd].
        split.
        - change 50 with (Z.of_nat 50). rewrite <- Nat2Z.inj_mod, Hmod.
          reflexivity.
        - lia. }
      specialize (IH ltac:(lia) Hmod' Hrep1 Hnames1).
      assert (Hcont :
        match insert_from batchGenerateEmbeddings insertBatch fuel (i + 50)
                objects
                (mkResults (successful results)
                           (failed results + Z.of_nat (length batch))
                           (errors results
                            ++ [(Z.of_nat i, Z.of_nat (i + length batch),
                                 error)])) w2 with
        | (Resolved r, _) =>
            successful r + failed r
            = successful results + failed results
              + Z.of_nat (length objects - i)
            /\ successful results <= successful r
            /\ failed r = reported (errors r)
            /\ Forall (names_a_batch (length objects)) (errors r)
        | (Rejected error, _) =>
            (exists texts w0 w1,
                batchGenerateEmbeddings texts w0 = (Rejected error, w1))
            \/ (exists batch w0 w1,
                   insertBatch batch w0 = (Rejected UndefinedError, w1))
        end).
      { destruct (insert_from batchGenerateEmbeddings insertBatch fuel
                    (i + 50) objects _ w2) as [[r|error'] w3].
        - destruct IH as (Hsum & Hmono & Hrep' & Hnames').
          split; [lia|]. split; [lia|]. split; assumption.
        - exact IH. }
      destruct error; try exact Hcont.
      right. eexists _, _, _. exact Hinsert.
Qed.


End ClientFacts.


(** ** Embeddings and the cache *)
Section EmbeddingFacts.

Import Client.

Context {W E : Type} `{World W}.

(** A text whose key is in the cache is answered from the cache. *)
Lemma generateEmbedding_hit (cm : Retry.ConnectionManager)
    (cache : gmap string E) (embed : string -> string -> Async W E)
    (text : string) (w : W) (cached : E) :
  cache !! Cache.generateKey "embedding" [text] = Some cached ->
  generateEmbedding cm cache embed text w = (Resolved cached, (cm, cache), w).
Proof. intros Hhit. unfold generateEmbedding. rewrite Hhit. reflexivity. Qed.

(** After a call that succeeded the key of the text holds what the call
    returned. *)
Lemma generateEmbedding_caches (cm cm1 : Retry.ConnectionManager)
    (cache cache1 : gmap string E) (embed : string -> string -> Async W E)
    (text : string) (w w1 : W) (e : E) :
  generateEmbedding cm cache embed text w = (Resolved e, (cm1, cache1), w1) ->
  cache1 !! Cache.generateKey "embedding" [text] = Some e.
Proof.
  unfold generateEmbedding.
  destruct (cache !! Cache.generateKey "embedding" [text]) as [cached|] eqn:Hl.
  - intros Heq. injection Heq as <- <- <- <-. exact Hl.
  - destruct (Retry.executeWithRetry cm "cohere" (embed text) w)
      as [[[result|error] cm'] w'].
    + intros Heq. injection Heq as <- <- <- <-. apply lookup_insert_eq.
    + discriminate.
Qed.


End EmbeddingFacts.

